(** * InspireTree: a shallow embedding of [src/tree.ts]

    The tree orchestrator of inspire-tree, embedded as pure functions over an
    explicit tree record.  JavaScript values that reach the orchestrator
    untyped ([opts: any], raw records, the argument of [mute]) are kept as a
    small universe [JsVal]; mutation of the tree instance is explicit state
    passing; the things an outside observer can see (dispatched events, calls
    into the renderer, the settling of the promise returned by [load]) are
    appended to a trace carried by the tree.  The node and collection
    classes ([treenode.ts], [treenodes.ts]) are not among the sources: the
    few methods of theirs the orchestrator calls are modelled from the
    specification, each marked as such. *)

From Stdlib Require Import List String Ascii ZArith Bool Arith PeanoNat Lia.
From Stdlib Require Import Sorted Permutation.
Import ListNotations.
Set Warnings "-register-all".
Local Open Scope string_scope.
Local Open Scope list_scope.

(* ================================================================== *)
(** * Part I: definitions *)
(* ================================================================== *)

(** ** JavaScript values *)

Module Js.

(** The values the orchestrator inspects with [typeof], [||], [!] and the
    lodash type predicates.  A number is known by the integer it is written
    as; an array is known by its length. *)
Inductive JsVal : Type :=
| VUndefined
| VNull
| VBool (b : bool)
| VNum (z : Z)
| VStr (s : string)
| VArr (len : nat)
| VFun
| VObj.

(** [ToBoolean]: what [!v], [v || w] and [if (v)] look at. *)
Definition truthy (v : JsVal) : bool :=
  match v with
  | VUndefined | VNull => false
  | VBool b => b
  | VNum z => negb (Z.eqb z 0)
  | VStr s => negb (String.eqb s "")
  | VArr _ | VFun | VObj => true
  end.

Definition isBoolean (v : JsVal) : bool :=
  match v with VBool _ => true | _ => false end.

Definition isFunction (v : JsVal) : bool :=
  match v with VFun => true | _ => false end.

(** Decimal digits of a natural number, most significant first. *)
Definition digit (d : nat) : ascii := ascii_of_nat (48 + d).

Fixpoint digits_fuel (fuel n : nat) (acc : string) : string :=
  match fuel with
  | O => acc
  | S fuel' =>
      let acc' := String (digit (n mod 10)) acc in
      if Nat.eqb (n / 10) 0 then acc' else digits_fuel fuel' (n / 10) acc'
  end.

Definition nat_to_string (n : nat) : string := digits_fuel (S n) n "".

(** The decimal digits of a natural number given as an integer. *)
Definition digitZ (d : Z) : ascii := ascii_of_nat (48 + Z.to_nat d).

Fixpoint digits_of (fuel : nat) (z : Z) (acc : string) : string :=
  match fuel with
  | O => acc
  | S fuel' =>
      let acc' := String (digitZ (z mod 10)) acc in
      if Z.eqb (z / 10) 0 then acc' else digits_of fuel' (z / 10) acc'
  end.

Definition decimal (z : Z) : string :=
  digits_of (S (Z.to_nat (Z.log2 z))) z "".

(** A number is a double: the one nearest to the integer [v], ties to the
    even significand, is the number the integer stands for. *)
Definition toDouble (v : Z) : Z :=
  let e := (Z.log2 v - 52)%Z in
  if Z.leb e 0 then v
  else
    let m := Z.shiftr v e in
    let r := Z.land v (Z.ones e) in
    let half := Z.shiftl 1 (e - 1) in
    let up := Z.ltb half r || (Z.eqb r half && Z.odd m) in
    Z.shiftl (if up then m + 1 else m)%Z e.

(** Whether the decimal [c] reads back as the double [d]: it lies within
    half the gap to the next double below and above, the ends counting
    when the significand is even. *)
Definition readsAs (d c : Z) : bool :=
  let e := (Z.log2 d - 52)%Z in
  let m := Z.shiftr d e in
  let above := Z.shiftl 1 (e + 1) in
  let below := if Z.eqb m (Z.shiftl 1 52) then Z.shiftl 1 e else above in
  let x := (4 * c)%Z in
  let lo := (4 * d - below)%Z in
  let hi := (4 * d + above)%Z in
  if Z.even m then Z.leb lo x && Z.leb x hi
  else Z.ltb lo x && Z.ltb x hi.

(** The decimal with the fewest digits that reads back as [d], the one
    nearest to [d] if there are two, the even one if both are as near:
    [j] zeros at the end are tried first, then fewer. *)
Fixpoint shortest (j : nat) (d : Z) : Z :=
  match j with
  | O => d
  | S j' =>
      let p := (10 ^ Z.of_nat j)%Z in
      let c1 := (d / p * p)%Z in
      let c2 := (c1 + p)%Z in
      let ok1 := readsAs d c1 in
      let ok2 := readsAs d c2 in
      if ok1 && ok2 then
        if Z.ltb (d - c1) (c2 - d) then c1
        else if Z.ltb (c2 - d) (d - c1) then c2
        else if Z.even (d / p) then c1 else c2
      else if ok1 then c1
      else if ok2 then c2
      else shortest j' d
  end.

Fixpoint stripZeros (fuel : nat) (c : Z) : Z :=
  match fuel with
  | O => c
  | S fuel' => if Z.eqb (c mod 10) 0 then stripZeros fuel' (c / 10) else c
  end.

(** The digits, a dot after the first, and the exponent. *)
Definition exponential (c : Z) : string :=
  let n := String.length (decimal c) in
  match decimal (stripZeros n c) with
  | EmptyString => EmptyString
  | String first EmptyString =>
      String first ("e+" ++ decimal (Z.of_nat (n - 1)))
  | String first rest =>
      String first ("." ++ rest ++ "e+" ++ decimal (Z.of_nat (n - 1)))
  end.

(** [Number.prototype.toString] on a positive integer: the shortest
    digits that read back as the number, written out in full up to 21
    digits and with an exponent beyond. *)
Definition magnitude_to_string (v : Z) : string :=
  let d := toDouble v in
  if Z.leb (Z.shiftl 1 1024) d then "Infinity"
  else
    let c := if Z.leb d (Z.shiftl 1 53) then d
             else shortest (String.length (decimal d) - 1) d in
    if Nat.leb (String.length (decimal c)) 21 then decimal c
    else exponential c.

(** [Number.prototype.toString] on an integer. *)
Definition num_to_string (z : Z) : string :=
  match z with
  | Z0 => "0"
  | Zpos p => magnitude_to_string (Zpos p)
  | Zneg p => ("-" ++ magnitude_to_string (Zpos p))%string
  end.

End Js.
Import Js.

(** ** Muting and the emitter override *)

(** [_muted: any = false]: [false], [true], or the array [mute] stored. *)
Inductive Muted : Type :=
| MutedFalse
| MutedTrue
| MutedNames (names : list string).

(** What an event carries: a node, the records handed over (their number),
    the model, data handed over that is no array of records, an error. *)
Inductive Payload : Type :=
| PNone
| PNode (ident : string)
| PNodes (count : nat)
| PModel
| PData
| PError (msg : string).

(** What an observer of a tree can see, in the order it happens. *)
Inductive Obs : Type :=
| Emitted (name : string) (payload : Payload)
| ModelReplaced
| ModelCleared
| SelectCall (position : list nat)
| Resolved
| Rejected (msg : string)
| DomBatch
| DomEnd
| DomApplyChanges
| DomAttach.

(** The argument of [mute] and [unmute]. *)
Inductive EventsArg : Type :=
| EvNone
| EvString (name : string)
| EvArray (names : list string).

Definition events_isStringOrArray (e : EventsArg) : bool :=
  match e with EvNone => false | _ => true end.

(** [_.castArray] *)
Definition castArray (e : EventsArg) : list string :=
  match e with
  | EvNone => []
  | EvString s => [s]
  | EvArray l => l
  end.

(** [!tree.muted()]: an array is an object, hence truthy, also when empty. *)
Definition muted_truthy (m : Muted) : bool :=
  match m with
  | MutedFalse => false
  | MutedTrue => true
  | MutedNames _ => true
  end.

Definition mem_string (s : string) (l : list string) : bool :=
  existsb (String.eqb s) l.

(** [_.difference(array, values)]: the empty array unless [array] is
    array-like. *)
Definition difference (m : Muted) (values : list string) : list string :=
  match m with
  | MutedNames l => filter (fun s => negb (mem_string s values)) l
  | _ => []
  end.

(** ** Nodes *)

(** The state flags of a node, [itree.state]. *)
Record State : Type := mkState {
  collapsed : bool;
  focused : bool;
  hidden : bool;
  indeterminate : bool;
  loading : bool;
  removed : bool;
  selectable : bool;
  selected : bool
}.

(** [defaultState] of the class. *)
Definition defaultState : State :=
  {| collapsed := true;
     focused := false;
     hidden := false;
     indeterminate := false;
     loading := false;
     removed := false;
     selectable := true;
     selected := false |}.

(** The names [node.state(prop)] is called with. *)
Inductive StateProp : Type :=
| Collapsed | Focused | Hidden | Indeterminate
| Loading | Removed | Selectable | SelectedProp.

(** [node.state(prop)] *)
Definition getState (prop : StateProp) (s : State) : bool :=
  match prop with
  | Collapsed => collapsed s
  | Focused => focused s
  | Hidden => hidden s
  | Indeterminate => indeterminate s
  | Loading => loading s
  | Removed => removed s
  | Selectable => selectable s
  | SelectedProp => selected s
  end.

(** [node.state(prop, value)] *)
Definition setState (prop : StateProp) (v : bool) (s : State) : State :=
  match prop with
  | Collapsed =>
      mkState v (focused s) (hidden s) (indeterminate s) (loading s)
              (removed s) (selectable s) (selected s)
  | Focused =>
      mkState (collapsed s) v (hidden s) (indeterminate s) (loading s)
              (removed s) (selectable s) (selected s)
  | Hidden =>
      mkState (collapsed s) (focused s) v (indeterminate s) (loading s)
              (removed s) (selectable s) (selected s)
  | Indeterminate =>
      mkState (collapsed s) (focused s) (hidden s) v (loading s)
              (removed s) (selectable s) (selected s)
  | Loading =>
      mkState (collapsed s) (focused s) (hidden s) (indeterminate s) v
              (removed s) (selectable s) (selected s)
  | Removed =>
      mkState (collapsed s) (focused s) (hidden s) (indeterminate s)
              (loading s) v (selectable s) (selected s)
  | Selectable =>
      mkState (collapsed s) (focused s) (hidden s) (indeterminate s)
              (loading s) (removed s) v (selected s)
  | SelectedProp =>
      mkState (collapsed s) (focused s) (hidden s) (indeterminate s)
              (loading s) (removed s) (selectable s) v
  end.

(** A node of the model: the wrapped record with its id, its display text,
    its state and its child collection ([TreeNodes]). *)
Inductive TreeNode : Type :=
| Node (ident : string) (text : string) (st : State)
       (children : list TreeNode).

Definition TreeNodes : Type := list TreeNode.

Definition node_id (n : TreeNode) : string :=
  match n with Node i _ _ _ => i end.

Definition node_text (n : TreeNode) : string :=
  match n with Node _ t _ _ => t end.

Definition node_state (n : TreeNode) : State :=
  match n with Node _ _ s _ => s end.

Definition node_children (n : TreeNode) : TreeNodes :=
  match n with Node _ _ _ c => c end.

(** [node.hasChildren()] *)
Definition hasChildren (n : TreeNode) : bool :=
  match node_children n with [] => false | _ => true end.

(** A node is referred to by its position: the index in the root collection,
    then the index in each child collection down to the node. *)
Definition Path : Type := list nat.

Definition path_eqb (p q : Path) : bool :=
  if list_eq_dec Nat.eq_dec p q then true else false.

(** ** Raw records and loaders *)

(** The [itree.state] a caller may pre-set on a raw record: each flag is
    either absent or a boolean. *)
Record RawState : Type := mkRawState {
  r_collapsed : option bool;
  r_focused : option bool;
  r_hidden : option bool;
  r_indeterminate : option bool;
  r_loading : option bool;
  r_removed : option bool;
  r_selectable : option bool;
  r_selected : option bool
}.

Definition noRawState : RawState :=
  mkRawState None None None None None None None None.

(** A primitive that is not array-like. *)
Inductive Primitive : Type :=
| PrimUndefined
| PrimNull
| PrimBool (b : bool)
| PrimNum (z : Z).

Definition prim_truthy (v : Primitive) : bool :=
  match v with
  | PrimUndefined | PrimNull => false
  | PrimBool b => b
  | PrimNum z => negb (Z.eqb z 0)
  end.

(** The [id] of a raw record: a string, or a primitive that is not a
    string; an absent [id] is [undefined]. *)
Inductive RawId : Type :=
| IdStr (s : string)
| IdPrim (v : Primitive).

(** A raw record: [{ id?, text, children?, itree?: { state } }]. *)
Inductive Raw : Type :=
| RawNode (rid : RawId) (rtext : string) (rstate : RawState)
          (rchildren : list Raw).

(** Something that stands where a record is expected and is no object:
    [null] or [undefined], of which no property can be read; or another
    primitive (a character of a string, a number), on which no property
    can be set. *)
Inductive NotObject : Type :=
| Nullish
| OtherPrimitive.

(** Data that cannot be parsed: somewhere in it, at whatever depth,
    something that is no object stands where a record is expected.
    [before] are the records of the array that are parsed before the
    offending member is come to (the records the configured sort puts
    before it; with no sort, the records that precede it); the offending
    member is no object, or is a record that has such data for
    [children]. *)
Inductive Malformed : Type :=
| BadMember (before : list Raw) (v : NotObject)
| BadChildren (before : list Raw) (rid : RawId) (children : Malformed).

(** What [complete] is handed: an array of records; or data that cannot
    be parsed, in an array ([_.isArray]) or in another array-like, such as
    a string, whose members are its characters. *)
Inductive Handed : Type :=
| Records (records : list Raw)
| Unparsable (isArray : bool) (m : Malformed).

(** How something that is awaited ends. *)
Inductive Settle : Type :=
| Resolves (nodes : list Raw)
| ResolvesUnparsable (isArray : bool) (m : Malformed)
| Rejects (err : string)
| NeverSettles.

(** A promise-like object as [standardizePromise] sees it: which of
    [then], [error] and [catch] are functions, and how the object settles.
    A plain object has none of the three. *)
Record PromiseLike : Type := mkPromiseLike {
  has_then : bool;
  has_error : bool;
  has_catch : bool;
  outcome : Settle
}.

(** What a callback-style loader does with the callbacks it is given. *)
Inductive LoaderCall : Type :=
| CallComplete (nodes : list Raw)
| CallCompleteUnparsable (isArray : bool) (m : Malformed)
| CallError (err : string).

(** What the call [loader(null, complete, error)] evaluates to. *)
Inductive LoaderEnd : Type :=
| ReturnsNothing
| ReturnsPromiseLike (p : PromiseLike)
| ReturnsTruthyPrimitive
| Throws (err : string).

(** A loader function: the callbacks it invokes before it returns, how the
    call ends, and the callbacks it invokes later on. *)
Record LoaderFunction : Type := mkLoaderFunction {
  calls_now : list LoaderCall;
  ending : LoaderEnd;
  calls_later : list LoaderCall
}.

(** The values [load] is written for: an array of raw records, a loader
    function, a promise-like object; an array-like that cannot be parsed;
    and the primitives that are none of these. *)
Inductive Loader : Type :=
| LArray (records : list Raw)
| LUnparsable (isArray : bool) (m : Malformed)
| LFunction (f : LoaderFunction)
| LObject (p : PromiseLike)
| LPrimitive (v : Primitive).

(** [ToBoolean] of a loader, for [!opts.data]. *)
Definition loader_truthy (l : Loader) : bool :=
  match l with
  | LPrimitive v => prim_truthy v
  | _ => true
  end.

Definition loader_isFunction (l : Loader) : bool :=
  match l with LFunction _ => true | _ => false end.


(** ** Options and configuration *)

(** [opts.selection] and [config.selection]; an absent property is
    [VUndefined]. *)
Record Selection : Type := mkSelection {
  allow : JsVal;
  autoDeselect : JsVal;
  autoSelectChildren : JsVal;
  disableDirectDeselection : JsVal;
  mode : JsVal;
  multiple : JsVal;
  require : JsVal
}.

(** How a call into the code of the caller ends. *)
Inductive CallEnd : Type :=
| CallReturns
| CallThrows (err : string).

(** The renderer of the caller, [opts.renderer] when that is a function:
    how the call [config.renderer(tree)] ends, and how the call of the
    [attach] hook of the object it returns ends (a hook that is missing is
    [noop]).  The other hooks ([batch], [end], [applyChanges]) return. *)
Record CustomRenderer : Type := mkCustomRenderer {
  renderer_call : CallEnd;
  attach_call : CallEnd
}.

(** The object given to the constructor, and the [config] made from it.
    [selection_isNull] is [opts.selection === null], which
    [_.defaultsDeep] keeps; the record [selection] is not looked at
    then. *)
Record Options : Type := mkOptions {
  data : Loader;
  target : JsVal;
  allowLoadEvents : option (list string);
  contextMenu : JsVal;
  dragTargets : JsVal;
  resetStateOnRestore : JsVal;
  renderer : JsVal;
  search_option : JsVal;
  selection : Selection;
  showCheckboxes : JsVal;
  sort : option (Raw -> Z);
  tabindex : JsVal;
  selection_isNull : bool;
  customRenderer : CustomRenderer
}.

(** One property under [_.defaultsDeep]: the caller's value unless it is
    [undefined]. *)
Definition default_to (d v : JsVal) : JsVal :=
  match v with VUndefined => d | _ => v end.

Definition defaultSelection (s : Selection) : Selection :=
  {| allow := default_to VFun (allow s);
     autoDeselect := default_to (VBool true) (autoDeselect s);
     autoSelectChildren := default_to (VBool false) (autoSelectChildren s);
     disableDirectDeselection :=
       default_to (VBool false) (disableDirectDeselection s);
     mode := default_to (VStr "default") (mode s);
     multiple := default_to (VBool false) (multiple s);
     require := default_to (VBool false) (require s) |}.

(** [_.defaultsDeep({}, opts, { ... })] *)
Definition defaultsDeep (o : Options) : Options :=
  {| data := data o;
     target := target o;
     allowLoadEvents :=
       match allowLoadEvents o with None => Some [] | Some l => Some l end;
     contextMenu := default_to (VBool false) (contextMenu o);
     dragTargets := default_to (VBool false) (dragTargets o);
     resetStateOnRestore := default_to (VBool true) (resetStateOnRestore o);
     renderer := default_to (VBool false) (renderer o);
     search_option := default_to (VBool false) (search_option o);
     selection := defaultSelection (selection o);
     showCheckboxes := default_to (VBool false) (showCheckboxes o);
     sort := sort o;
     tabindex := default_to (VNum (-1)) (tabindex o);
     selection_isNull := selection_isNull o;
     customRenderer := customRenderer o |}.

Definition set_selection (s : Selection) (c : Options) : Options :=
  mkOptions (data c) (target c) (allowLoadEvents c) (contextMenu c)
            (dragTargets c) (resetStateOnRestore c) (renderer c)
            (search_option c) s (showCheckboxes c) (sort c) (tabindex c)
            (selection_isNull c) (customRenderer c).

Definition set_showCheckboxes (v : JsVal) (c : Options) : Options :=
  mkOptions (data c) (target c) (allowLoadEvents c) (contextMenu c)
            (dragTargets c) (resetStateOnRestore c) (renderer c)
            (search_option c) (selection c) v (sort c) (tabindex c)
            (selection_isNull c) (customRenderer c).

Definition is_checkbox (v : JsVal) : bool :=
  match v with VStr s => String.eqb s "checkbox" | _ => false end.

(** "If checkbox mode, we must force auto-selecting children" *)
Definition forceCheckbox (o c : Options) : Options :=
  if is_checkbox (mode (selection c)) then
    let s := selection c in
    let s' := mkSelection (allow s) (VBool false) (VBool true)
                          (disableDirectDeselection s) (mode s)
                          (multiple s) (require s) in
    let c' := set_selection s' c in
    if negb (isBoolean (showCheckboxes o))
    then set_showCheckboxes (VBool true) c'
    else c'
  else c.

(** "If auto-selecting children, we must force multiselect" *)
Definition forceMultiple (c : Options) : Options :=
  if truthy (autoSelectChildren (selection c)) then
    let s := selection c in
    set_selection
      (mkSelection (allow s) (autoDeselect s) (autoSelectChildren s)
                   (disableDirectDeselection s) (mode s)
                   (VBool true) (require s)) c
  else c.

(** The [config] the constructor stores. *)
Definition buildConfig (o : Options) : Options :=
  forceMultiple (forceCheckbox o (defaultsDeep o)).

(** ** The tree instance *)

(** The promise a call of [load] returns. *)
Inductive PromiseState : Type :=
| Pending
| Fulfilled
| RejectedWith (err : string).

(** The fields of the class, and what the embedding keeps beside them: the
    counter of the id generator, the promise of the running [load], the
    queue of [setTimeout] and the trace of what was observable so far. *)
Record InspireTree : Type := mkTree {
  _lastSelectedNode : option Path;
  _muted : Muted;
  allowsLoadEvents : bool;
  config : Options;
  has_dom : bool;
  initialized : bool;
  isDynamic : bool;
  model : TreeNodes;
  preventDeselection : bool;
  next_cuid : nat;
  promise : PromiseState;
  timers : list (string * Payload);
  trace : list Obs
}.

Definition set_lastSelectedNode (p : option Path) (t : InspireTree) :=
  mkTree p (_muted t) (allowsLoadEvents t) (config t) (has_dom t)
         (initialized t) (isDynamic t) (model t) (preventDeselection t)
         (next_cuid t) (promise t) (timers t) (trace t).

Definition set_muted (m : Muted) (t : InspireTree) :=
  mkTree (_lastSelectedNode t) m (allowsLoadEvents t) (config t) (has_dom t)
         (initialized t) (isDynamic t) (model t) (preventDeselection t)
         (next_cuid t) (promise t) (timers t) (trace t).

Definition set_initialized (b : bool) (t : InspireTree) :=
  mkTree (_lastSelectedNode t) (_muted t) (allowsLoadEvents t) (config t)
         (has_dom t) b (isDynamic t) (model t) (preventDeselection t)
         (next_cuid t) (promise t) (timers t) (trace t).

Definition set_model (m : TreeNodes) (t : InspireTree) :=
  mkTree (_lastSelectedNode t) (_muted t) (allowsLoadEvents t) (config t)
         (has_dom t) (initialized t) (isDynamic t) m (preventDeselection t)
         (next_cuid t) (promise t) (timers t) (trace t).

Definition set_preventDeselection (b : bool) (t : InspireTree) :=
  mkTree (_lastSelectedNode t) (_muted t) (allowsLoadEvents t) (config t)
         (has_dom t) (initialized t) (isDynamic t) (model t) b
         (next_cuid t) (promise t) (timers t) (trace t).

Definition set_next_cuid (n : nat) (t : InspireTree) :=
  mkTree (_lastSelectedNode t) (_muted t) (allowsLoadEvents t) (config t)
         (has_dom t) (initialized t) (isDynamic t) (model t)
         (preventDeselection t) n (promise t) (timers t) (trace t).

Definition set_promise (p : PromiseState) (t : InspireTree) :=
  mkTree (_lastSelectedNode t) (_muted t) (allowsLoadEvents t) (config t)
         (has_dom t) (initialized t) (isDynamic t) (model t)
         (preventDeselection t) (next_cuid t) p (timers t) (trace t).

Definition set_timers (q : list (string * Payload)) (t : InspireTree) :=
  mkTree (_lastSelectedNode t) (_muted t) (allowsLoadEvents t) (config t)
         (has_dom t) (initialized t) (isDynamic t) (model t)
         (preventDeselection t) (next_cuid t) (promise t) q (trace t).

Definition set_trace (l : list Obs) (t : InspireTree) :=
  mkTree (_lastSelectedNode t) (_muted t) (allowsLoadEvents t) (config t)
         (has_dom t) (initialized t) (isDynamic t) (model t)
         (preventDeselection t) (next_cuid t) (promise t) (timers t) l.

(** Something observable happens. *)
Definition observe (o : Obs) (t : InspireTree) : InspireTree :=
  set_trace (trace t ++ [o]) t.

(** [muted()] *)
Definition muted (t : InspireTree) : Muted := _muted t.

(** The emitter override of the constructor: the event reaches the
    listeners only if [!tree.muted()].  (The two properties the override
    adds to a DOM event are of no concern to the core: its payloads are
    nodes, collections and errors.) *)
Definition emit (name : string) (payload : Payload) (t : InspireTree)
  : InspireTree :=
  if negb (muted_truthy (muted t))
  then observe (Emitted name payload) t
  else t.

(** [mute(events)] *)
Definition mute (events : EventsArg) (t : InspireTree) : InspireTree :=
  if events_isStringOrArray events
  then set_muted (MutedNames (castArray events)) t
  else set_muted MutedTrue t.

(** [unmute(events)] *)
Definition unmute (events : EventsArg) (t : InspireTree) : InspireTree :=
  if events_isStringOrArray events then
    let rest := difference (_muted t) (castArray events) in
    match rest with
    | [] => set_muted MutedFalse t
    | _ => set_muted (MutedNames rest) t
    end
  else set_muted MutedFalse t.

(** The renderer hooks: with no renderer they are [noop], and what they
    paint is outside the core; the calls are kept in the trace. *)
Definition dom_batch (t : InspireTree) : InspireTree := observe DomBatch t.
Definition dom_end (t : InspireTree) : InspireTree := observe DomEnd t.
Definition dom_applyChanges (t : InspireTree) : InspireTree :=
  observe DomApplyChanges t.
Definition dom_attach (t : InspireTree) : InspireTree := observe DomAttach t.

(** [canAutoDeselect()] *)
Definition canAutoDeselect (t : InspireTree) : bool :=
  truthy (autoDeselect (selection (config t)))
  && negb (preventDeselection t).

(** [disableDeselection()] *)
Definition disableDeselection (t : InspireTree) : InspireTree :=
  if truthy (multiple (selection (config t)))
  then set_preventDeselection true t
  else t.

(** [enableDeselection()] *)
Definition enableDeselection (t : InspireTree) : InspireTree :=
  set_preventDeselection false t.

(** ** Positions in the model *)

(** The node at a position, if the position exists. *)
Fixpoint nodeAt (l : TreeNodes) (p : Path) : option TreeNode :=
  match p with
  | [] => None
  | i :: rest =>
      match nth_error l i with
      | None => None
      | Some n =>
          match rest with
          | [] => Some n
          | _ => nodeAt (node_children n) rest
          end
      end
  end.

Fixpoint update_nth {A : Type} (i : nat) (f : A -> A) (l : list A)
         {struct l} : list A :=
  match l with
  | [] => []
  | x :: r =>
      match i with
      | O => f x :: r
      | S j => x :: update_nth j f r
      end
  end.

(** The model after the state object of the node at [p] was changed; the
    node objects are shared by every collection that holds them, so the
    change is seen wherever the node is reached from. *)
Fixpoint updateAt (p : Path) (f : State -> State) (l : TreeNodes)
  : TreeNodes :=
  match p with
  | [] => l
  | i :: rest =>
      update_nth i
        (fun n =>
           match n with
           | Node ident tx st ch =>
               match rest with
               | [] => Node ident tx (f st) ch
               | _ => Node ident tx st (updateAt rest f ch)
               end
           end) l
  end.

(** The positions below a node, in document order (a node before its
    children, children before the next sibling), relative to the node. *)
Fixpoint descendants (n : TreeNode) : list Path :=
  match n with
  | Node _ _ _ ch =>
      (fix each (i : nat) (l : list TreeNode) : list Path :=
         match l with
         | [] => []
         | c :: r => ([i] :: map (cons i) (descendants c)) ++ each (S i) r
         end) 0 ch
  end.

(** The positions of a collection whose first member has index [i]. *)
Fixpoint pathsFrom (i : nat) (l : TreeNodes) : list Path :=
  match l with
  | [] => []
  | c :: r => ([i] :: map (cons i) (descendants c)) ++ pathsFrom (S i) r
  end.

(** Every position of the model, in document order. *)
Definition allPaths (l : TreeNodes) : list Path := pathsFrom 0 l.

(** The proper non-empty prefixes of a position, shortest first: the
    positions of the ancestors, from a root node down to the parent. *)
Fixpoint properPrefixes (p : Path) : list Path :=
  match p with
  | [] => []
  | i :: r =>
      match r with
      | [] => []
      | _ => [i] :: map (cons i) (properPrefixes r)
      end
  end.

(** The positions of the ancestors, the parent first and a root node last,
    the order [recurseUp] visits them in. *)
Definition ancestors (p : Path) : list Path := rev (properPrefixes p).

Definition stateAt (l : TreeNodes) (p : Path) : option State :=
  option_map node_state (nodeAt l p).

(** A flag of the node at [p]; [false] where there is no node. *)
Definition flagAt (prop : StateProp) (l : TreeNodes) (p : Path) : bool :=
  match stateAt l p with
  | Some s => getState prop s
  | None => false
  end.

(** ** Collections and walks *)

(** A collection is known by its context: the position of the node whose
    children it holds, [[]] for the root collection (the model). *)
Definition membersOf (l : TreeNodes) (ctx : Path) : TreeNodes :=
  match ctx with
  | [] => l
  | _ => match nodeAt l ctx with
         | Some n => node_children n
         | None => []
         end
  end.

(** The positions [each] visits ([deep = false]) and the positions
    [recurseDown] visits ([deep = true]) in the collection at [ctx]. *)
Definition collectionPaths (deep : bool) (ctx : Path) (l : TreeNodes)
  : list Path :=
  map (app ctx)
      (if deep then allPaths (membersOf l ctx)
       else map (fun i => [i]) (seq 0 (List.length (membersOf l ctx)))).

(** An iteratee answers whether the walk goes on; [S] is what it may
    change: the tree, and the variables it closes over. *)
Definition Iteratee (S : Type) : Type := Path -> S -> bool * S.

Fixpoint walk {S : Type} (iteratee : Iteratee S) (ps : list Path) (s : S)
  : S :=
  match ps with
  | [] => s
  | p :: rest =>
      let (go_on, s') := iteratee p s in
      if go_on then walk iteratee rest s' else s'
  end.

(** Modelled from the spec: [TreeNodes.recurseDown] lives in treenodes.ts,
    which is not among the sources.  The spec has it as a "depth-first
    pre-order walk; the iteratee may return a sentinel stop value to halt
    the entire walk early", and the deep variants "recurse into every node's
    children unconditionally".  The positions are those of the collection
    when the walk starts: the iteratees of this file change states, never
    the structure. *)
Definition recurseDown {S : Type} (l : TreeNodes) (ctx : Path)
           (iteratee : Iteratee S) (s : S) : S :=
  walk iteratee (collectionPaths true ctx l) s.

(** Modelled from the spec: [each] of the absent treenodes.ts visits the
    members of the collection only, in their order. *)
Definition each {S : Type} (l : TreeNodes) (ctx : Path)
           (iteratee : Iteratee S) (s : S) : S :=
  walk iteratee (collectionPaths false ctx l) s.

(** An iteratee that returns nothing: the walk always goes on. *)
Definition returning_nothing {S : Type} (f : Path -> S -> S) : Iteratee S :=
  fun p s => (true, f p s).

(** A method of a node, by what it does to the tree. *)
Definition Method : Type := Path -> InspireTree -> InspireTree.

(** [baseInvoke(nodes, methods, deep)] on the collection at [ctx]. *)
Definition baseInvoke (ctx : Path) (methods : list Method) (deep : bool)
           (t : InspireTree) : InspireTree :=
  let t1 := dom_batch t in
  let iteratee :=
    returning_nothing
      (fun p t' => fold_left (fun acc method => method p acc) methods t') in
  let t2 :=
    if deep
    then recurseDown (model t1) ctx iteratee t1
    else each (model t1) ctx iteratee t1 in
  dom_end t2.

(** [resetState(node)]: every flag is set to its default. *)
Definition resetState (p : Path) (t : InspireTree) : InspireTree :=
  set_model (updateAt p (fun _ => defaultState) (model t)) t.

(** [baseStateChange(prop, value, verb, node, deep)].  [deep] is the method
    invoked on every descendant, when one is named.  The dirty marker is a
    note for the renderer and is not kept. *)
Definition baseStateChange (prop : StateProp) (value : bool) (verb : string)
           (p : Path) (deep : option Method) (t : InspireTree)
  : InspireTree :=
  match nodeAt (model t) p with
  | None => t
  | Some n =>
      if Bool.eqb (getState prop (node_state n)) value then t
      else
        let t1 :=
          if truthy (resetStateOnRestore (config t))
             && String.eqb verb "restored"
          then resetState p t else t in
        let t2 := set_model (updateAt p (setState prop value) (model t1)) t1 in
        let t3 := emit ("node." ++ verb)%string (PNode (node_id n)) t2 in
        let t4 :=
          match deep with
          | Some method =>
              if hasChildren n then baseInvoke p [method] true t3 else t3
          | None => t3
          end in
        dom_applyChanges t4
  end.

(** ** The methods of a node the orchestrator calls *)

(** Modelled from the spec: treenode.ts is not among the sources.  The
    spec has the derived mutators as "sugar over [state(...)]" that "must
    all funnel through one shared state-change routine", which is
    [baseStateChange] above. *)
Definition show : Method :=
  fun p => baseStateChange Hidden false "shown" p None.

(** Modelled from the spec: [collapse] of the absent treenode.ts, a derived
    mutator over the shared state-change routine. *)
Definition collapse : Method :=
  fun p => baseStateChange Collapsed true "collapsed" p None.

(** Modelled from the spec: [expand] of the absent treenode.ts, a derived
    mutator over the shared state-change routine.  An expanded node is
    shown as well: after a search the ancestor of a match "is not hidden
    (ancestor of a match, expanded)", though its own text did not match. *)
Definition expand : Method :=
  fun p t =>
    baseStateChange Collapsed false "expanded" p None
      (set_model (updateAt p (setState Hidden false) (model t)) t).

(** Modelled from the spec: [expandParents] of the absent treenode.ts; the
    search "expands all of its ancestors". *)
Definition expandParents : Method :=
  fun p t => fold_left (fun acc a => expand a acc) (ancestors p) t.

(** Modelled from the spec: the visibility of a node, of the absent
    treenode.ts, is
    "[!hidden && !removed && (every ancestor is !collapsed)]". *)
Definition visible (l : TreeNodes) (p : Path) : bool :=
  match stateAt l p with
  | None => false
  | Some s =>
      negb (hidden s) && negb (removed s)
      && forallb (fun a => negb (flagAt Collapsed l a)) (ancestors p)
  end.

(** What follows the first occurrence of [p]. *)
Fixpoint after (p : Path) (l : list Path) : list Path :=
  match l with
  | [] => []
  | q :: r => if path_eqb q p then r else after p r
  end.

(** Modelled from the spec: [nextVisibleNode] of the absent treenode.ts
    "returns the next Node (document order: children before siblings) that
    is visible, or none if this is the last visible node in the tree". *)
Definition nextVisibleNode (l : TreeNodes) (p : Path) : option Path :=
  find (visible l) (after p (allPaths l)).

(** Modelled from the spec: the [selected] query of the absent
    treenodes.ts, the selected nodes of the model in document order. *)
Definition selectedPaths (l : TreeNodes) : list Path :=
  filter (flagAt SelectedProp l) (allPaths l).

(** Modelled from the spec: the recomputation of the absent
    treenode.ts.  Where children are selected with their parent
    ([autoSelectChildren], [derived]), a node "is [selected] only if all
    children are selected; otherwise it may be indeterminate".  Elsewhere
    the selection of a node is its own, and it is indeterminate when it is
    not selected and a child is selected or indeterminate: after
    [node(2).select()] the parent has [indeterminate = true] and
    [selected = false]. *)
Definition refreshed (derived : bool) (kids : TreeNodes) (s : State)
  : State :=
  match kids with
  | [] => s
  | _ =>
      let some :=
        existsb (fun k => selected (node_state k)
                          || indeterminate (node_state k)) kids in
      if derived then
        if forallb (fun k => selected (node_state k)) kids
        then setState Indeterminate false (setState SelectedProp true s)
        else setState Indeterminate some (setState SelectedProp false s)
      else setState Indeterminate (negb (selected s) && some) s
  end.

(** Modelled from the spec: the recomputation, on the node at a
    position. *)
Definition refreshIndeterminateState : Method :=
  fun p t =>
    match nodeAt (model t) p with
    | None => t
    | Some n =>
        set_model
          (updateAt p
             (refreshed (truthy (autoSelectChildren (selection (config t))))
                        (node_children n))
             (model t)) t
    end.

(** Modelled from the spec: [deselect] of the absent treenode.ts, a derived
    mutator over the shared state-change routine; as after every change
    of a selection, the status of the ancestors is recomputed up the
    chain. *)
Definition deselect : Method :=
  fun p t =>
    fold_left (fun acc a => refreshIndeterminateState a acc) (ancestors p)
              (baseStateChange SelectedProp false "deselected" p None t).

(** Modelled from the spec: [select] of the absent treenode.ts.  "If the
    node is not selectable, no-op" (nor is a removed node selected again
    before it is restored).  "If selection mode is exclusive
    ([multiple=false]): deselect the previously selected node tree-wide
    (unless it is this node) before selecting.  If [autoSelectChildren] is
    configured: recursively select every descendant and recompute this
    node's and every ancestor's indeterminate/selected status.  Record this
    node as [lastSelectedNode]."  With or without [autoSelectChildren],
    "mutating a child's selection must recompute ancestor
    indeterminate/selected status up the chain".  The call itself is kept
    in the trace. *)
Definition select : Method :=
  fun p t =>
    match nodeAt (model t) p with
    | None => t
    | Some n =>
        let t0 := observe (SelectCall p) t in
        if negb (selectable (node_state n)) || removed (node_state n)
        then t0
        else
          let t1 :=
            if truthy (multiple (selection (config t0))) then t0
            else fold_left
                   (fun acc q => if path_eqb q p then acc else deselect q acc)
                   (selectedPaths (model t0)) t0 in
          let t2 := baseStateChange SelectedProp true "selected" p None t1 in
          let t3 :=
            if truthy (autoSelectChildren (selection (config t2))) then
              let below := map (app p) (descendants n) in
              let t' :=
                fold_left
                  (fun acc q =>
                     baseStateChange SelectedProp true "selected" q None acc)
                  below t2 in
              refreshIndeterminateState p t'
            else t2 in
          let t4 :=
            fold_left (fun acc a => refreshIndeterminateState a acc)
                      (ancestors p) t3 in
          set_lastSelectedNode (Some p) t4
    end.

(** ** Range selection *)

(** The [while (node)] loop of [selectBetween]; [None] when the fuel runs
    out before the loop ends. *)
Fixpoint selectLoop (fuel : nat) (endId : string) (node : option Path)
         (t : InspireTree) : option InspireTree :=
  match node with
  | None => Some t
  | Some p =>
      match nodeAt (model t) p with
      | None => Some t
      | Some n =>
          if String.eqb (node_id n) endId then Some t
          else
            match fuel with
            | O => None
            | S fuel' =>
                let t' := select p t in
                selectLoop fuel' endId (nextVisibleNode (model t') p) t'
            end
      end
  end.

(** [selectBetween(startNode, endNode)], the two nodes given by their
    positions; [endId] is [endNode.id]. *)
Definition selectBetweenFuel (fuel : nat) (startNode : Path)
           (endId : string) (t : InspireTree) : option InspireTree :=
  let t1 := dom_batch t in
  match selectLoop fuel endId (nextVisibleNode (model t1) startNode) t1 with
  | Some t2 => Some (dom_end t2)
  | None => None
  end.

(** One iteration for every position of the model is enough. *)
Definition selectBetween (startNode endNode : Path) (t : InspireTree)
  : option InspireTree :=
  match nodeAt (model t) endNode with
  | None => None
  | Some e =>
      selectBetweenFuel (List.length (allPaths (model t))) startNode
                        (node_id e) t
  end.

(** The positions [select()] was called on, in the order of the calls. *)
Fixpoint selectCalls (tr : list Obs) : list Path :=
  match tr with
  | [] => []
  | SelectCall p :: r => p :: selectCalls r
  | _ :: r => selectCalls r
  end.

(** ** Search *)

(** What [search] can be given: a string, a [RegExp] (by its [test]), a
    predicate, or a primitive that is none of these. *)
Inductive Query : Type :=
| QString (s : string)
| QRegExp (test : string -> bool)
| QFunction (predicate : TreeNode -> bool)
| QOther (v : Primitive).

(** What [search] evaluates to: the collection of matches, the tree itself
    (from [clearSearch]), whatever the custom search returns, or an
    exception. *)
Inductive SearchResult : Type :=
| Matches (nodes : list Path)
| TheTree
| Delegated
| SearchThrows.

(** Modelled from the spec: [showDeep] of the absent treenodes.ts, on the
    root collection; the deep variants apply the method to every node
    through [invoke(methods, deep)], which is [baseInvoke]. *)
Definition showDeep (t : InspireTree) : InspireTree :=
  baseInvoke [] [show] true t.

(** Modelled from the spec: [collapseDeep] of the absent treenodes.ts, on
    the root collection, as [showDeep]. *)
Definition collapseDeep (t : InspireTree) : InspireTree :=
  baseInvoke [] [collapse] true t.

(** [clearSearch()] *)
Definition clearSearch (t : InspireTree) : InspireTree :=
  collapseDeep (showDeep t).

(** The iteratee of the walk of [search]; the matches are pushed onto
    [found], which the iteratee closes over. *)
Definition searchStep (predicate : TreeNode -> bool) (p : Path)
           (acc : list Path * InspireTree) : list Path * InspireTree :=
  let (found, t) := acc in
  match nodeAt (model t) p with
  | None => acc
  | Some node =>
      if negb (removed (node_state node)) then
        let matched := predicate node in
        let t1 := set_model (updateAt p (setState Hidden (negb matched))
                                      (model t)) t in
        if matched
        then (found ++ [p], expandParents p t1)
        else (found, t1)
      else acc
  end.

(** The walk of [search] with a predicate, inside one render batch. *)
Definition searchWith (predicate : TreeNode -> bool) (t : InspireTree)
  : SearchResult * InspireTree :=
  let t1 := dom_batch t in
  let (found, t2) :=
    recurseDown (model t1) [] (returning_nothing (searchStep predicate))
                ([], t1) in
  (Matches found, dom_end t2).

(** The first node [predicate(node)] is called on, when [predicate] is not
    a function: the call throws there, inside the batch. *)
Definition callsPredicate (l : TreeNodes) : bool :=
  existsb (fun p => negb (flagAt Removed l p)) (allPaths l).

(** The predicate [search] makes of a [RegExp]. *)
Definition textPredicate (test : string -> bool) : TreeNode -> bool :=
  fun node => test (node_text node).

Section Search.

(** [new RegExp(query, 'i')]: [None] when the pattern is not a regular
    expression and the constructor throws, else the [test] of the
    expression on a text. *)
Variable regExp_i : string -> option (string -> bool).

(** [search(query)] *)
Definition search (query : Query) (t : InspireTree)
  : SearchResult * InspireTree :=
  if isFunction (search_option (config t)) then (Delegated, t)
  else
    match query with
    | QString s =>
        if String.eqb s "" then (TheTree, clearSearch t)
        else
          match regExp_i s with
          | None => (SearchThrows, t)
          | Some test => searchWith (textPredicate test) t
          end
    | QRegExp test => searchWith (textPredicate test) t
    | QFunction predicate => searchWith predicate t
    | QOther v =>
        if negb (prim_truthy v) then (TheTree, clearSearch t)
        else if callsPredicate (model t)
             then (SearchThrows, dom_batch t)
             else searchWith (fun _ => false) t
    end.

End Search.

(** ** Bounding nodes *)

Fixpoint join_dots (parts : list string) : string :=
  match parts with
  | [] => ""
  | [s] => s
  | s :: rest => (s ++ "." ++ join_dots rest)%string
  end.

(** Modelled from the spec: [indexPath] of the absent treenode.ts "produces
    a dot-joined sequence of this node's position within its collection and
    each ancestor's position within its own collection, root first". *)
Definition indexPath (p : Path) : string :=
  join_dots (map nat_to_string p).

(** [s.replace(/\./g, '')] *)
Fixpoint removeDots (s : string) : string :=
  match s with
  | EmptyString => EmptyString
  | String c rest =>
      if Ascii.eqb c "."%char then removeDots rest
      else String c (removeDots rest)
  end.

(** The object [pathMap]: its keys in the order they were added, each with
    the node stored last under it. *)
Definition PathMap : Type := list (string * Path).

Fixpoint pathMap_set (key : string) (node : Path) (m : PathMap) : PathMap :=
  match m with
  | [] => [(key, node)]
  | (k, v) :: rest =>
      if String.eqb k key then (k, node) :: rest
      else (k, v) :: pathMap_set key node rest
  end.

Fixpoint pathMap_get (m : PathMap) (key : string) : option Path :=
  match m with
  | [] => None
  | (k, v) :: rest => if String.eqb k key then Some v else pathMap_get rest key
  end.

(** [Object.keys] *)
Definition keys (m : PathMap) : list string := map fst m.

(** [_.sortBy] on strings: a stable sort, ascending by code units. *)
Fixpoint insertSorted (s : string) (l : list string) : list string :=
  match l with
  | [] => [s]
  | x :: rest =>
      if String.leb s x then s :: l else x :: insertSorted s rest
  end.

Definition sortBy (l : list string) : list string :=
  fold_right insertSorted [] l.

(** [_.get(pathMap, path)] with [path] a key or an array of keys.  With
    one key it is the node stored under the key; with none it is
    [undefined]; with more it reads the second key off the node stored
    under the first, and a node has no property named by digits. *)
Definition get_key (m : PathMap) (key : option string) : option Path :=
  match key with
  | None => None
  | Some k => pathMap_get m k
  end.

Definition get_keys (m : PathMap) (path : list string) : option Path :=
  match path with
  | [] => None
  | [k] => pathMap_get m k
  | _ :: _ :: _ => None
  end.

(** [boundingNodes(...args)]; [None] is [undefined]. *)
Definition boundingNodes (args : list Path) : option Path * option Path :=
  let pathMap :=
    fold_left (fun m node => pathMap_set (removeDots (indexPath node)) node m)
              args [] in
  let paths := sortBy (keys pathMap) in
  (get_key pathMap (head paths), get_keys pathMap (tail paths)).

(** ** Parsing raw records *)

Definition rawId_truthy (i : RawId) : bool :=
  match i with
  | IdStr s => negb (String.eqb s "")
  | IdPrim v => prim_truthy v
  end.

(** [v.toString()] on a primitive; [undefined] and [null] have no such
    method, and [objectToModel] never asks for it on them. *)
Definition prim_toString (v : Primitive) : string :=
  match v with
  | PrimUndefined => "undefined"
  | PrimNull => "null"
  | PrimBool b => if b then "true" else "false"
  | PrimNum z => num_to_string z
  end.

(** [typeof v === 'boolean' ? v : d] *)
Definition boolean_or (d : bool) (v : option bool) : bool :=
  match v with Some b => b | None => d end.

(** [v || d] on a flag that is absent or a boolean. *)
Definition flag_or (d : bool) (v : option bool) : bool :=
  match v with Some true => true | _ => d end.

(** The state object [objectToModel] leaves on the record. *)
Definition parseState (r : RawState) : State :=
  {| collapsed := boolean_or (collapsed defaultState) (r_collapsed r);
     focused := flag_or (focused defaultState) (r_focused r);
     hidden := flag_or (hidden defaultState) (r_hidden r);
     indeterminate := flag_or (indeterminate defaultState) (r_indeterminate r);
     loading := flag_or (loading defaultState) (r_loading r);
     removed := flag_or (removed defaultState) (r_removed r);
     selectable := boolean_or (selectable defaultState) (r_selectable r);
     selected := flag_or (selected defaultState) (r_selected r) |}.

(** [state[eventName]]; a name that is no flag reads [undefined]. *)
Definition stateByName (name : string) (s : State) : bool :=
  if String.eqb name "collapsed" then collapsed s
  else if String.eqb name "focused" then focused s
  else if String.eqb name "hidden" then hidden s
  else if String.eqb name "indeterminate" then indeterminate s
  else if String.eqb name "loading" then loading s
  else if String.eqb name "removed" then removed s
  else if String.eqb name "selectable" then selectable s
  else if String.eqb name "selected" then selected s
  else false.

(** "Fire events for pre-set states, if enabled" *)
Definition fireLoadEvents (ident : string) (s : State) (t : InspireTree)
  : InspireTree :=
  if allowsLoadEvents t then
    fold_left
      (fun acc eventName =>
         if stateByName eventName s
         then emit ("node." ++ eventName)%string (PNode ident) acc
         else acc)
      (match allowLoadEvents (config t) with Some l => l | None => [] end) t
  else t.

(** [_.sortBy(array, tree.config.sort)]: a stable sort by the key. *)
Fixpoint insertByKey {A : Type} (x : Z * A) (l : list (Z * A))
  : list (Z * A) :=
  match l with
  | [] => [x]
  | y :: rest =>
      if Z.leb (fst x) (fst y) then x :: l else y :: insertByKey x rest
  end.

Definition sortByKey {A : Type} (l : list (Z * A)) : list A :=
  map snd (fold_right insertByKey [] l).

(** The record with every [children] array in the order
    [collectionToModel] will parse it in: the key of a record is read
    before the record is parsed, so sorting every level first leaves each
    level in the order the source visits it. *)
Fixpoint sortedRecord (key : Raw -> Z) (r : Raw) : Raw :=
  match r with
  | RawNode i tx s kids =>
      RawNode i tx s
              (sortByKey (map (fun c => (key c, sortedRecord key c)) kids))
  end.

Definition sortedRecords (key : Raw -> Z) (array : list Raw) : list Raw :=
  sortByKey (map (fun c => (key c, sortedRecord key c)) array).

Section Parse.

(** The id generator: the [n]-th id it hands out. *)
Variable cuid : nat -> string.

(** "Create or type-ensure ID" *)
Definition ensureId (i : RawId) (t : InspireTree) : string * InspireTree :=
  let (v, t') :=
    if rawId_truthy i then (i, t)
    else (IdStr (cuid (next_cuid t)), set_next_cuid (S (next_cuid t)) t) in
  match v with
  | IdStr s => (s, t')
  | IdPrim p => (prim_toString p, t')
  end.

(** [objectToModel(object, parent)] on a record whose [children] are in
    parsing order. *)
Fixpoint parseRecord (object : Raw) (t : InspireTree)
  : TreeNode * InspireTree :=
  match object with
  | RawNode rid tx rs kids =>
      let (ident, t1) := ensureId rid t in
      let state := parseState rs in
      let (children, t2) :=
        (fix parseEach (array : list Raw) (t : InspireTree)
           : list TreeNode * InspireTree :=
           match array with
           | [] => ([], t)
           | o :: rest =>
               let (n, t') := parseRecord o t in
               let (ns, t'') := parseEach rest t' in
               (n :: ns, t'')
           end) kids t1 in
      (Node ident tx state children, fireLoadEvents ident state t2)
  end.

Fixpoint parseRecords (array : list Raw) (t : InspireTree)
  : list TreeNode * InspireTree :=
  match array with
  | [] => ([], t)
  | o :: rest =>
      let (n, t') := parseRecord o t in
      let (ns, t'') := parseRecords rest t' in
      (n :: ns, t'')
  end.

(** [objectToModel(object, parent)] *)
Definition objectToModel (object : Raw) (t : InspireTree)
  : TreeNode * InspireTree :=
  parseRecord
    (match sort (config t) with
     | Some key => sortedRecord key object
     | None => object
     end) t.

(** [collectionToModel(array, parent)] *)
Definition collectionToModel (array : list Raw) (t : InspireTree)
  : TreeNodes * InspireTree :=
  parseRecords
    (match sort (config t) with
     | Some key => sortedRecords key array
     | None => array
     end) t.

(** [collectionToModel] on data that cannot be parsed: the tree as it is
    when the exception is thrown.  The records before the offending
    member are parsed; then [null.id] cannot be read, while on another
    primitive [object.id || cuid()] generates an id, which cannot be set;
    and of a record with such data for children the id is ensured before
    the children are come to, and its load events are never fired. *)
Fixpoint parseMalformed (m : Malformed) (t : InspireTree) : InspireTree :=
  match m with
  | BadMember before v =>
      let t1 := snd (collectionToModel before t) in
      match v with
      | Nullish => t1
      | OtherPrimitive => set_next_cuid (S (next_cuid t1)) t1
      end
  | BadChildren before rid children =>
      let t1 := snd (collectionToModel before t) in
      parseMalformed children (snd (ensureId rid t1))
  end.

End Parse.

(** ** Loading *)

(** [removeAll()] *)
Definition removeAll (t : InspireTree) : InspireTree :=
  dom_applyChanges (observe ModelCleared (set_model [] t)).

(** Modelled from the spec: [selected()] of the absent treenodes.ts, the
    query for the nodes whose [selected] flag is set; only its length is
    asked for. *)
Definition selected_length (t : InspireTree) : nat :=
  List.length (selectedPaths (model t)).

(** Modelled from the spec: [filter('available')] of the absent
    treenodes.ts; "available" is "not removed".  The members of the root
    collection that are available, by position. *)
Definition availableRoots (l : TreeNodes) : list Path :=
  filter (fun p => negb (flagAt Removed l p))
         (map (fun i => [i]) (seq 0 (List.length l))).

(** [selectFirstAvailableNode()] *)
Definition selectFirstAvailableNode (t : InspireTree) : InspireTree :=
  match head (availableRoots (model t)) with
  | Some node => select node t
  | None => t
  end.

(** The promise callbacks: only the first settling counts. *)
Definition resolve (t : InspireTree) : InspireTree :=
  match promise t with
  | Pending => observe Resolved (set_promise Fulfilled t)
  | _ => t
  end.

Definition reject (err : string) (t : InspireTree) : InspireTree :=
  match promise t with
  | Pending => observe (Rejected err) (set_promise (RejectedWith err) t)
  | _ => t
  end.

(** [setTimeout(function() { tree.emit(name, payload) })] when the tree is
    not yet initialized and the data is an array ([_.isArray(nodes)]),
    else the emission at once. *)
Definition emitOrDelay (isArray : bool) (name : string) (payload : Payload)
           (t : InspireTree) : InspireTree :=
  if negb (initialized t) && isArray
  then set_timers (timers t ++ [(name, payload)]) t
  else emit name payload t.

(** How a call ends: it returns, or it throws; with the tree as the call
    leaves it. *)
Inductive Completion : Type :=
| Normal (t : InspireTree)
| Abrupt (err : string) (t : InspireTree).

Definition treeOf (c : Completion) : InspireTree :=
  match c with
  | Normal t => t
  | Abrupt _ t => t
  end.

(** The exception of a parse that comes to something that is no object:
    a [TypeError], whatever its message. *)
Definition parseError : string := "TypeError".

Definition handed_isArray (nodes : Handed) : bool :=
  match nodes with
  | Records _ => true
  | Unparsable isArray _ => isArray
  end.

Definition handed_payload (nodes : Handed) : Payload :=
  match nodes with
  | Records records => PNodes (List.length records)
  | Unparsable _ _ => PData
  end.

(** The timers fire: the delayed emissions go through [emit] then. *)
Definition runTimers (t : InspireTree) : InspireTree :=
  fold_left (fun acc ev => emit (fst ev) (snd ev) acc) (timers t)
            (set_timers [] t).

Section Load.

Variable cuid : nat -> string.

(** [complete(nodes)]; the renderer hook [scrollSelectedIntoView] is
    optional and the renderer of this model has none.  When the data
    cannot be parsed, [collectionToModel] throws: [data.loaded] has been
    emitted and the old model removed by then, and nothing of what follows
    the parse happens. *)
Definition complete (nodes : Handed) (t : InspireTree) : Completion :=
  let t1 := emitOrDelay (handed_isArray nodes) "data.loaded"
                        (handed_payload nodes) t in
  let t2 := if Nat.ltb 0 (List.length (model t1)) then removeAll t1
            else t1 in
  match nodes with
  | Unparsable _ m => Abrupt parseError (parseMalformed cuid m t2)
  | Records records =>
      let (parsed, t3) := collectionToModel cuid records t2 in
      let t4 := observe ModelReplaced (set_model parsed t3) in
      let t5 :=
        if truthy (require (selection (config t4)))
           && Nat.eqb (selected_length t4) 0
        then selectFirstAvailableNode t4 else t4 in
      let t6 := emitOrDelay true "model.loaded" PModel t5 in
      let t7 := resolve t6 in
      Normal (dom_applyChanges t7)
  end.

(** [error(err)] *)
Definition error (err : string) (t : InspireTree) : InspireTree :=
  reject err (emit "data.loaderror" (PError err) t).

(** A call of one of the two callbacks [load] hands to the loader. *)
Definition runCall (c : LoaderCall) (t : InspireTree) : Completion :=
  match c with
  | CallComplete nodes => complete (Records nodes) t
  | CallCompleteUnparsable isArray m => complete (Unparsable isArray m) t
  | CallError err => Normal (error err t)
  end.

(** The calls a loader function makes before it returns, one after the
    other: an exception out of a callback is not caught by the loader and
    ends them. *)
Fixpoint runCalls (cs : list LoaderCall) (t : InspireTree) : Completion :=
  match cs with
  | [] => Normal t
  | c :: rest =>
      match runCall c t with
      | Normal t' => runCalls rest t'
      | Abrupt err t' => Abrupt err t'
      end
  end.

(** [standardizePromise(promise).then(complete).catch(error)]: the
    callbacks that will be called, if any.  When [complete] throws, on
    data that cannot be parsed, the chain goes on to [error] with the
    exception. *)
Definition standardizePromise (p : PromiseLike) : list LoaderCall :=
  match outcome p with
  | Resolves nodes => if has_then p then [CallComplete nodes] else []
  | ResolvesUnparsable isArray m =>
      if has_then p
      then [CallCompleteUnparsable isArray m; CallError parseError]
      else []
  | Rejects err =>
      if has_error p then [CallError err]
      else if has_catch p then [CallError err]
      else []
  | NeverSettles => []
  end.

(** An exception out of the executor of [new Promise] rejects the
    promise. *)
Definition executor (c : Completion) : InspireTree :=
  match c with
  | Normal t => t
  | Abrupt err t => reject err t
  end.

(** [load(loader)]: the tree when the call returns, and the callbacks
    that are still to come. *)
Definition load (loader : Loader) (t : InspireTree)
  : InspireTree * list LoaderCall :=
  let t0 := set_promise Pending t in
  match loader with
  | LArray records => (executor (complete (Records records) t0), [])
  | LUnparsable isArray m =>
      (executor (complete (Unparsable isArray m) t0), [])
  | LFunction f =>
      match runCalls (calls_now f) t0 with
      | Abrupt err t1 => (reject err t1, calls_later f)
      | Normal t1 =>
          match ending f with
          | Throws err => (reject err t1, calls_later f)
          | ReturnsNothing => (t1, calls_later f)
          | ReturnsPromiseLike p =>
              (t1, calls_later f ++ standardizePromise p)
          | ReturnsTruthyPrimitive =>
              (reject "Invalid data loader." t1, calls_later f)
          end
      end
  | LObject p => (t0, standardizePromise p)
  | LPrimitive _ => (reject "Invalid data loader." t0, [])
  end.

(** The callbacks that were still to come are called, each from the event
    loop: an exception out of one of them is caught by nobody, and the
    tree stays as the call left it. *)
Definition settle (later : list LoaderCall) (t : InspireTree)
  : InspireTree :=
  fold_left (fun acc c => treeOf (runCall c acc)) later t.

(** A call of [load] and everything that follows from it. *)
Definition loadAll (loader : Loader) (t : InspireTree) : InspireTree :=
  let (t1, later) := load loader t in
  settle later (runTimers t1).

End Load.

(** ** Construction *)

(** The [TypeError]s of the constructor: the two it throws itself, for a
    missing data source (line 47) and a missing target (line 119), and
    the one of reading [mode] of a [selection] that is [null] (line 75). *)
Inductive ConstructionError : Type :=
| InvalidDataLoader
| SelectionIsNull
| TargetRequired.

(** What [new InspireTree(opts)] evaluates to: the instance, with the
    loader callbacks that are still to come; a [TypeError]; or the
    exception of the renderer of the caller, passed on. *)
Inductive Constructed : Type :=
| Built (t : InspireTree) (later : list LoaderCall)
| ThrowsTypeError (e : ConstructionError)
| ThrowsError (err : string).

Section Construction.

(** The build-time boolean [DOM]: whether the bundled renderer is
    compiled in. *)
Variable DOM : bool.

Variable cuid : nat -> string.

(** The instance before the constructor body runs: the field
    initialisers, and an empty model. *)
Definition newTree (c : Options) : InspireTree :=
  {| _lastSelectedNode := None;
     _muted := MutedFalse;
     allowsLoadEvents :=
       match allowLoadEvents c with
       | Some l => Nat.ltb 0 (List.length l)
       | None => false
       end;
     config := c;
     has_dom := DOM;
     initialized := false;
     isDynamic := loader_isFunction (data c);
     model := [];
     preventDeselection := false;
     next_cuid := 0;
     promise := Pending;
     timers := [];
     trace := [] |}.

(** "Load custom/empty renderer" and "Connect to our target DOM element":
    the exception, if the renderer of the caller throws one.  With the
    bundled renderer, or with no renderer function, nothing is called
    that the caller wrote. *)
Definition rendererThrows (tree : InspireTree) : option string :=
  if negb (has_dom tree) && isFunction (renderer (config tree)) then
    match renderer_call (customRenderer (config tree)) with
    | CallThrows err => Some err
    | CallReturns =>
        match attach_call (customRenderer (config tree)) with
        | CallThrows err => Some err
        | CallReturns => None
        end
    end
  else None.

(** [constructor(opts)].  A load that fails does so inside the executor of
    its promise: it rejects the promise and throws nothing here. *)
Definition construct (opts : Options) : Constructed :=
  if negb (loader_truthy (data opts)) then ThrowsTypeError InvalidDataLoader
  else if selection_isNull opts then ThrowsTypeError SelectionIsNull
  else
    let tree := newTree (buildConfig opts) in
    if has_dom tree && negb (truthy (target opts))
    then ThrowsTypeError TargetRequired
    else
      match rendererThrows tree with
      | Some err => ThrowsError err
      | None =>
          let t1 := dom_attach tree in
          let (t2, later) := load cuid (data (config t1)) t1 in
          Built (set_initialized true t2) later
      end.

End Construction.

(** ** What the properties are stated with *)

(** What can be read off the node at a position without looking into its
    children: id, text, state and the number of children. *)
Definition infoAt (l : TreeNodes) (p : Path)
  : option (string * string * State * nat) :=
  match nodeAt l p with
  | Some n =>
      Some (node_id n, node_text n, node_state n,
            List.length (node_children n))
  | None => None
  end.

(** Two models with the same nodes at the same positions, whose states are
    related by [R]. *)
Definition related (R : State -> State -> Prop) (l l' : TreeNodes) : Prop :=
  allPaths l' = allPaths l
  /\ forall p,
      match infoAt l p, infoAt l' p with
      | Some (i, tx, s, k), Some (i', tx', s', k') =>
          i' = i /\ tx' = tx /\ k' = k /\ R s s'
      | None, None => True
      | _, _ => False
      end.

(** The flags the visibility of a node is made of. *)
Definition sameVisibility (s s' : State) : Prop :=
  hidden s' = hidden s /\ removed s' = removed s
  /\ collapsed s' = collapsed s.

(** The fields of the tree no state change of a node touches. *)
Definition settings (t : InspireTree) :=
  (config t, _muted t, allowsLoadEvents t, has_dom t, initialized t,
   isDynamic t, preventDeselection t, promise t, timers t).

(** The steps of a load an observer tells apart. *)
Inductive Milestone : Type :=
| DataLoaded
| DataLoadError
| ModelIsReplaced
| NodeSelected (position : Path)
| ModelLoaded
| PromiseResolved
| PromiseRejected.

Definition milestone (o : Obs) : list Milestone :=
  match o with
  | Emitted name _ =>
      if String.eqb name "data.loaded" then [DataLoaded]
      else if String.eqb name "model.loaded" then [ModelLoaded]
      else if String.eqb name "data.loaderror" then [DataLoadError]
      else []
  | ModelReplaced => [ModelIsReplaced]
  | SelectCall p => [NodeSelected p]
  | Resolved => [PromiseResolved]
  | Rejected _ => [PromiseRejected]
  | _ => []
  end.

Definition milestones (tr : list Obs) : list Milestone :=
  flat_map milestone tr.

(** A step that changes nothing but the states of nodes, within [R], and
    adds no milestone. *)
Definition silent (R : State -> State -> Prop) (t t' : InspireTree) : Prop :=
  settings t' = settings t
  /\ related R (model t) (model t')
  /\ milestones (trace t') = milestones (trace t).

(** A step that changes nothing but the states of nodes, within [R], and
    adds the milestones [ms]. *)
Definition advance (R : State -> State -> Prop) (ms : list Milestone)
           (t t' : InspireTree) : Prop :=
  settings t' = settings t
  /\ related R (model t) (model t')
  /\ milestones (trace t') = milestones (trace t) ++ ms.

(** A step that keeps the settings and adds the milestones [ms], whatever
    it does to the model. *)
Definition progress (ms : list Milestone) (t t' : InspireTree) : Prop :=
  settings t' = settings t
  /\ milestones (trace t') = milestones (trace t) ++ ms.

(** The milestone of an event, if the tree dispatches events. *)
Definition dispatched (t : InspireTree) (m : Milestone) : list Milestone :=
  if muted_truthy (muted t) then [] else [m].

(** Every flag but the two that selecting a node sets. *)
Definition sameButSelection (s s' : State) : Prop :=
  collapsed s' = collapsed s /\ focused s' = focused s
  /\ hidden s' = hidden s /\ loading s' = loading s
  /\ removed s' = removed s /\ selectable s' = selectable s.

(** The collection [complete(nodes)] parses. *)
Definition parsedModel (cuid : nat -> string) (nodes : list Raw)
           (t : InspireTree) : TreeNodes :=
  fst (collectionToModel cuid nodes t).

(** The selection a load makes of itself: when a selection is required and
    the parsed collection has no selected node, its first available root
    node. *)
Definition autoSelection (c : Options) (parsed : TreeNodes)
  : list Milestone :=
  if truthy (require (selection c))
     && Nat.eqb (List.length (selectedPaths parsed)) 0
  then match head (availableRoots parsed) with
       | Some p => [NodeSelected p]
       | None => []
       end
  else [].

(** The loaders that hand over the records [nodes], once: an array; a
    function that calls [complete], at once or later; a promise-like object
    that resolves, given directly or returned by the function. *)
Inductive delivers : Loader -> list Raw -> Prop :=
| delivers_array nodes :
    delivers (LArray nodes) nodes
| delivers_callback nodes :
    delivers (LFunction (mkLoaderFunction [CallComplete nodes]
                                          ReturnsNothing [])) nodes
| delivers_callback_later nodes :
    delivers (LFunction (mkLoaderFunction [] ReturnsNothing
                                          [CallComplete nodes])) nodes
| delivers_promise p nodes :
    has_then p = true -> outcome p = Resolves nodes ->
    delivers (LObject p) nodes
| delivers_returned_promise p nodes :
    has_then p = true -> outcome p = Resolves nodes ->
    delivers (LFunction (mkLoaderFunction [] (ReturnsPromiseLike p) []))
             nodes.

(** After the constructor has returned: the timers fire, then the loader
    callbacks that were still to come are called. *)
Definition afterwards (cuid : nat -> string) (c : Constructed)
  : option InspireTree :=
  match c with
  | Built t later => Some (settle cuid later (runTimers t))
  | ThrowsTypeError _ => None
  | ThrowsError _ => None
  end.

(** A generator for the examples: ids ["c0"], ["c1"], ... *)
Definition cuid_counter (n : nat) : string :=
  ("c" ++ nat_to_string n)%string.

(** A record with an id and a text, and nothing else. *)
Definition leaf (ident : string) (tx : string) : Raw :=
  RawNode (IdStr ident) tx noRawState [].

(** Options with nothing but a data source. *)
Definition optionsWith (d : Loader) : Options :=
  {| data := d;
     target := VUndefined;
     allowLoadEvents := None;
     contextMenu := VUndefined;
     dragTargets := VUndefined;
     resetStateOnRestore := VUndefined;
     renderer := VUndefined;
     search_option := VUndefined;
     selection := mkSelection VUndefined VUndefined VUndefined VUndefined
                              VUndefined VUndefined VUndefined;
     showCheckboxes := VUndefined;
     sort := None;
     tabindex := VUndefined;
     selection_isNull := false;
     customRenderer := mkCustomRenderer CallReturns CallReturns |}.

(** Where a load fails: before any data is handed over, or in [complete],
    on data that cannot be parsed. *)
Inductive Stage : Type :=
| BeforeData
| WhileParsing.

(** What becomes of the failure: it reaches the [error] callback of
    [load], which emits [data.loaderror] and rejects the promise; or it is
    an exception out of the executor, which rejects the promise; or it is
    an exception nobody catches. *)
Inductive Fate : Type :=
| Reported
| Thrown
| Lost.

(** The loaders whose load fails, with the error, where it fails and what
    becomes of the failure.  Before data is handed over: a function that
    calls [error], at once or later, and a promise-like object that
    rejects and has an [error] or a [catch] hook reach the [error]
    callback; a function that throws, a function that returns a
    primitive, and a primitive given for a loader end in an exception out
    of the executor.  On data that cannot be parsed: given as the loader,
    or handed over by the loader function before it returns, the
    exception leaves the executor; handed over by the loader function
    later, nobody catches it; being what a promise-like object resolves
    with, it is caught by the chain [.then(complete).catch(error)]. *)
Inductive fails : Loader -> string -> Stage -> Fate -> Prop :=
| fails_callback err :
    fails (LFunction (mkLoaderFunction [CallError err] ReturnsNothing []))
          err BeforeData Reported
| fails_callback_later err :
    fails (LFunction (mkLoaderFunction [] ReturnsNothing [CallError err]))
          err BeforeData Reported
| fails_promise p err :
    has_error p || has_catch p = true -> outcome p = Rejects err ->
    fails (LObject p) err BeforeData Reported
| fails_returned_promise p err :
    has_error p || has_catch p = true -> outcome p = Rejects err ->
    fails (LFunction (mkLoaderFunction [] (ReturnsPromiseLike p) []))
          err BeforeData Reported
| fails_throw err :
    fails (LFunction (mkLoaderFunction [] (Throws err) []))
          err BeforeData Thrown
| fails_returned_primitive :
    fails (LFunction (mkLoaderFunction [] ReturnsTruthyPrimitive []))
          "Invalid data loader." BeforeData Thrown
| fails_primitive v :
    fails (LPrimitive v) "Invalid data loader." BeforeData Thrown
| fails_unparsable isArray m :
    fails (LUnparsable isArray m) parseError WhileParsing Thrown
| fails_handed isArray m :
    fails (LFunction (mkLoaderFunction [CallCompleteUnparsable isArray m]
                                       ReturnsNothing []))
          parseError WhileParsing Thrown
| fails_handed_later isArray m :
    fails (LFunction (mkLoaderFunction [] ReturnsNothing
                                       [CallCompleteUnparsable isArray m]))
          parseError WhileParsing Lost
| fails_resolved p isArray m :
    has_then p = true -> outcome p = ResolvesUnparsable isArray m ->
    fails (LObject p) parseError WhileParsing Reported
| fails_returned_resolved p isArray m :
    has_then p = true -> outcome p = ResolvesUnparsable isArray m ->
    fails (LFunction (mkLoaderFunction [] (ReturnsPromiseLike p) []))
          parseError WhileParsing Reported.

(** A tree after construction from an empty array, the timers fired. *)
Definition emptyTree : InspireTree :=
  set_initialized true (newTree false (buildConfig (optionsWith (LArray [])))).

(** Options for checkbox mode. *)
Definition checkboxOptions : Options :=
  {| data := LArray [leaf "1" "A"];
     target := VUndefined;
     allowLoadEvents := None;
     contextMenu := VUndefined;
     dragTargets := VUndefined;
     resetStateOnRestore := VUndefined;
     renderer := VUndefined;
     search_option := VUndefined;
     selection := mkSelection VUndefined VUndefined VUndefined VUndefined
                              (VStr "checkbox") VUndefined VUndefined;
     showCheckboxes := VUndefined;
     sort := None;
     tabindex := VUndefined;
     selection_isNull := false;
     customRenderer := mkCustomRenderer CallReturns CallReturns |}.

(** The instance the constructor builds from [checkboxOptions]. *)
Definition checkboxTree : InspireTree :=
  Eval vm_compute in
    match construct false cuid_counter checkboxOptions with
    | Built t _ => t
    | _ => emptyTree
    end.



(** The state of a node after [node.state(prop, value)] was called on the
    nodes at [ps]. *)
Definition setAt (prop : StateProp) (value : bool) (ps : list Path)
           (q : Path) (s : State) : State :=
  if existsb (path_eqb q) ps then setState prop value s else s.

(** ** What the search properties are stated with *)

(** Whether the node at [p] is one the walk of [search] collects: it is not
    removed and its text passes the test. *)
Definition matchAt (test : string -> bool) (l : TreeNodes) (p : Path)
  : bool :=
  match infoAt l p with
  | Some (_, tx, s, _) => negb (removed s) && test tx
  | None => false
  end.

Definition isAncestorOf (q p : Path) : bool :=
  existsb (path_eqb q) (ancestors p).

(** The state of a node after [expand]: not collapsed, and shown. *)
Definition opened (s : State) : State :=
  setState Collapsed false (setState Hidden false s).

(** The state of the node at [q], whose text is [tx], after the walk: it
    was marked if it was [visited] and is not removed, and then expanded
    if it is an ancestor of one of the [hits]. *)
Definition searchedState (test : string -> bool) (hits : list Path)
           (visited : bool) (q : Path) (tx : string) (s : State) : State :=
  let s1 := if visited && negb (removed s)
            then setState Hidden (negb (test tx)) s else s in
  if existsb (isAncestorOf q) hits then opened s1 else s1.

(** A regular expression for the examples: a pattern of letters, digits
    and spaces tests for a substring, whatever the case of the letters;
    the examples use no other pattern. *)
Definition lower (c : ascii) : ascii :=
  let n := nat_of_ascii c in
  if Nat.leb 65 n && Nat.leb n 90 then ascii_of_nat (n + 32) else c.

Fixpoint prefix_i (pattern text : string) : bool :=
  match pattern, text with
  | EmptyString, _ => true
  | String _ _, EmptyString => false
  | String a p', String b t' =>
      Ascii.eqb (lower a) (lower b) && prefix_i p' t'
  end.

Fixpoint contains_i (pattern text : string) : bool :=
  prefix_i pattern text
  || match text with
     | EmptyString => false
     | String _ t' => contains_i pattern t'
     end.

Definition plain (c : ascii) : bool :=
  let n := nat_of_ascii c in
  (Nat.leb 48 n && Nat.leb n 57) || (Nat.leb 65 n && Nat.leb n 90)
  || (Nat.leb 97 n && Nat.leb n 122) || Nat.eqb n 32.

Fixpoint all_plain (s : string) : bool :=
  match s with
  | EmptyString => true
  | String c r => plain c && all_plain r
  end.

Definition plainRegExp_i (pattern : string) : option (string -> bool) :=
  if all_plain pattern then Some (contains_i pattern) else None.

(** The tree of the scenarios: [A] with the child [B], and a second root
    node [C]; then the same with [A] removed. *)
Definition sampleRecords : list Raw :=
  [RawNode (IdPrim (PrimNum 1)) "A" noRawState [leaf "2" "B"];
   leaf "3" "C"].

Definition sampleTree : InspireTree :=
  Eval vm_compute in
    match afterwards cuid_counter
            (construct false cuid_counter (optionsWith (LArray sampleRecords)))
    with
    | Some t => t
    | None => emptyTree
    end.

Definition removedParentRecords : list Raw :=
  [RawNode (IdStr "1") "A"
           (mkRawState None None None None None (Some true) None None)
           [leaf "2" "B"]].

Definition removedParentTree : InspireTree :=
  Eval vm_compute in
    match afterwards cuid_counter
            (construct false cuid_counter
                       (optionsWith (LArray removedParentRecords)))
    with
    | Some t => t
    | None => emptyTree
    end.

(** Document order on positions: a node before the nodes below it, and
    before its later siblings and what is below them. *)
Fixpoint before (p q : Path) : Prop :=
  match p, q with
  | [], [] => False
  | [], _ :: _ => True
  | _ :: _, [] => False
  | i :: p', j :: q' => i < j \/ (i = j /\ before p' q')
  end.

(** Whether the node at [p] is an ancestor of a node the search collects. *)
Definition aboveMatch (test : string -> bool) (l : TreeNodes) (p : Path)
  : bool :=
  existsb (isAncestorOf p) (filter (matchAt test l) (allPaths l)).

(** The flags a search never sets. *)
Definition sameButShown (s s' : State) : Prop :=
  focused s' = focused s /\ indeterminate s' = indeterminate s
  /\ loading s' = loading s /\ removed s' = removed s
  /\ selectable s' = selectable s /\ selected s' = selected s.

(** The ids of the nodes of a model, in document order. *)
Definition idAt (l : TreeNodes) (p : Path) : string :=
  match nodeAt l p with
  | Some n => node_id n
  | None => ""
  end.

Definition nodeIds (l : TreeNodes) : list string :=
  map (idAt l) (allPaths l).

(** The calls of [select()] among the milestones. *)
Definition selections (ms : list Milestone) : list Path :=
  flat_map (fun m => match m with NodeSelected p => [p] | _ => [] end) ms.

(** A tree of three root nodes. *)
Definition threeRootsTree : InspireTree :=
  Eval vm_compute in
    match afterwards cuid_counter
            (construct false cuid_counter
               (optionsWith (LArray [leaf "1" "A"; leaf "2" "B";
                                     leaf "3" "C"])))
    with
    | Some t => t
    | None => emptyTree
    end.

(** Induction on a raw record with its children. *)
Fixpoint Raw_nested_ind (P : Raw -> Prop)
         (step : forall rid tx rs kids,
             Forall P kids -> P (RawNode rid tx rs kids))
         (r : Raw) {struct r} : P r :=
  match r with
  | RawNode rid tx rs kids =>
      step rid tx rs kids
           ((fix all (l : list Raw) : Forall P l :=
               match l with
               | [] => Forall_nil P
               | x :: rest =>
                   Forall_cons x (Raw_nested_ind P step x) (all rest)
               end) kids)
  end.

(** Induction on a node with its children. *)
Fixpoint TreeNode_nested_ind (P : TreeNode -> Prop)
         (step : forall ident tx st ch,
             Forall P ch -> P (Node ident tx st ch))
         (n : TreeNode) {struct n} : P n :=
  match n with
  | Node ident tx st ch =>
      step ident tx st ch
           ((fix all (l : list TreeNode) : Forall P l :=
               match l with
               | [] => Forall_nil P
               | x :: rest =>
                   Forall_cons x (TreeNode_nested_ind P step x) (all rest)
               end) ch)
  end.

(** Parsing changes the id counter and fires node events; the model is
    the very same. *)
Definition parse_quiet (R : State -> State -> Prop) (t t' : InspireTree)
  : Prop :=
  silent R t t' /\ model t' = model t.

(** The nodes parsing makes, and the ids it uses up, depend on the tree
    through the id counter only. *)
Definition same_parse (cuid : nat -> string) (r : Raw) : Prop :=
  forall a b,
    next_cuid a = next_cuid b ->
    fst (parseRecord cuid r a) = fst (parseRecord cuid r b)
    /\ next_cuid (snd (parseRecord cuid r a))
       = next_cuid (snd (parseRecord cuid r b)).

(** The id and the text of a raw record and of every record below it, in
    document order. *)
Fixpoint rawEntries (r : Raw) : list (RawId * string) :=
  match r with
  | RawNode rid tx _ kids => (rid, tx) :: flat_map rawEntries kids
  end.

(** The text of a node and of every node below it, in document order. *)
Fixpoint nodeTexts (n : TreeNode) : list string :=
  match n with
  | Node _ tx _ ch => tx :: flat_map nodeTexts ch
  end.

(** The entries whose id [objectToModel] takes for missing. *)
Definition withoutId (entries : list (RawId * string))
  : list (RawId * string) :=
  filter (fun e => negb (rawId_truthy (fst e))) entries.

(** What a search lets an observer see between the two ends of its batch:
    [node.expanded] events and requests to render. *)
Definition expandNoise (o : Obs) : bool :=
  match o with
  | DomApplyChanges => true
  | Emitted name (PNode _) => String.eqb name "node.expanded"
  | _ => false
  end.

(** The trace grows by observations that pass [P]. *)
Definition grows (P : Obs -> bool) (t t' : InspireTree) : Prop :=
  exists extra, trace t' = trace t ++ extra /\ forallb P extra = true.

(** The tree of three root nodes after [selectBetween] from the first to
    the third. *)
Definition threeRootsSelected : InspireTree :=
  Eval vm_compute in
    match selectBetween [0] [2] threeRootsTree with
    | Some t' => t'
    | None => threeRootsTree
    end.

(** The settings of a tree that a load leaves alone: all but the promise
    and the timers. *)
Definition statics (t : InspireTree) :=
  (config t, _muted t, allowsLoadEvents t, has_dom t, initialized t,
   isDynamic t, preventDeselection t).

(** A promise-like object no settlement of which reaches [load]: it
    resolves but has no [then], rejects but has neither [error] nor
    [catch], or never settles. *)
Definition unheard (p : PromiseLike) : Prop :=
  match outcome p with
  | Resolves _ => has_then p = false
  | ResolvesUnparsable _ _ => has_then p = false
  | Rejects _ => has_error p = false /\ has_catch p = false
  | NeverSettles => True
  end.

(** What parsing a record does to the tree, as far as ids and events go. *)
Definition parse_counts (cuid : nat -> string) (r : Raw) : Prop :=
  forall t,
    allowsLoadEvents (snd (parseRecord cuid r t)) = allowsLoadEvents t
    /\ next_cuid (snd (parseRecord cuid r t))
       = next_cuid t + List.length (withoutId (rawEntries r))
    /\ nodeTexts (fst (parseRecord cuid r t)) = map snd (rawEntries r)
    /\ (allowsLoadEvents t = false ->
        trace (snd (parseRecord cuid r t)) = trace t).


(** The tree after [complete(nodes)] on an array of records. *)
Definition completed (cuid : nat -> string) (nodes : list Raw)
           (t : InspireTree) : InspireTree :=
  treeOf (complete cuid (Records nodes) t).

(** The options the constructor refuses: the data source is missing;
    [selection] is [null]; the bundled renderer is compiled in and no
    target is given; no renderer is compiled in and the renderer function
    of the caller throws, or the [attach] hook of the renderer it
    returns. *)
Inductive refused (DOM : bool) (opts : Options) : Prop :=
| refused_no_data :
    loader_truthy (data opts) = false -> refused DOM opts
| refused_null_selection :
    selection_isNull opts = true -> refused DOM opts
| refused_no_target :
    DOM = true -> truthy (target opts) = false -> refused DOM opts
| refused_renderer_throws err :
    DOM = false -> isFunction (renderer opts) = true ->
    renderer_call (customRenderer opts) = CallThrows err ->
    refused DOM opts
| refused_attach_throws err :
    DOM = false -> isFunction (renderer opts) = true ->
    attach_call (customRenderer opts) = CallThrows err ->
    refused DOM opts.

(** Options with a data source and a target, and [null] for [selection]. *)
Definition nullSelectionOptions : Options :=
  {| data := LArray [leaf "1" "A"];
     target := VStr "#tree";
     allowLoadEvents := None;
     contextMenu := VUndefined;
     dragTargets := VUndefined;
     resetStateOnRestore := VUndefined;
     renderer := VUndefined;
     search_option := VUndefined;
     selection := mkSelection VUndefined VUndefined VUndefined VUndefined
                              VUndefined VUndefined VUndefined;
     showCheckboxes := VUndefined;
     sort := None;
     tabindex := VUndefined;
     selection_isNull := true;
     customRenderer := mkCustomRenderer CallReturns CallReturns |}.


(** The tree of the scenarios, built with [autoSelectChildren]. *)
Definition autoSelectTree : InspireTree :=
  Eval vm_compute in
    match afterwards cuid_counter
            (construct false cuid_counter
               (set_selection
                  (mkSelection VUndefined VUndefined (VBool true) VUndefined
                               VUndefined VUndefined VUndefined)
                  (optionsWith (LArray sampleRecords))))
    with
    | Some t => t
    | None => emptyTree
    end.

(* ================================================================== *)
(** * Part II: properties *)
(* ================================================================== *)

(** ** Muting *)

Lemma emit_unmuted (name : string) (payload : Payload) (t : InspireTree) :
  muted t = MutedFalse ->
  trace (emit name payload t) = trace t ++ [Emitted name payload].
Proof.
  intros H. unfold emit. rewrite H. reflexivity.
Qed.

Lemma emit_muted (name : string) (payload : Payload) (t : InspireTree) :
  muted t <> MutedFalse -> emit name payload t = t.
Proof.
  intros H. unfold emit. destruct (muted t); try reflexivity. now elim H.
Qed.

(** The only state in which [emit] dispatches is [_muted = false]. *)
Lemma emit_dispatches_iff (name : string) (payload : Payload)
      (t : InspireTree) :
  trace (emit name payload t) <> trace t <-> muted t = MutedFalse.
Proof.
  split.
  - intros H. destruct (muted t) eqn:E; try reflexivity;
      elim H; rewrite emit_muted; congruence.
  - intros H. rewrite emit_unmuted by assumption.
    intros C. apply (f_equal (@List.length Obs)) in C.
    rewrite length_app in C. simpl in C. lia.
Qed.

Lemma mute_names (events : EventsArg) (t : InspireTree) :
  events_isStringOrArray events = true ->
  muted (mute events t) = MutedNames (castArray events).
Proof.
  intros H. unfold mute. rewrite H. reflexivity.
Qed.

Lemma mute_all (t : InspireTree) : muted (mute EvNone t) = MutedTrue.
Proof. reflexivity. Qed.

(** [unmute] with names leaves [false] exactly when no muted name is left. *)
Lemma unmute_names (events : EventsArg) (t : InspireTree) :
  events_isStringOrArray events = true ->
  (muted (unmute events t) = MutedFalse
   <-> difference (muted t) (castArray events) = [])
  /\ (difference (muted t) (castArray events) <> [] ->
      muted (unmute events t)
      = MutedNames (difference (muted t) (castArray events))).
Proof.
  intros H. unfold unmute, muted. rewrite H.
  destruct (difference (_muted t) (castArray events)) eqn:E; simpl.
  - split; [tauto | congruence].
  - split; [split; discriminate | reflexivity].
Qed.

Lemma unmute_all (t : InspireTree) : muted (unmute EvNone t) = MutedFalse.
Proof. reflexivity. Qed.

(** C3 (the code departs from the claim): after [mute] with one event name,
    an event of any other name is not dispatched either: the emitter
    override asks only whether [muted()] is truthy, and the stored array of
    names is. *)
Theorem mute_one_name_silences_other_events :
  forall (t : InspireTree) (name other : string) (payload : Payload),
    trace (emit other payload (mute (EvString name) t)) = trace t.
Proof.
  intros t name other payload. reflexivity.
Qed.

(** The same for an array of names, also the empty one. *)
Lemma mute_names_silences_every_event :
  forall (t : InspireTree) (names : list string) (other : string)
         (payload : Payload),
    emit other payload (mute (EvArray names) t) = mute (EvArray names) t.
Proof.
  intros. reflexivity.
Qed.

(** ** Configuration and construction *)

Lemma buildConfig_checkbox (o : Options) :
  is_checkbox (mode (selection o)) = true ->
  autoSelectChildren (selection (buildConfig o)) = VBool true
  /\ autoDeselect (selection (buildConfig o)) = VBool false.
Proof.
  intros H. unfold buildConfig, forceCheckbox.
  assert (Hm : is_checkbox (mode (selection (defaultsDeep o))) = true).
  { simpl. destruct (mode (selection o)); simpl in *; congruence. }
  rewrite Hm.
  destruct (negb (isBoolean (showCheckboxes o))); simpl; auto.
Qed.

Lemma buildConfig_multiple (o : Options) :
  truthy (autoSelectChildren (selection (buildConfig o))) = true ->
  multiple (selection (buildConfig o)) = VBool true.
Proof.
  unfold buildConfig, forceMultiple.
  destruct (truthy (autoSelectChildren
                      (selection (forceCheckbox o (defaultsDeep o))))) eqn:E.
  - intros _. reflexivity.
  - intros H. rewrite E in H. discriminate.
Qed.

Lemma fields_buildConfig (opts : Options) :
  data (buildConfig opts) = data opts
  /\ renderer (buildConfig opts) = default_to (VBool false) (renderer opts)
  /\ customRenderer (buildConfig opts) = customRenderer opts.
Proof.
  unfold buildConfig, forceMultiple, forceCheckbox.
  destruct (is_checkbox _); cbv zeta;
    [destruct (negb (isBoolean (showCheckboxes opts))) |];
    match goal with
    | |- context [truthy ?x] => destruct (truthy x)
    end; repeat split.
Qed.

Lemma rendererThrows_newTree (DOM : bool) (opts : Options) :
  rendererThrows (newTree DOM (buildConfig opts))
  = if negb DOM && isFunction (renderer opts) then
      match renderer_call (customRenderer opts) with
      | CallThrows err => Some err
      | CallReturns =>
          match attach_call (customRenderer opts) with
          | CallThrows err => Some err
          | CallReturns => None
          end
      end
    else None.
Proof.
  unfold rendererThrows.
  change (has_dom (newTree DOM (buildConfig opts))) with DOM.
  change (config (newTree DOM (buildConfig opts))) with (buildConfig opts).
  destruct (fields_buildConfig opts) as (_ & -> & ->).
  now destruct (renderer opts).
Qed.

Lemma refused_dec (DOM : bool) (opts : Options) :
  refused DOM opts \/ ~ refused DOM opts.
Proof.
  destruct (loader_truthy (data opts)) eqn:Hd;
    [| left; now apply refused_no_data].
  destruct (selection_isNull opts) eqn:Hs;
    [left; now apply refused_null_selection |].
  destruct DOM.
  - destruct (truthy (target opts)) eqn:Ht;
      [| left; now apply refused_no_target].
    right. intros H. destruct H; congruence.
  - destruct (isFunction (renderer opts)) eqn:Hf;
      [| right; intros H; destruct H; congruence].
    destruct (renderer_call (customRenderer opts)) as [| err] eqn:Hc;
      [| left; now apply (refused_renderer_throws _ _ err)].
    destruct (attach_call (customRenderer opts)) as [| err] eqn:Ha;
      [| left; now apply (refused_attach_throws _ _ err)].
    right. intros H. destruct H; congruence.
Qed.

(** What the constructor does when nothing stops it. *)
Lemma construct_builds (DOM : bool) (cuid : nat -> string) (opts : Options) :
  loader_truthy (data opts) = true ->
  selection_isNull opts = false ->
  DOM && negb (truthy (target opts)) = false ->
  rendererThrows (newTree DOM (buildConfig opts)) = None ->
  construct DOM cuid opts
  = Built (set_initialized true
             (fst (load cuid (data opts)
                        (dom_attach (newTree DOM (buildConfig opts))))))
          (snd (load cuid (data opts)
                     (dom_attach (newTree DOM (buildConfig opts))))).
Proof.
  intros Hd Hs Ht Hr. unfold construct. rewrite Hd, Hs. simpl negb. cbv iota.
  change (has_dom (newTree DOM (buildConfig opts))) with DOM.
  rewrite Ht, Hr. cbv zeta.
  change (config (dom_attach (newTree DOM (buildConfig opts))))
    with (buildConfig opts).
  destruct (fields_buildConfig opts) as (-> & _).
  now destruct (load cuid (data opts) _).
Qed.

(** C8 (amended): the constructor throws exactly when the options are
    refused: the data source is missing (falsy); [selection] is [null];
    the bundled renderer is compiled in and no target is given; or no
    renderer is compiled in and the renderer function of the caller, or
    the [attach] hook of the renderer it returns, throws.  In every other
    case it returns the instance, initialized and with the configuration
    made of the options, whatever becomes of the first load. *)
Theorem construct_throws_iff_config_missing :
  forall (DOM : bool) (cuid : nat -> string) (opts : Options),
    (((exists e, construct DOM cuid opts = ThrowsTypeError e)
      \/ (exists err, construct DOM cuid opts = ThrowsError err))
     <-> refused DOM opts)
    /\ ((exists t later,
           construct DOM cuid opts = Built t later
           /\ initialized t = true)
        <-> ~ refused DOM opts).
Proof.
  intros DOM cuid opts.
  assert (Hthrows : refused DOM opts ->
                    (exists e, construct DOM cuid opts = ThrowsTypeError e)
                    \/ (exists err, construct DOM cuid opts = ThrowsError err)).
  { intros H. unfold construct.
    destruct (loader_truthy (data opts)) eqn:Hd; simpl negb; cbv iota;
      [| left; eauto].
    destruct (selection_isNull opts) eqn:Hs; [left; eauto |].
    change (has_dom (newTree DOM (buildConfig opts))) with DOM.
    destruct H as [H | H | H1 H2 | err H1 H2 H3 | err H1 H2 H3];
      try congruence.
    - subst DOM. rewrite H2. left. simpl. eauto.
    - subst DOM. rewrite rendererThrows_newTree, H2, H3. simpl.
      right. eauto.
    - subst DOM. rewrite rendererThrows_newTree, H2, H3. simpl.
      right. destruct (renderer_call (customRenderer opts)); eauto. }
  assert (Hbuilt : ~ refused DOM opts ->
                   exists t later,
                     construct DOM cuid opts = Built t later
                     /\ initialized t = true).
  { intros H.
    destruct (loader_truthy (data opts)) eqn:Hd;
      [| elim H; now apply refused_no_data].
    destruct (selection_isNull opts) eqn:Hs;
      [elim H; now apply refused_null_selection |].
    assert (Ht : DOM && negb (truthy (target opts)) = false).
    { destruct DOM; [| reflexivity].
      destruct (truthy (target opts)) eqn:Ht; [reflexivity |].
      elim H. now apply refused_no_target. }
    assert (Hr : rendererThrows (newTree DOM (buildConfig opts)) = None).
    { rewrite rendererThrows_newTree.
      destruct DOM; [reflexivity |]. simpl.
      destruct (isFunction (renderer opts)) eqn:Hf; [| reflexivity].
      destruct (renderer_call (customRenderer opts)) as [| err] eqn:Hc;
        [| elim H; now apply (refused_renderer_throws _ _ err)].
      destruct (attach_call (customRenderer opts)) as [| err] eqn:Ha;
        [reflexivity |].
      elim H. now apply (refused_attach_throws _ _ err). }
    rewrite (construct_builds DOM cuid opts Hd Hs Ht Hr). eauto. }
  split; split.
  - intros H. destruct (refused_dec DOM opts) as [Hr | Hn]; [exact Hr |].
    destruct (Hbuilt Hn) as (t & l & He & _).
    destruct H as [[e H] | [err H]]; congruence.
  - exact Hthrows.
  - intros (t & later & E & _) H.
    destruct (Hthrows H) as [[e He] | [err He]]; congruence.
  - exact Hbuilt.
Qed.

(** C8 (as stated it fails): with a data source and a target given, and
    [null] for [selection], the constructor throws, with or without the
    bundled renderer: [_.defaultsDeep] keeps the [null], and reading its
    [mode] is a [TypeError]. *)
Lemma construct_with_null_selection_throws :
  loader_truthy (data nullSelectionOptions) = true
  /\ truthy (target nullSelectionOptions) = true
  /\ construct true cuid_counter nullSelectionOptions
     = ThrowsTypeError SelectionIsNull
  /\ construct false cuid_counter nullSelectionOptions
     = ThrowsTypeError SelectionIsNull.
Proof. repeat split. Qed.

(** ** Ids of parsed records *)

Section Ids.

Variable cuid : nat -> string.

Lemma ensureId_absent (t : InspireTree) :
  ensureId cuid (IdPrim PrimUndefined) t
  = (cuid (next_cuid t), set_next_cuid (S (next_cuid t)) t).
Proof. reflexivity. Qed.

Lemma ensureId_string (s : string) (t : InspireTree) :
  s <> "" -> ensureId cuid (IdStr s) t = (s, t).
Proof.
  intros H. unfold ensureId. simpl.
  destruct (String.eqb_spec s ""); [contradiction | reflexivity].
Qed.

(** A truthy id that is not a string is turned into its string form. *)
Lemma ensureId_truthy_primitive (v : Primitive) (t : InspireTree) :
  prim_truthy v = true ->
  ensureId cuid (IdPrim v) t = (prim_toString v, t).
Proof.
  intros H. unfold ensureId. simpl. rewrite H. reflexivity.
Qed.

(** A falsy id is taken for an absent one. *)
Lemma ensureId_falsy (i : RawId) (t : InspireTree) :
  rawId_truthy i = false ->
  ensureId cuid i t
  = (cuid (next_cuid t), set_next_cuid (S (next_cuid t)) t).
Proof.
  intros H. unfold ensureId. rewrite H. reflexivity.
Qed.

(** The inner loop of [parseRecord] is [parseRecords]. *)
Lemma parseRecord_unfold (rid : RawId) (tx : string) (rs : RawState)
      (kids : list Raw) (t : InspireTree) :
  parseRecord cuid (RawNode rid tx rs kids) t
  = let (ident, t1) := ensureId cuid rid t in
    let (children, t2) := parseRecords cuid kids t1 in
    (Node ident tx (parseState rs) children,
     fireLoadEvents ident (parseState rs) t2).
Proof. reflexivity. Qed.

Lemma parseRecord_id (rid : RawId) (tx : string) (rs : RawState)
      (kids : list Raw) (t : InspireTree) :
  node_id (fst (parseRecord cuid (RawNode rid tx rs kids) t))
  = fst (ensureId cuid rid t).
Proof.
  rewrite parseRecord_unfold.
  destruct (ensureId cuid rid t) as [ident t1].
  destruct (parseRecords cuid kids t1) as [children t2].
  reflexivity.
Qed.

Lemma objectToModel_id (rid : RawId) (tx : string) (rs : RawState)
      (kids : list Raw) (t : InspireTree) :
  node_id (fst (objectToModel cuid (RawNode rid tx rs kids) t))
  = fst (ensureId cuid rid t).
Proof.
  unfold objectToModel.
  destruct (sort (config t)); simpl sortedRecord; apply parseRecord_id.
Qed.

(** C9 (the code departs from the claim): a record whose id is the number
    [0] does not get the id ["0"]: [object.id || cuid()] takes the falsy
    number for a missing id and the record gets a generated one. *)
Theorem objectToModel_id_zero_is_regenerated :
  forall (tx : string) (rs : RawState) (kids : list Raw) (t : InspireTree),
    node_id (fst (objectToModel cuid
                    (RawNode (IdPrim (PrimNum 0)) tx rs kids) t))
    = cuid (next_cuid t).
Proof.
  intros. rewrite objectToModel_id. reflexivity.
Qed.

(** The numbers other than [0] are coerced as the claim has it. *)
Lemma objectToModel_id_number (z : Z) (tx : string) (rs : RawState)
      (kids : list Raw) (t : InspireTree) :
  z <> 0%Z ->
  node_id (fst (objectToModel cuid (RawNode (IdPrim (PrimNum z)) tx rs kids) t))
  = num_to_string z.
Proof.
  intros H. rewrite objectToModel_id, ensureId_truthy_primitive.
  - reflexivity.
  - simpl. destruct (Z.eqb_spec z 0); [contradiction | reflexivity].
Qed.

End Ids.

(** ** Bounding nodes *)

(** C2 (the code departs from the claim): of three root nodes, the first
    three of the tree, [boundingNodes] returns the first and [undefined],
    not the first and the last: [_.tail(paths)] is every sorted key but the
    first, and [_.get] takes these two keys for a path into the first of the
    two nodes. *)
Theorem boundingNodes_of_three_has_no_maximum :
  boundingNodes [[0]; [1]; [2]] = (Some [0], None).
Proof. reflexivity. Qed.

Lemma length_insertSorted (x : string) (l : list string) :
  List.length (insertSorted x l) = S (List.length l).
Proof.
  induction l as [| y l IH]; simpl; [reflexivity |].
  destruct (String.leb x y); simpl; [reflexivity | now rewrite IH].
Qed.

Lemma length_sortBy (l : list string) :
  List.length (sortBy l) = List.length l.
Proof.
  induction l as [| x l IH]; simpl; [reflexivity |].
  now rewrite length_insertSorted, IH.
Qed.

(** With three keys or more there is never a maximum. *)
Lemma boundingNodes_of_many (args : list Path) :
  3 <= List.length
         (keys (fold_left
                  (fun m node =>
                     pathMap_set (removeDots (indexPath node)) node m)
                  args [])) ->
  snd (boundingNodes args) = None.
Proof.
  unfold boundingNodes. simpl snd. rewrite <- length_sortBy.
  destruct (sortBy _) as [| a [| b [| c r]]]; simpl; try lia. reflexivity.
Qed.

(** One node: [_.tail] is empty and the maximum is [undefined]. *)
Lemma boundingNodes_of_one (p : Path) :
  boundingNodes [p] = (Some p, None).
Proof.
  unfold boundingNodes. simpl. rewrite String.eqb_refl. reflexivity.
Qed.

(** The keys are compared as strings: the eleventh root node comes before
    the third. *)
Lemma boundingNodes_compares_strings :
  boundingNodes [[2]; [10]] = (Some [10], Some [2]).
Proof. reflexivity. Qed.

(** Two nodes whose keys differ come back ordered by their keys. *)
Lemma boundingNodes_of_two (x y : Path) :
  removeDots (indexPath x) <> removeDots (indexPath y) ->
  boundingNodes [x; y]
  = if String.leb (removeDots (indexPath x)) (removeDots (indexPath y))
    then (Some x, Some y) else (Some y, Some x).
Proof.
  intros H. unfold boundingNodes. simpl.
  set (kx := removeDots (indexPath x)) in *.
  set (ky := removeDots (indexPath y)) in *.
  destruct (String.eqb_spec kx ky) as [E | E]; [contradiction |].
  simpl. destruct (String.leb kx ky); simpl;
    repeat rewrite String.eqb_refl;
    destruct (String.eqb_spec kx ky); try contradiction; reflexivity.
Qed.

(** ** Positions and updates *)

Lemma path_eqb_spec (p q : Path) : reflect (p = q) (path_eqb p q).
Proof.
  unfold path_eqb. destruct (list_eq_dec Nat.eq_dec p q); now constructor.
Qed.

Lemma path_eqb_refl (p : Path) : path_eqb p p = true.
Proof. destruct (path_eqb_spec p p); congruence. Qed.

Lemma path_eqb_cons (i j : nat) (p q : Path) :
  path_eqb (i :: p) (j :: q) = Nat.eqb i j && path_eqb p q.
Proof.
  destruct (path_eqb_spec (i :: p) (j :: q)) as [E | E].
  - inversion E; subst. now rewrite Nat.eqb_refl, path_eqb_refl.
  - destruct (Nat.eqb_spec i j); [| reflexivity].
    destruct (path_eqb_spec p q); [| reflexivity]. subst. now elim E.
Qed.

Lemma nth_error_update_nth {A : Type} (f : A -> A) (l : list A) :
  forall i j,
    nth_error (update_nth i f l) j
    = if Nat.eqb i j then option_map f (nth_error l j) else nth_error l j.
Proof.
  induction l as [| x l IH]; intros i j.
  - simpl. destruct j; simpl; now destruct (Nat.eqb i _).
  - destruct i, j; simpl; try reflexivity. apply IH.
Qed.

Lemma length_update_nth {A : Type} (f : A -> A) (l : list A) :
  forall i, List.length (update_nth i f l) = List.length l.
Proof.
  induction l as [| x l IH]; intros [| i]; simpl; auto.
Qed.

Lemma length_updateAt (f : State -> State) (p : Path) (l : TreeNodes) :
  List.length (updateAt p f l) = List.length l.
Proof.
  destruct p; simpl; [reflexivity | apply length_update_nth].
Qed.

Lemma descendants_children (n : TreeNode) :
  descendants n = pathsFrom 0 (node_children n).
Proof. destruct n. reflexivity. Qed.

Lemma pathsFrom_update_nth (g : TreeNode -> TreeNode) :
  (forall n, descendants (g n) = descendants n) ->
  forall l k i, pathsFrom i (update_nth k g l) = pathsFrom i l.
Proof.
  intros Hg. induction l as [| x l IH]; intros k i.
  - reflexivity.
  - destruct k; simpl.
    + now rewrite Hg.
    + now rewrite IH.
Qed.

Lemma pathsFrom_updateAt (f : State -> State) :
  forall p l i, pathsFrom i (updateAt p f l) = pathsFrom i l.
Proof.
  induction p as [| k rest IH]; intros l i.
  - reflexivity.
  - simpl. apply pathsFrom_update_nth.
    intros [ident tx st ch]. destruct rest.
    + reflexivity.
    + rewrite !descendants_children. simpl node_children. apply IH.
Qed.

Lemma allPaths_updateAt (f : State -> State) (p : Path) (l : TreeNodes) :
  allPaths (updateAt p f l) = allPaths l.
Proof. apply pathsFrom_updateAt. Qed.

Lemma nodeAt_nil (l : TreeNodes) : nodeAt l [] = None.
Proof. destruct l; reflexivity. Qed.

Lemma infoAt_nil (l : TreeNodes) : infoAt l [] = None.
Proof. unfold infoAt. now rewrite nodeAt_nil. Qed.

Lemma nodeAt_cons (l : TreeNodes) (j : nat) (qr : Path) :
  nodeAt l (j :: qr)
  = match nth_error l j with
    | None => None
    | Some n =>
        match qr with
        | [] => Some n
        | _ => nodeAt (node_children n) qr
        end
    end.
Proof. reflexivity. Qed.

(** The node at [q] after the state at [p] was changed. *)
Lemma infoAt_updateAt (f : State -> State) :
  forall p l q,
    infoAt (updateAt p f l) q
    = match infoAt l q with
      | Some (i, tx, s, k) =>
          Some (i, tx, (if path_eqb p q then f s else s), k)
      | None => None
      end.
Proof.
  induction p as [| i rest IH]; intros l q.
  - simpl. destruct (infoAt l q) as [[[[a b] c] d] |] eqn:E; auto.
    destruct (path_eqb_spec [] q); auto. subst.
    rewrite infoAt_nil in E. discriminate.
  - destruct q as [| j qr].
    + now rewrite !infoAt_nil.
    + unfold infoAt. rewrite !nodeAt_cons. cbn [updateAt].
      rewrite nth_error_update_nth, path_eqb_cons.
      destruct (Nat.eqb_spec i j) as [-> | Hij]; cbn [andb].
      * destruct (nth_error l j) as [[ident tx st ch] |]; cbn [option_map];
          [| reflexivity].
        destruct rest as [| r0 rs]; destruct qr as [| q0 qs];
          cbn [node_children node_id node_text node_state].
        -- now rewrite path_eqb_refl.
        -- destruct (path_eqb_spec [] (q0 :: qs)); [discriminate |].
           destruct (nodeAt ch (q0 :: qs)); reflexivity.
        -- destruct (path_eqb_spec (r0 :: rs) []); [discriminate |].
           now rewrite length_updateAt.
        -- specialize (IH ch (q0 :: qs)). unfold infoAt in IH. exact IH.
      * destruct (nth_error l j) as [n |]; [| reflexivity].
        destruct qr; [reflexivity |].
        destruct (nodeAt (node_children n) (n0 :: qr)); reflexivity.
Qed.

(** ** Steps that only change states *)

Section Related.

Variable R : State -> State -> Prop.
Hypothesis R_refl : forall s, R s s.
Hypothesis R_trans : forall a b c, R a b -> R b c -> R a c.

Lemma related_refl (l : TreeNodes) : related R l l.
Proof.
  split; [reflexivity |]. intros p.
  destruct (infoAt l p) as [[[[i tx] s] k] |]; auto.
Qed.

Lemma related_trans (a b c : TreeNodes) :
  related R a b -> related R b c -> related R a c.
Proof.
  intros [Hp1 H1] [Hp2 H2]. split; [congruence |]. intros p.
  specialize (H1 p). specialize (H2 p).
  destruct (infoAt a p) as [[[[i1 x1] s1] k1] |],
           (infoAt b p) as [[[[i2 x2] s2] k2] |],
           (infoAt c p) as [[[[i3 x3] s3] k3] |]; try tauto.
  destruct H1 as (? & ? & ? & ?), H2 as (? & ? & ? & ?).
  repeat split; try congruence. eauto.
Qed.

Lemma related_updateAt (f : State -> State) (p : Path) (l : TreeNodes) :
  (forall s, R s (f s)) -> related R l (updateAt p f l).
Proof.
  intros Hf. split; [apply allPaths_updateAt |]. intros q.
  rewrite infoAt_updateAt.
  destruct (infoAt l q) as [[[[i tx] s] k] |]; auto.
  repeat split; auto. destruct (path_eqb p q); auto.
Qed.

Lemma silent_refl (t : InspireTree) : silent R t t.
Proof. repeat split; auto using related_refl. apply related_refl. Qed.

Lemma silent_trans (a b c : InspireTree) :
  silent R a b -> silent R b c -> silent R a c.
Proof.
  intros (S1 & M1 & T1) (S2 & M2 & T2).
  repeat split; try congruence.
  - destruct M1, M2; congruence.
  - apply (related_trans _ _ _ M1 M2).
Qed.

Lemma milestones_app (a b : list Obs) :
  milestones (a ++ b) = milestones a ++ milestones b.
Proof. apply flat_map_app. Qed.

Lemma silent_observe (o : Obs) (t : InspireTree) :
  milestone o = [] -> silent R t (observe o t).
Proof.
  intros H. repeat split; try apply related_refl.
  simpl. rewrite milestones_app. simpl. rewrite H.
  now rewrite app_nil_r.
Qed.

Lemma silent_emit_node (verb : string) (payload : Payload)
      (t : InspireTree) :
  silent R t (emit ("node." ++ verb)%string payload t).
Proof.
  unfold emit. destruct (negb (muted_truthy (muted t))).
  - apply silent_observe. reflexivity.
  - apply silent_refl.
Qed.

Lemma silent_updateAt (f : State -> State) (p : Path) (t : InspireTree) :
  (forall s, R s (f s)) ->
  silent R t (set_model (updateAt p f (model t)) t).
Proof.
  intros Hf. repeat split; try (apply related_updateAt; assumption).
Qed.

Lemma silent_fold {A : Type} (f : InspireTree -> A -> InspireTree)
      (l : list A) :
  (forall a x, silent R a (f a x)) ->
  forall t, silent R t (fold_left f l t).
Proof.
  intros Hf. induction l as [| x l IH]; intros t; simpl.
  - apply silent_refl.
  - eapply silent_trans; [apply Hf | apply IH].
Qed.


(** [baseStateChange] on a flag [R] does not look at. *)
Lemma silent_baseStateChange (prop : StateProp) (value : bool)
      (verb : string) (p : Path) (t : InspireTree) :
  String.eqb verb "restored" = false ->
  (forall s, R s (setState prop value s)) ->
  silent R t (baseStateChange prop value verb p None t).
Proof.
  intros Hv Hs. unfold baseStateChange.
  destruct (nodeAt (model t) p) as [n |]; [| apply silent_refl].
  destruct (Bool.eqb _ value); [apply silent_refl |].
  rewrite Hv, andb_false_r.
  eapply silent_trans; [apply (silent_updateAt _ p t Hs) |].
  eapply silent_trans; [apply silent_emit_node |].
  apply silent_observe. reflexivity.
Qed.

End Related.

(** ** Selecting a node *)

Section Selecting.

Variable R : State -> State -> Prop.
Hypothesis R_refl : forall s, R s s.
Hypothesis R_trans : forall a b c, R a b -> R b c -> R a c.
Hypothesis R_selected : forall v s, R s (setState SelectedProp v s).
Hypothesis R_indeterminate : forall v s, R s (setState Indeterminate v s).

Lemma silent_advance (t t' : InspireTree) :
  silent R t t' <-> advance R [] t t'.
Proof.
  unfold silent, advance. now rewrite app_nil_r.
Qed.

Lemma advance_trans (ms1 ms2 : list Milestone) (a b c : InspireTree) :
  advance R ms1 a b -> advance R ms2 b c -> advance R (ms1 ++ ms2) a c.
Proof.
  intros (S1 & M1 & T1) (S2 & M2 & T2). repeat split.
  - congruence.
  - destruct M1, M2; congruence.
  - apply (related_trans R R_trans _ _ _ M1 M2).
  - rewrite T2, T1. now rewrite app_assoc.
Qed.

Lemma advance_silent_l (ms : list Milestone) (a b c : InspireTree) :
  silent R a b -> advance R ms b c -> advance R ms a c.
Proof.
  intros H1 H2. apply silent_advance in H1.
  apply (advance_trans [] ms a b c H1 H2).
Qed.

Lemma advance_silent_r (ms : list Milestone) (a b c : InspireTree) :
  advance R ms a b -> silent R b c -> advance R ms a c.
Proof.
  intros H1 H2. apply silent_advance in H2.
  rewrite <- (app_nil_r ms). apply (advance_trans ms [] a b c H1 H2).
Qed.

Lemma advance_observe (o : Obs) (t : InspireTree) :
  advance R (milestone o) t (observe o t).
Proof.
  repeat split; try apply (related_refl R R_refl).
  simpl. rewrite milestones_app. simpl. now rewrite app_nil_r.
Qed.

Lemma R_refreshed (derived : bool) (kids : TreeNodes) (s : State) :
  R s (refreshed derived kids s).
Proof.
  unfold refreshed. destruct kids; [apply R_refl |]. cbv zeta.
  destruct derived; [destruct (forallb _ _) |];
    try apply R_indeterminate;
    (eapply R_trans; [apply R_selected | apply R_indeterminate]).
Qed.

Lemma silent_refreshIndeterminateState (p : Path) (t : InspireTree) :
  silent R t (refreshIndeterminateState p t).
Proof.
  unfold refreshIndeterminateState.
  destruct (nodeAt (model t) p); [| apply (silent_refl R R_refl)].
  apply (silent_updateAt R R_refl). intros s. apply R_refreshed.
Qed.

Lemma silent_select_state (v : bool) (verb : string) (p : Path)
      (t : InspireTree) :
  String.eqb verb "restored" = false ->
  silent R t (baseStateChange SelectedProp v verb p None t).
Proof.
  intros H. apply (silent_baseStateChange R R_refl R_trans); auto.
Qed.

Lemma silent_set_lastSelectedNode (p : option Path) (t : InspireTree) :
  silent R t (set_lastSelectedNode p t).
Proof. repeat split; apply (related_refl R R_refl). Qed.

(** [select] changes the selection flags only, and is one call. *)
Lemma advance_select (p : Path) (t : InspireTree) :
  advance R (match nodeAt (model t) p with
             | Some _ => [NodeSelected p]
             | None => []
             end) t (select p t).
Proof.
  unfold select.
  destruct (nodeAt (model t) p) as [n |];
    [| apply silent_advance, (silent_refl R R_refl)].
  pose proof (advance_observe (SelectCall p) t) as H0. simpl milestone in H0.
  destruct (negb (selectable (node_state n)) || removed (node_state n));
    [exact H0 |].
  eapply advance_silent_r; [exact H0 |].
  set (t0 := observe (SelectCall p) t).
  eapply (silent_trans R R_trans).
  { instantiate (1 := if truthy (multiple (selection (config t0))) then t0
                      else fold_left
                             (fun acc q =>
                                if path_eqb q p then acc else deselect q acc)
                             (selectedPaths (model t0)) t0).
    destruct (truthy (multiple (selection (config t0))));
      [apply (silent_refl R R_refl) |].
    apply (silent_fold R R_refl R_trans). intros a x.
    destruct (path_eqb x p); [apply (silent_refl R R_refl) |].
    unfold deselect.
    eapply (silent_trans R R_trans);
      [apply (silent_select_state false "deselected" x a); reflexivity |].
    apply (silent_fold R R_refl R_trans). intros b y.
    apply silent_refreshIndeterminateState. }
  match goal with
  | |- silent R ?a _ => set (t1 := a)
  end.
  eapply (silent_trans R R_trans);
    [apply (silent_select_state true "selected" p t1); reflexivity |].
  set (t2 := baseStateChange SelectedProp true "selected" p None t1).
  eapply (silent_trans R R_trans);
    [| apply silent_set_lastSelectedNode].
  eapply (silent_trans R R_trans);
    [| apply (silent_fold R R_refl R_trans); intros a x;
       apply silent_refreshIndeterminateState].
  destruct (truthy (autoSelectChildren (selection (config t2))));
    [| apply (silent_refl R R_refl)].
  eapply (silent_trans R R_trans);
    [| apply silent_refreshIndeterminateState].
  apply (silent_fold R R_refl R_trans). intros a x.
  apply silent_select_state. reflexivity.
Qed.

End Selecting.

(** The two scenarios of the specification for [select]: selecting the
    child [B] leaves its parent [A] indeterminate and not selected; and
    with [autoSelectChildren], selecting [A] selects [B] too and leaves
    [A] not indeterminate. *)
Lemma select_scenarios :
  flagAt Indeterminate (model (select [0; 0] sampleTree)) [0] = true
  /\ flagAt SelectedProp (model (select [0; 0] sampleTree)) [0] = false
  /\ flagAt SelectedProp (model (select [0] autoSelectTree)) [0] = true
  /\ flagAt SelectedProp (model (select [0] autoSelectTree)) [0; 0] = true
  /\ flagAt Indeterminate (model (select [0] autoSelectTree)) [0] = false.
Proof. repeat split. Qed.

(** ** Parsing leaves the tree alone *)

Section Parsing.

Variable R : State -> State -> Prop.
Hypothesis R_refl : forall s, R s s.
Hypothesis R_trans : forall a b c, R a b -> R b c -> R a c.
Variable cuid : nat -> string.

Lemma parse_quiet_refl (t : InspireTree) : parse_quiet R t t.
Proof. split; [apply (silent_refl R R_refl) | reflexivity]. Qed.

Lemma parse_quiet_trans (a b c : InspireTree) :
  parse_quiet R a b -> parse_quiet R b c -> parse_quiet R a c.
Proof.
  intros [S1 M1] [S2 M2]. split; [| congruence].
  apply (silent_trans R R_trans a b c S1 S2).
Qed.

Lemma parse_quiet_ensureId (rid : RawId) (t : InspireTree) :
  parse_quiet R t (snd (ensureId cuid rid t)).
Proof.
  unfold ensureId. destruct (rawId_truthy rid).
  - destruct rid; apply parse_quiet_refl.
  - simpl. split; [| reflexivity].
    repeat split; apply (related_refl R R_refl).
Qed.

Lemma parse_quiet_fire (ident : string) (s : State) (l : list string) :
  forall a,
    parse_quiet R a
      (fold_left
         (fun acc eventName =>
            if stateByName eventName s
            then emit ("node." ++ eventName)%string (PNode ident) acc
            else acc) l a).
Proof.
  induction l as [| e l IH]; intros a; simpl.
  - apply parse_quiet_refl.
  - eapply parse_quiet_trans; [| apply IH].
    destruct (stateByName e s); [| apply parse_quiet_refl].
    split; [apply (silent_emit_node R R_refl) |].
    unfold emit. now destruct (negb (muted_truthy (muted a))).
Qed.

Lemma parse_quiet_fireLoadEvents (ident : string) (s : State)
      (t : InspireTree) :
  parse_quiet R t (fireLoadEvents ident s t).
Proof.
  unfold fireLoadEvents. destruct (allowsLoadEvents t);
    [apply parse_quiet_fire | apply parse_quiet_refl].
Qed.

Lemma parse_quiet_parseRecords (array : list Raw) :
  Forall (fun r => forall t, parse_quiet R t (snd (parseRecord cuid r t)))
         array ->
  forall t, parse_quiet R t (snd (parseRecords cuid array t)).
Proof.
  induction 1 as [| r rest Hr _ IH]; intros t; simpl.
  - apply parse_quiet_refl.
  - specialize (Hr t). destruct (parseRecord cuid r t) as [n t1].
    specialize (IH t1). destruct (parseRecords cuid rest t1) as [ns t2].
    simpl in *. eapply parse_quiet_trans; eassumption.
Qed.

Lemma parse_quiet_parseRecord (r : Raw) :
  forall t, parse_quiet R t (snd (parseRecord cuid r t)).
Proof.
  induction r as [rid tx rs kids IH] using Raw_nested_ind. intros t.
  rewrite parseRecord_unfold.
  pose proof (parse_quiet_ensureId rid t) as H1.
  destruct (ensureId cuid rid t) as [ident t1].
  pose proof (parse_quiet_parseRecords kids IH t1) as H2.
  destruct (parseRecords cuid kids t1) as [children t2].
  simpl in *.
  eapply parse_quiet_trans; [exact H1 |].
  eapply parse_quiet_trans; [exact H2 |].
  apply parse_quiet_fireLoadEvents.
Qed.

Lemma parse_quiet_collectionToModel (array : list Raw) (t : InspireTree) :
  parse_quiet R t (snd (collectionToModel cuid array t)).
Proof.
  unfold collectionToModel. apply parse_quiet_parseRecords.
  apply Forall_forall. intros r _. apply parse_quiet_parseRecord.
Qed.

(** Nor does a parse that throws change more, up to the throw. *)
Lemma parse_quiet_parseMalformed (m : Malformed) :
  forall t, parse_quiet R t (parseMalformed cuid m t).
Proof.
  induction m as [before v | before rid children IH]; intros t; simpl.
  - eapply parse_quiet_trans; [apply parse_quiet_collectionToModel |].
    destruct v; [apply parse_quiet_refl |].
    split; [| reflexivity]. repeat split; apply (related_refl R R_refl).
  - eapply parse_quiet_trans; [apply parse_quiet_collectionToModel |].
    eapply parse_quiet_trans; [apply parse_quiet_ensureId | apply IH].
Qed.

End Parsing.

(** ** What parsing depends on *)

Section ParsingIds.

Variable cuid : nat -> string.

Lemma next_cuid_emit (name : string) (payload : Payload) (t : InspireTree) :
  next_cuid (emit name payload t) = next_cuid t.
Proof. unfold emit. now destruct (negb (muted_truthy (muted t))). Qed.

Lemma next_cuid_fireLoadEvents (ident : string) (s : State)
      (t : InspireTree) :
  next_cuid (fireLoadEvents ident s t) = next_cuid t.
Proof.
  unfold fireLoadEvents. destruct (allowsLoadEvents t); [| reflexivity].
  generalize (match allowLoadEvents (config t) with
              | Some l => l
              | None => []
              end).
  intros l. revert t. induction l as [| e l IH]; intros t; simpl.
  - reflexivity.
  - rewrite IH. destruct (stateByName e s); [apply next_cuid_emit | reflexivity].
Qed.

Lemma same_parse_records (array : list Raw) :
  Forall (same_parse cuid) array ->
  forall a b,
    next_cuid a = next_cuid b ->
    fst (parseRecords cuid array a) = fst (parseRecords cuid array b)
    /\ next_cuid (snd (parseRecords cuid array a))
       = next_cuid (snd (parseRecords cuid array b)).
Proof.
  induction 1 as [| r rest Hr _ IH]; intros a b E; simpl.
  - auto.
  - destruct (Hr a b E) as [H1 H2].
    destruct (parseRecord cuid r a) as [n1 a1],
             (parseRecord cuid r b) as [n2 b1].
    simpl in H1, H2. destruct (IH a1 b1 H2) as [H3 H4].
    destruct (parseRecords cuid rest a1) as [ns1 a2],
             (parseRecords cuid rest b1) as [ns2 b2].
    simpl in *. split; congruence.
Qed.

Lemma same_parse_record (r : Raw) : same_parse cuid r.
Proof.
  induction r as [rid tx rs kids IH] using Raw_nested_ind.
  intros a b E. rewrite !parseRecord_unfold.
  assert (H1 : fst (ensureId cuid rid a) = fst (ensureId cuid rid b)
               /\ next_cuid (snd (ensureId cuid rid a))
                  = next_cuid (snd (ensureId cuid rid b))).
  { unfold ensureId. destruct (rawId_truthy rid).
    - destruct rid; simpl; auto.
    - simpl. rewrite E. auto. }
  destruct (ensureId cuid rid a) as [i1 a1],
           (ensureId cuid rid b) as [i2 b1].
  simpl in H1. destruct H1 as [-> H1].
  destruct (same_parse_records kids IH a1 b1 H1) as [H2 H3].
  destruct (parseRecords cuid kids a1) as [c1 a2],
           (parseRecords cuid kids b1) as [c2 b2].
  simpl in *. subst c2. split; [reflexivity |].
  now rewrite !next_cuid_fireLoadEvents.
Qed.

Lemma parsedModel_depends (nodes : list Raw) (a b : InspireTree) :
  next_cuid a = next_cuid b ->
  config a = config b ->
  parsedModel cuid nodes a = parsedModel cuid nodes b.
Proof.
  intros E C. unfold parsedModel, collectionToModel. rewrite C.
  apply same_parse_records; [| assumption].
  apply Forall_forall. intros r _. apply same_parse_record.
Qed.

End ParsingIds.

(** ** The order of a load *)

Lemma sameButSelection_refl (s : State) : sameButSelection s s.
Proof. repeat split. Qed.

Lemma sameButSelection_trans (a b c : State) :
  sameButSelection a b -> sameButSelection b c -> sameButSelection a c.
Proof.
  unfold sameButSelection. intuition congruence.
Qed.

Lemma sameButSelection_selected (v : bool) (s : State) :
  sameButSelection s (setState SelectedProp v s).
Proof. repeat split. Qed.

Lemma sameButSelection_indeterminate (v : bool) (s : State) :
  sameButSelection s (setState Indeterminate v s).
Proof. repeat split. Qed.

Lemma settings_fields (a b : InspireTree) :
  settings a = settings b ->
  config a = config b /\ muted a = muted b
  /\ initialized a = initialized b /\ promise a = promise b
  /\ timers a = timers b.
Proof.
  unfold settings, muted. intros H. inversion H. auto.
Qed.

Lemma progress_refl (t : InspireTree) : progress [] t t.
Proof. split; [reflexivity | now rewrite app_nil_r]. Qed.

Lemma progress_trans (ms1 ms2 : list Milestone) (a b c : InspireTree) :
  progress ms1 a b -> progress ms2 b c -> progress (ms1 ++ ms2) a c.
Proof.
  intros [S1 T1] [S2 T2]. split; [congruence |].
  rewrite T2, T1. now rewrite app_assoc.
Qed.

Lemma progress_advance (R : State -> State -> Prop) (ms : list Milestone)
      (a b : InspireTree) :
  advance R ms a b -> progress ms a b.
Proof. intros (S & _ & T). split; assumption. Qed.

Lemma progress_observe (o : Obs) (t : InspireTree) :
  progress (milestone o) t (observe o t).
Proof.
  split; [reflexivity |]. simpl. rewrite milestones_app. simpl.
  now rewrite app_nil_r.
Qed.

Lemma progress_emit (name : string) (payload : Payload) (t : InspireTree) :
  progress (if muted_truthy (muted t) then []
            else milestone (Emitted name payload)) t (emit name payload t).
Proof.
  unfold emit. destruct (muted_truthy (muted t)); simpl negb; cbv iota.
  - apply progress_refl.
  - apply progress_observe.
Qed.

Lemma progress_removeAll (t : InspireTree) : progress [] t (removeAll t).
Proof.
  unfold removeAll, dom_applyChanges.
  split; [reflexivity |]. simpl. rewrite !milestones_app. simpl.
  now rewrite !app_nil_r.
Qed.

Lemma availableRoots_exist (l : TreeNodes) (p : Path) :
  In p (availableRoots l) -> exists n, nodeAt l p = Some n.
Proof.
  unfold availableRoots. intros H. apply filter_In in H. destruct H as [H _].
  apply in_map_iff in H. destruct H as (i & <- & Hi).
  apply in_seq in Hi. simpl.
  destruct (nth_error l i) eqn:E; [eauto |].
  apply nth_error_None in E. lia.
Qed.

Section Loading.

Variable cuid : nat -> string.

Lemma advance_selectFirstAvailableNode (t : InspireTree) :
  advance sameButSelection
          (match head (availableRoots (model t)) with
           | Some p => [NodeSelected p]
           | None => []
           end) t (selectFirstAvailableNode t).
Proof.
  unfold selectFirstAvailableNode.
  destruct (availableRoots (model t)) as [| p rest] eqn:E; simpl.
  - apply silent_advance, silent_refl; auto using sameButSelection_refl.
  - assert (Hin : In p (availableRoots (model t))) by (rewrite E; now left).
    destruct (availableRoots_exist _ _ Hin) as [n Hn].
    pose proof (advance_select sameButSelection sameButSelection_refl
                  sameButSelection_trans sameButSelection_selected
                  sameButSelection_indeterminate p t) as H.
    now rewrite Hn in H.
Qed.

(** On an array of records [complete] returns. *)
Lemma complete_records (nodes : list Raw) (t : InspireTree) :
  complete cuid (Records nodes) t = Normal (completed cuid nodes t).
Proof.
  unfold completed, complete. cbv zeta.
  now destruct (collectionToModel cuid nodes _).
Qed.

(** What [complete(nodes)] does on a tree that is initialized, while the
    promise of the load is pending. *)
Lemma complete_initialized (nodes : list Raw) (t : InspireTree) :
  initialized t = true ->
  promise t = Pending ->
  milestones (trace (completed cuid nodes t))
  = milestones (trace t)
    ++ dispatched t DataLoaded
    ++ [ModelIsReplaced]
    ++ autoSelection (config t) (parsedModel cuid nodes t)
    ++ dispatched t ModelLoaded
    ++ [PromiseResolved]
  /\ related sameButSelection (parsedModel cuid nodes t)
             (model (completed cuid nodes t))
  /\ promise (completed cuid nodes t) = Fulfilled
  /\ timers (completed cuid nodes t) = timers t.
Proof.
  intros Hinit Hpend. unfold completed, complete.
  cbn [handed_isArray handed_payload].
  (* data.loaded *)
  assert (P1 : progress (dispatched t DataLoaded) t
                        (emitOrDelay true "data.loaded"
                                     (PNodes (List.length nodes)) t)
               /\ next_cuid (emitOrDelay true "data.loaded"
                                         (PNodes (List.length nodes)) t)
                  = next_cuid t).
  { unfold emitOrDelay. rewrite Hinit. cbn [negb andb].
    split; [apply progress_emit | apply next_cuid_emit]. }
  set (t1 := emitOrDelay true "data.loaded" (PNodes (List.length nodes)) t) in *.
  destruct P1 as [P1 N1].
  (* the old model goes *)
  assert (P2 : progress [] t1
                 (if Nat.ltb 0 (List.length (model t1)) then removeAll t1
                  else t1)
               /\ next_cuid (if Nat.ltb 0 (List.length (model t1))
                             then removeAll t1 else t1) = next_cuid t1).
  { destruct (Nat.ltb 0 (List.length (model t1))).
    - split; [apply progress_removeAll | reflexivity].
    - split; [apply progress_refl | reflexivity]. }
  set (t2 := if Nat.ltb 0 (List.length (model t1)) then removeAll t1
             else t1) in *.
  destruct P2 as [P2 N2].
  pose proof (progress_trans _ _ _ _ _ P1 P2) as P12.
  rewrite app_nil_r in P12.
  (* parsing *)
  assert (Hparsed : parsedModel cuid nodes t2 = parsedModel cuid nodes t).
  { apply parsedModel_depends; [congruence |].
    destruct P12 as [S _]. apply settings_fields in S. tauto. }
  pose proof (parse_quiet_collectionToModel sameButSelection
                sameButSelection_refl sameButSelection_trans cuid nodes t2)
    as [Q3 _].
  unfold parsedModel in Hparsed.
  destruct (collectionToModel cuid nodes t2) as [parsed t3].
  simpl in Hparsed, Q3. subst parsed.
  apply silent_advance in Q3; auto using sameButSelection_refl.
  apply progress_advance in Q3.
  pose proof (progress_trans _ _ _ _ _ P12 Q3) as P13.
  rewrite app_nil_r in P13.
  (* the model is replaced *)
  set (parsed := fst (collectionToModel cuid nodes t)) in *.
  set (t4 := observe ModelReplaced (set_model parsed t3)).
  assert (P4 : progress [ModelIsReplaced] t3 t4).
  { unfold t4. split; [reflexivity |]. simpl. rewrite milestones_app.
    reflexivity. }
  pose proof (progress_trans _ _ _ _ _ P13 P4) as P14.
  assert (M4 : model t4 = parsed) by reflexivity.
  (* selection *)
  assert (A5 : advance sameButSelection (autoSelection (config t) parsed) t4
                 (if truthy (require (selection (config t4)))
                     && Nat.eqb (selected_length t4) 0
                  then selectFirstAvailableNode t4 else t4)).
  { unfold autoSelection, selected_length. rewrite M4.
    destruct P14 as [S14 _]. apply settings_fields in S14.
    destruct S14 as (-> & _).
    destruct (truthy (require (selection (config t)))
              && Nat.eqb (List.length (selectedPaths parsed)) 0).
    - rewrite <- M4 at 1. apply advance_selectFirstAvailableNode.
    - apply silent_advance, silent_refl; auto using sameButSelection_refl. }
  set (t5 := if truthy (require (selection (config t4)))
                && Nat.eqb (selected_length t4) 0
             then selectFirstAvailableNode t4 else t4) in *.
  pose proof (progress_trans _ _ _ _ _ P14 (progress_advance _ _ _ _ A5))
    as P15.
  destruct A5 as (_ & M5 & _). rewrite M4 in M5.
  (* model.loaded *)
  destruct (settings_fields _ _ (proj1 P15)) as (C5 & Mu5 & I5 & Pr5 & Ti5).
  assert (P6 : progress (dispatched t ModelLoaded) t5
                        (emitOrDelay true "model.loaded" PModel t5)
               /\ model (emitOrDelay true "model.loaded" PModel t5) = model t5).
  { unfold emitOrDelay. rewrite I5, Hinit. cbn [negb andb].
    unfold dispatched. rewrite <- Mu5. split; [apply progress_emit |].
    unfold emit. now destruct (negb (muted_truthy (muted t5))). }
  set (t6 := emitOrDelay true "model.loaded" PModel t5) in *.
  destruct P6 as [P6 M6].
  pose proof (progress_trans _ _ _ _ _ P15 P6) as [S16 T16].
  destruct (settings_fields _ _ S16) as (_ & _ & _ & Pr6 & Ti6).
  (* the promise is resolved *)
  unfold resolve. rewrite Pr6, Hpend. simpl.
  rewrite !milestones_app. simpl. rewrite T16.
  repeat split.
  - rewrite app_nil_r. now rewrite <- !app_assoc.
  - rewrite M6. apply M5.
  - rewrite M6. apply M5.
  - assumption.
Qed.

End Loading.

Lemma runTimers_idle (t : InspireTree) : timers t = [] -> runTimers t = t.
Proof.
  intros H. unfold runTimers. rewrite H. simpl.
  destruct t; simpl in *. now subst.
Qed.

Section LoadOrder.

Variable cuid : nat -> string.

(** A loader that hands over [nodes] has [complete(nodes)] called once,
    while the promise is pending. *)
Lemma loadAll_delivers (loader : Loader) (nodes : list Raw)
      (t : InspireTree) :
  delivers loader nodes ->
  initialized t = true ->
  timers t = [] ->
  loadAll cuid loader t = completed cuid nodes (set_promise Pending t).
Proof.
  intros D Hi Ht.
  assert (Hc : timers (completed cuid nodes (set_promise Pending t)) = []).
  { destruct (complete_initialized cuid nodes (set_promise Pending t))
      as (_ & _ & _ & H); auto. rewrite H. exact Ht. }
  assert (H0 : runTimers (set_promise Pending t) = set_promise Pending t)
    by (apply runTimers_idle; assumption).
  unfold loadAll, load.
  destruct D as [nodes | nodes | nodes | p nodes Hthen Hout
                 | p nodes Hthen Hout];
    cbn [calls_now ending calls_later runCalls runCall];
    rewrite ?complete_records; cbn [executor app];
    try (unfold standardizePromise; rewrite Hout, Hthen);
    unfold settle; cbn [fold_left runCall];
    rewrite ?H0, ?complete_records; cbn [treeOf].
  - now apply runTimers_idle.
  - now apply runTimers_idle.
  - reflexivity.
  - reflexivity.
  - reflexivity.
Qed.

(** C4 (amended): on an initialized tree with no delayed emission pending,
    a successful load goes through its steps in this order: [data.loaded]
    is emitted, the model is replaced with the parsed collection, the first
    available root node is selected if a selection is required and the
    collection has none, [model.loaded] is emitted, the promise resolves.
    The two events are dispatched unless the tree is muted. *)
Theorem load_success_order :
  forall (loader : Loader) (nodes : list Raw) (t : InspireTree),
    delivers loader nodes ->
    initialized t = true ->
    timers t = [] ->
    milestones (trace (loadAll cuid loader t))
    = milestones (trace t)
      ++ dispatched t DataLoaded
      ++ [ModelIsReplaced]
      ++ autoSelection (config t) (parsedModel cuid nodes t)
      ++ dispatched t ModelLoaded
      ++ [PromiseResolved]
    /\ related sameButSelection (parsedModel cuid nodes t)
               (model (loadAll cuid loader t))
    /\ promise (loadAll cuid loader t) = Fulfilled.
Proof.
  intros loader nodes t D Hi Ht.
  rewrite (loadAll_delivers loader nodes t D Hi Ht).
  destruct (complete_initialized cuid nodes (set_promise Pending t))
    as (H1 & H2 & H3 & _); auto.
  assert (E : parsedModel cuid nodes (set_promise Pending t)
              = parsedModel cuid nodes t)
    by (apply parsedModel_depends; reflexivity).
  rewrite E in H1, H2. auto.
Qed.

End LoadOrder.

(** The theorem at work: a load of one record on a tree built from an
    empty array. *)
Lemma load_success_order_witness :
  milestones (trace (loadAll cuid_counter (LArray [leaf "9" "Z"]) emptyTree))
  = [DataLoaded; ModelIsReplaced; ModelLoaded; PromiseResolved].
Proof.
  pose proof (load_success_order cuid_counter (LArray [leaf "9" "Z"])
                [leaf "9" "Z"] emptyTree (delivers_array _)
                eq_refl eq_refl) as [H _].
  exact H.
Defined.

(** C4 (as stated it fails): the load the constructor makes of an array
    replaces the model and resolves the promise first; the two events are
    delayed by [setTimeout] and come last. *)
Lemma load_in_constructor_emits_last :
  initialized (newTree false (buildConfig (optionsWith (LArray [leaf "1" "A"]))))
  = false
  /\ delivers (LArray [leaf "1" "A"]) [leaf "1" "A"]
  /\ milestones
       (trace (loadAll cuid_counter (LArray [leaf "1" "A"])
                 (newTree false
                    (buildConfig (optionsWith (LArray [leaf "1" "A"]))))))
     = [ModelIsReplaced; PromiseResolved; DataLoaded; ModelLoaded]
  /\ [ModelIsReplaced; PromiseResolved; DataLoaded; ModelLoaded]
     <> [DataLoaded; ModelIsReplaced; ModelLoaded; PromiseResolved].
Proof.
  repeat split; try constructor. discriminate.
Qed.

(** ** A load that fails *)

Section LoadFailure.

Variable cuid : nat -> string.

Lemma reject_pending (err : string) (t : InspireTree) :
  promise t = Pending ->
  milestones (trace (reject err t)) = milestones (trace t) ++ [PromiseRejected]
  /\ model (reject err t) = model t
  /\ promise (reject err t) = RejectedWith err
  /\ timers (reject err t) = timers t.
Proof.
  intros H. unfold reject. rewrite H. simpl. rewrite milestones_app. auto.
Qed.

Lemma error_pending (err : string) (t : InspireTree) :
  promise t = Pending ->
  milestones (trace (error err t))
  = milestones (trace t) ++ dispatched t DataLoadError ++ [PromiseRejected]
  /\ model (error err t) = model t
  /\ promise (error err t) = RejectedWith err
  /\ timers (error err t) = timers t.
Proof.
  intros H. unfold error.
  pose proof (progress_emit "data.loaderror" (PError err) t) as [S T].
  simpl milestone in T.
  destruct (settings_fields _ _ S) as (_ & _ & _ & Hp & Ht).
  destruct (reject_pending err (emit "data.loaderror" (PError err) t))
    as (H1 & H2 & H3 & H4); [congruence |].
  rewrite H1, T, H2, H3, H4, Ht. unfold dispatched.
  repeat split; try (now rewrite app_assoc).
  unfold emit. now destruct (negb (muted_truthy (muted t))).
Qed.

(** What [complete] does on data that cannot be parsed, on a tree that is
    initialized: [data.loaded] is emitted and the old model removed, then
    the parse throws. *)
Lemma complete_unparsable (isArray : bool) (m : Malformed)
      (t : InspireTree) :
  initialized t = true ->
  exists t',
    complete cuid (Unparsable isArray m) t = Abrupt parseError t'
    /\ milestones (trace t') = milestones (trace t) ++ dispatched t DataLoaded
    /\ model t' = []
    /\ promise t' = promise t
    /\ timers t' = timers t
    /\ muted t' = muted t.
Proof.
  intros Hi. unfold complete. cbn [handed_isArray handed_payload].
  eexists. split; [reflexivity |].
  assert (P1 : progress (dispatched t DataLoaded) t
                        (emitOrDelay isArray "data.loaded" PData t)
               /\ model (emitOrDelay isArray "data.loaded" PData t)
                  = model t).
  { unfold emitOrDelay. rewrite Hi. cbn [negb andb].
    split; [apply progress_emit |].
    unfold emit. now destruct (negb (muted_truthy (muted t))). }
  set (t1 := emitOrDelay isArray "data.loaded" PData t) in *.
  destruct P1 as [P1 M1].
  assert (P2 : progress [] t1
                 (if Nat.ltb 0 (List.length (model t1)) then removeAll t1
                  else t1)
               /\ model (if Nat.ltb 0 (List.length (model t1))
                         then removeAll t1 else t1) = []).
  { destruct (model t1) as [| n l] eqn:E; simpl.
    - rewrite E. split; [apply progress_refl | reflexivity].
    - split; [apply progress_removeAll | reflexivity]. }
  set (t2 := if Nat.ltb 0 (List.length (model t1)) then removeAll t1
             else t1) in *.
  destruct P2 as [P2 M2].
  destruct (parse_quiet_parseMalformed sameButSelection
              sameButSelection_refl sameButSelection_trans cuid m t2)
    as [(S3 & _ & T3) M3].
  pose proof (progress_trans _ _ _ _ _ P1 P2) as [S12 T12].
  rewrite app_nil_r in T12.
  rewrite S12 in S3. apply settings_fields in S3.
  destruct S3 as (_ & Mu & _ & Pr & Ti).
  rewrite T3, T12, M3, M2. auto.
Qed.

(** C5 (amended): a load fails before any data is handed over, or in
    [complete], on data that cannot be parsed.  Before: the promise is
    rejected with the error and the model is left as it was;
    [data.loaderror] is emitted (unless the tree is muted) when the
    failure reaches the [error] callback, and not when it is an exception
    (the loader function throws, or the loader is no array-like, function
    or object).  In [complete]: [data.loaded] has been emitted and the old
    model removed when the parse throws, so the model is left empty; the
    promise is rejected when the exception leaves the executor (no
    [data.loaderror]) or is caught by the promise chain (which emits
    [data.loaderror] too), and stays pending when the loader function
    handed the data over later. *)
Theorem load_failure_rejects :
  forall (loader : Loader) (err : string) (stage : Stage) (fate : Fate)
         (t : InspireTree),
    fails loader err stage fate ->
    timers t = [] ->
    (stage = WhileParsing -> initialized t = true) ->
    milestones (trace (loadAll cuid loader t))
    = milestones (trace t)
      ++ match stage with
         | BeforeData => []
         | WhileParsing => dispatched t DataLoaded
         end
      ++ match fate with
         | Reported => dispatched t DataLoadError ++ [PromiseRejected]
         | Thrown => [PromiseRejected]
         | Lost => []
         end
    /\ model (loadAll cuid loader t)
       = match stage with
         | BeforeData => model t
         | WhileParsing => []
         end
    /\ promise (loadAll cuid loader t)
       = match fate with
         | Lost => Pending
         | _ => RejectedWith err
         end.
Proof.
  intros loader err stage fate t F Ht Hi.
  assert (H0 : runTimers (set_promise Pending t) = set_promise Pending t)
    by (apply runTimers_idle; assumption).
  destruct (error_pending err (set_promise Pending t) eq_refl)
    as (E1 & E2 & E3 & E4).
  assert (HE : runTimers (error err (set_promise Pending t))
               = error err (set_promise Pending t))
    by (apply runTimers_idle; now rewrite E4).
  assert (HR : forall e, runTimers (reject e (set_promise Pending t))
                         = reject e (set_promise Pending t))
    by (intros e; apply runTimers_idle; assumption).
  assert (HP : forall isArray m,
             stage = WhileParsing ->
             exists t',
               complete cuid (Unparsable isArray m) (set_promise Pending t)
               = Abrupt parseError t'
               /\ milestones (trace t')
                  = milestones (trace t) ++ dispatched t DataLoaded
               /\ model t' = []
               /\ promise t' = Pending
               /\ timers t' = []
               /\ muted t' = muted t).
  { intros isArray m Hs.
    destruct (complete_unparsable isArray m (set_promise Pending t))
      as (t' & C & T & M & P & Ti & Mu); [now apply Hi |].
    exists t'. repeat split; try assumption.
    rewrite Ti. exact Ht. }
  unfold loadAll, load.
  destruct F as [err | err | p err Hh Ho | p err Hh Ho | err | | v
                 | isArray m | isArray m | isArray m
                 | p isArray m Hh Ho | p isArray m Hh Ho];
    cbn [calls_now ending calls_later runCalls runCall app].
  - unfold settle. cbn [fold_left]. rewrite HE. auto.
  - unfold settle. cbn [fold_left runCall treeOf].
    rewrite H0. auto.
  - assert (Hs : standardizePromise p = [CallError err]).
    { unfold standardizePromise. rewrite Ho.
      destruct (has_error p); [reflexivity |]. simpl in Hh. now rewrite Hh. }
    rewrite Hs. unfold settle. cbn [fold_left runCall treeOf].
    rewrite H0. auto.
  - assert (Hs : standardizePromise p = [CallError err]).
    { unfold standardizePromise. rewrite Ho.
      destruct (has_error p); [reflexivity |]. simpl in Hh. now rewrite Hh. }
    rewrite Hs. unfold settle. cbn [fold_left runCall treeOf].
    rewrite H0. auto.
  - rewrite HR. simpl. rewrite milestones_app. auto.
  - rewrite HR. simpl. rewrite milestones_app. auto.
  - rewrite HR. simpl. rewrite milestones_app. auto.
  - destruct (HP isArray m eq_refl) as (t' & C & T & M & P & Ti & Mu).
    rewrite C. cbn [executor]. unfold settle. cbn [fold_left].
    destruct (reject_pending parseError t' P) as (R1 & R2 & R3 & R4).
    rewrite runTimers_idle by congruence.
    rewrite R1, R2, R3, T, <- app_assoc. auto.
  - destruct (HP isArray m eq_refl) as (t' & C & T & M & P & Ti & Mu).
    rewrite C. unfold settle. cbn [fold_left].
    destruct (reject_pending parseError t' P) as (R1 & R2 & R3 & R4).
    rewrite runTimers_idle by congruence.
    rewrite R1, R2, R3, T, <- app_assoc. auto.
  - destruct (HP isArray m eq_refl) as (t' & C & T & M & P & Ti & Mu).
    unfold settle. cbn [fold_left runCall]. rewrite H0, C. cbn [treeOf].
    rewrite T, M, P, app_nil_r. auto.
  - destruct (HP isArray m eq_refl) as (t' & C & T & M & P & Ti & Mu).
    assert (Hs : standardizePromise p
                 = [CallCompleteUnparsable isArray m; CallError parseError])
      by (unfold standardizePromise; now rewrite Ho, Hh).
    rewrite Hs. unfold settle. cbn [fold_left runCall].
    rewrite H0, C. cbn [treeOf].
    destruct (error_pending parseError t' P) as (R1 & R2 & R3 & R4).
    rewrite R1, R2, R3, T, M. unfold dispatched. rewrite Mu.
    rewrite <- !app_assoc. auto.
  - destruct (HP isArray m eq_refl) as (t' & C & T & M & P & Ti & Mu).
    assert (Hs : standardizePromise p
                 = [CallCompleteUnparsable isArray m; CallError parseError])
      by (unfold standardizePromise; now rewrite Ho, Hh).
    rewrite Hs. unfold settle. cbn [fold_left runCall].
    rewrite H0, C. cbn [treeOf].
    destruct (error_pending parseError t' P) as (R1 & R2 & R3 & R4).
    rewrite R1, R2, R3, T, M. unfold dispatched. rewrite Mu.
    rewrite <- !app_assoc. auto.
Qed.

(** An object with no [then], [error] or [catch]: nothing ever happens,
    and the promise stays pending. *)
Lemma load_plain_object_pends (t : InspireTree) (s : Settle) :
  timers t = [] ->
  trace (loadAll cuid (LObject (mkPromiseLike false false false s)) t)
  = trace t
  /\ promise (loadAll cuid (LObject (mkPromiseLike false false false s)) t)
     = Pending.
Proof.
  intros Ht. unfold loadAll. simpl.
  unfold standardizePromise. simpl.
  destruct s; simpl; rewrite runTimers_idle; auto.
Qed.

End LoadFailure.

(** The theorem at work: [load([null])] on the tree of the scenarios:
    [data.loaded] is emitted, the model is emptied, and the promise is
    rejected by the exception of the parse. *)
Lemma load_failure_rejects_witness :
  milestones
    (trace (loadAll cuid_counter (LUnparsable true (BadMember [] Nullish))
                    sampleTree))
  = milestones (trace sampleTree) ++ [DataLoaded; PromiseRejected]
  /\ model (sampleTree) <> []
  /\ model (loadAll cuid_counter (LUnparsable true (BadMember [] Nullish))
                    sampleTree)
     = []
  /\ promise (loadAll cuid_counter (LUnparsable true (BadMember [] Nullish))
                      sampleTree)
     = RejectedWith parseError.
Proof.
  pose proof (load_failure_rejects cuid_counter _ _ _ _ sampleTree
                (fails_unparsable true (BadMember [] Nullish)) eq_refl
                (fun _ => eq_refl)) as (H1 & H2 & H3).
  split; [exact H1 |]. split; [discriminate |]. split; [exact H2 | exact H3].
Defined.

(** C5 (as stated it fails): a number given for a loader is a failed load,
    on a tree that is not muted, and no [data.loaderror] is emitted: the
    promise is rejected by the exception, past the [error] callback. *)
Lemma load_of_number_emits_nothing :
  fails (LPrimitive (PrimNum 5)) "Invalid data loader." BeforeData Thrown
  /\ muted emptyTree = MutedFalse
  /\ trace (loadAll cuid_counter (LPrimitive (PrimNum 5)) emptyTree)
     = [Rejected "Invalid data loader."]
  /\ ~ In DataLoadError
          (milestones
             (trace (loadAll cuid_counter (LPrimitive (PrimNum 5))
                             emptyTree))).
Proof.
  repeat split; try constructor.
  simpl. intros [H | []]. discriminate.
Qed.

(** ** The configuration after construction *)

Section ConfigKept.

Variable cuid : nat -> string.

Lemma config_emit (name : string) (payload : Payload) (t : InspireTree) :
  config (emit name payload t) = config t.
Proof. unfold emit. now destruct (negb (muted_truthy (muted t))). Qed.

Lemma config_emitOrDelay (isArray : bool) (name : string)
      (payload : Payload) (t : InspireTree) :
  config (emitOrDelay isArray name payload t) = config t.
Proof.
  unfold emitOrDelay. destruct (negb (initialized t) && isArray);
    [reflexivity | apply config_emit].
Qed.

Lemma config_resolve (t : InspireTree) : config (resolve t) = config t.
Proof. unfold resolve. now destruct (promise t). Qed.

Lemma config_reject (err : string) (t : InspireTree) :
  config (reject err t) = config t.
Proof. unfold reject. now destruct (promise t). Qed.

Lemma config_complete (nodes : list Raw) (t : InspireTree) :
  config (completed cuid nodes t) = config t.
Proof.
  unfold completed, complete. cbn [handed_isArray handed_payload].
  set (t1 := emitOrDelay true "data.loaded" (PNodes (List.length nodes)) t).
  set (t2 := if Nat.ltb 0 (List.length (model t1)) then removeAll t1 else t1).
  assert (C2 : config t2 = config t).
  { unfold t2. destruct (Nat.ltb 0 (List.length (model t1)));
      apply config_emitOrDelay. }
  pose proof (parse_quiet_collectionToModel sameButSelection
                sameButSelection_refl sameButSelection_trans cuid nodes t2)
    as [(S3 & _) _].
  destruct (collectionToModel cuid nodes t2) as [parsed t3]. simpl in S3.
  apply settings_fields in S3. destruct S3 as (C3 & _).
  set (t4 := observe ModelReplaced (set_model parsed t3)).
  assert (C5 : config (if truthy (require (selection (config t4)))
                          && Nat.eqb (selected_length t4) 0
                       then selectFirstAvailableNode t4 else t4)
               = config t4).
  { destruct (truthy (require (selection (config t4)))
              && Nat.eqb (selected_length t4) 0); [| reflexivity].
    destruct (advance_selectFirstAvailableNode t4) as (S & _).
    apply settings_fields in S. tauto. }
  unfold dom_applyChanges.
  change (config (resolve (emitOrDelay true "model.loaded" PModel
            (if truthy (require (selection (config t4)))
                && Nat.eqb (selected_length t4) 0
             then selectFirstAvailableNode t4 else t4))) = config t).
  rewrite config_resolve, config_emitOrDelay, C5.
  change (config t3 = config t). congruence.
Qed.

Lemma config_complete_any (nodes : Handed) (t : InspireTree) :
  config (treeOf (complete cuid nodes t)) = config t.
Proof.
  destruct nodes as [records | isArray m].
  - rewrite complete_records. apply config_complete.
  - unfold complete. cbn [treeOf handed_isArray handed_payload].
    destruct (parse_quiet_parseMalformed sameButSelection
                sameButSelection_refl sameButSelection_trans cuid m
                (if Nat.ltb 0 (List.length
                                 (model (emitOrDelay isArray "data.loaded"
                                                     PData t)))
                 then removeAll (emitOrDelay isArray "data.loaded" PData t)
                 else emitOrDelay isArray "data.loaded" PData t))
      as [(S & _) _].
    apply settings_fields in S. destruct S as (-> & _).
    destruct (Nat.ltb 0 _); apply config_emitOrDelay.
Qed.

Lemma config_runCall (c : LoaderCall) (t : InspireTree) :
  config (treeOf (runCall cuid c t)) = config t.
Proof.
  destruct c; cbn [runCall].
  - apply config_complete_any.
  - apply config_complete_any.
  - unfold error. cbn [treeOf]. now rewrite config_reject, config_emit.
Qed.

Lemma config_runCalls (l : list LoaderCall) :
  forall t, config (treeOf (runCalls cuid l t)) = config t.
Proof.
  induction l as [| c l IH]; intros t; cbn [runCalls]; [reflexivity |].
  pose proof (config_runCall c t) as H.
  destruct (runCall cuid c t) as [t' | err t']; cbn [treeOf] in *.
  - now rewrite IH.
  - exact H.
Qed.

Lemma config_executor (c : Completion) :
  config (executor c) = config (treeOf c).
Proof. destruct c; [reflexivity | apply config_reject]. Qed.

Lemma config_load (loader : Loader) (t : InspireTree) :
  config (fst (load cuid loader t)) = config t.
Proof.
  unfold load. destruct loader as [records | isArray m | f | p | v];
    cbv beta iota delta [fst].
  - now rewrite config_executor, config_complete_any.
  - now rewrite config_executor, config_complete_any.
  - pose proof (config_runCalls (calls_now f) (set_promise Pending t)) as H.
    destruct (runCalls cuid (calls_now f) (set_promise Pending t))
      as [t1 | err t1]; cbn [treeOf] in H;
      [destruct (ending f) |]; cbv beta iota delta [fst];
      rewrite ?config_reject; exact H.
  - reflexivity.
  - now rewrite config_reject.
Qed.

Lemma construct_config (DOM : bool) (opts : Options) (t : InspireTree)
      (later : list LoaderCall) :
  construct DOM cuid opts = Built t later ->
  config t = buildConfig opts.
Proof.
  unfold construct. destruct (negb (loader_truthy (data opts)));
    [discriminate |].
  destruct (selection_isNull opts); [discriminate |].
  destruct (has_dom _ && _); [discriminate |].
  destruct (rendererThrows _); [discriminate |].
  pose proof (config_load (data (config (dom_attach
                                           (newTree DOM (buildConfig opts)))))
                          (dom_attach (newTree DOM (buildConfig opts)))) as H.
  destruct (load cuid _ _) as [t2 l2]. intros E. inversion E; subst.
  simpl in *. exact H.
Qed.

(** C10: in the configuration of a constructed tree, checkbox mode comes
    with [autoSelectChildren = true] and [autoDeselect = false], and
    whenever [autoSelectChildren] holds, forced or given by the caller,
    [multiple] is [true]. *)
Theorem construct_checkbox_forces_multiple :
  forall (DOM : bool) (opts : Options) (t : InspireTree)
         (later : list LoaderCall),
    construct DOM cuid opts = Built t later ->
    (mode (selection opts) = VStr "checkbox" ->
     autoSelectChildren (selection (config t)) = VBool true
     /\ autoDeselect (selection (config t)) = VBool false
     /\ multiple (selection (config t)) = VBool true)
    /\ (truthy (autoSelectChildren (selection (config t))) = true ->
        multiple (selection (config t)) = VBool true).
Proof.
  intros DOM opts t later H. rewrite (construct_config _ _ _ _ H).
  split.
  - intros Hm.
    assert (Hc : is_checkbox (mode (selection opts)) = true)
      by now rewrite Hm.
    destruct (buildConfig_checkbox opts Hc) as [H1 H2].
    repeat split; auto. apply buildConfig_multiple. now rewrite H1.
  - apply buildConfig_multiple.
Qed.

End ConfigKept.

(** The theorem at work: the constructor in checkbox mode. *)
Lemma construct_checkbox_forces_multiple_witness :
  construct false cuid_counter checkboxOptions = Built checkboxTree []
  /\ autoSelectChildren (selection (config checkboxTree)) = VBool true
  /\ autoDeselect (selection (config checkboxTree)) = VBool false
  /\ multiple (selection (config checkboxTree)) = VBool true.
Proof.
  split; [reflexivity |].
  apply (construct_checkbox_forces_multiple cuid_counter false
           checkboxOptions checkboxTree [] eq_refl).
  reflexivity.
Defined.

(** ** Where the nodes are *)

Lemma in_pathsFrom (l : TreeNodes) :
  forall i p,
    In p (pathsFrom i l)
    <-> exists j n r,
        p = (i + j) :: r /\ nth_error l j = Some n
        /\ (r = [] \/ In r (pathsFrom 0 (node_children n))).
Proof.
  induction l as [| c l IH]; intros i p.
  - simpl. split; [tauto |].
    intros (j & n & r & _ & H & _). destruct j; discriminate.
  - change (pathsFrom i (c :: l))
      with (([i] :: map (cons i) (descendants c)) ++ pathsFrom (S i) l).
    rewrite in_app_iff, IH. simpl In. rewrite in_map_iff. split.
    + intros [[H | (r & <- & Hr)] | (j & n & r & -> & Hn & Hr)].
      * subst p. exists 0, c, []. rewrite Nat.add_0_r. auto.
      * exists 0, c, r. rewrite Nat.add_0_r, <- descendants_children. auto.
      * exists (S j), n, r. rewrite Nat.add_succ_r. auto.
    + intros (j & n & r & -> & Hn & Hr). destruct j as [| j]; simpl in Hn.
      * inversion Hn; subst n. rewrite Nat.add_0_r. left.
        destruct Hr as [-> | Hr]; [now left |].
        right. exists r. now rewrite descendants_children.
      * right. exists j, n, r. rewrite Nat.add_succ_r. auto.
Qed.

Lemma pathsFrom_nonempty (l : TreeNodes) (i : nat) : ~ In [] (pathsFrom i l).
Proof.
  rewrite in_pathsFrom. intros (j & n & r & H & _). discriminate.
Qed.

(** The positions of the model are the positions a node is at. *)
Lemma in_allPaths :
  forall p l, In p (allPaths l) <-> exists n, nodeAt l p = Some n.
Proof.
  unfold allPaths.
  induction p as [| k r IH]; intros l.
  - rewrite nodeAt_nil. split.
    + intros H. now apply pathsFrom_nonempty in H.
    + intros [n H]. discriminate.
  - rewrite in_pathsFrom, nodeAt_cons. split.
    + intros (j & n & r' & E & Hn & Hr). simpl in E. inversion E; subst.
      rewrite Hn. destruct Hr as [-> | Hr]; [eauto |].
      destruct r' as [| a r'];
        [now apply pathsFrom_nonempty in Hr |].
      now apply IH.
    + intros [n H]. destruct (nth_error l k) as [m |] eqn:E;
        [| discriminate].
      exists k, m, r. repeat split; auto.
      destruct r as [| a r]; [now left |]. right. apply IH. eauto.
Qed.

Lemma infoAt_some (l : TreeNodes) (p : Path) :
  In p (allPaths l) <-> infoAt l p <> None.
Proof.
  rewrite in_allPaths. unfold infoAt.
  destruct (nodeAt l p); split; try congruence; eauto.
  intros [n H]. discriminate.
Qed.

(** ** The exact effect of a state change *)

Lemma model_observe (o : Obs) (t : InspireTree) : model (observe o t) = model t.
Proof. reflexivity. Qed.

Lemma model_emit (name : string) (payload : Payload) (t : InspireTree) :
  model (emit name payload t) = model t.
Proof. unfold emit. now destruct (negb (muted_truthy (muted t))). Qed.

Lemma setState_same (prop : StateProp) (value : bool) (s : State) :
  getState prop s = value -> setState prop value s = s.
Proof. destruct s, prop; simpl; intros <-; reflexivity. Qed.


Lemma getState_setState (prop : StateProp) (value : bool) (s : State) :
  getState prop (setState prop value s) = value.
Proof. destruct s, prop; reflexivity. Qed.

Lemma infoAt_node (l : TreeNodes) (p : Path) (n : TreeNode) :
  nodeAt l p = Some n ->
  infoAt l p = Some (node_id n, node_text n, node_state n,
                     List.length (node_children n)).
Proof. unfold infoAt. now intros ->. Qed.

(** [baseStateChange] leaves the model as [node.state(prop, value)] on the
    node would. *)
Lemma infoAt_baseStateChange (prop : StateProp) (value : bool)
      (verb : string) (p : Path) (t : InspireTree) (q : Path) :
  String.eqb verb "restored" = false ->
  infoAt (model (baseStateChange prop value verb p None t)) q
  = match infoAt (model t) q with
    | Some (i, tx, s, k) => Some (i, tx, setAt prop value [p] q s, k)
    | None => None
    end.
Proof.
  intros Hv. unfold baseStateChange, setAt. simpl existsb.
  rewrite orb_false_r.
  destruct (nodeAt (model t) p) as [n |] eqn:Hn.
  - destruct (Bool.eqb_spec (getState prop (node_state n)) value) as [E | E].
    + destruct (path_eqb_spec q p) as [-> | Hqp].
      * rewrite (infoAt_node _ _ _ Hn). now rewrite setState_same.
      * now destruct (infoAt (model t) q) as [[[[i tx] s] k] |].
    + rewrite Hv, andb_false_r.
      unfold dom_applyChanges. rewrite model_observe, model_emit.
      simpl model. rewrite infoAt_updateAt.
      destruct (infoAt (model t) q) as [[[[i tx] s] k] |]; auto.
      destruct (path_eqb_spec p q), (path_eqb_spec q p);
        congruence.
  - destruct (path_eqb_spec q p) as [-> | Hqp].
    + unfold infoAt. now rewrite Hn.
    + now destruct (infoAt (model t) q) as [[[[i tx] s] k] |].
Qed.



Lemma collectionPaths_root (l : TreeNodes) :
  collectionPaths true [] l = allPaths l.
Proof.
  unfold collectionPaths. simpl. apply map_id.
Qed.

(** ** Clearing a search *)




Lemma flagAt_info (prop : StateProp) (l : TreeNodes) (p : Path)
      (i tx : string) (s : State) (k : nat) :
  infoAt l p = Some (i, tx, s, k) -> flagAt prop l p = getState prop s.
Proof.
  unfold infoAt, flagAt, stateAt.
  destruct (nodeAt l p); [| discriminate].
  intros H. inversion H. reflexivity.
Qed.







(** ** Document order *)

Lemma before_irrefl (p : Path) : ~ before p p.
Proof.
  induction p as [| i p IH]; simpl; [tauto |].
  intros [H | [_ H]]; [lia | auto].
Qed.

Lemma before_trans (p q r : Path) : before p q -> before q r -> before p r.
Proof.
  revert q r. induction p as [| i p IH]; intros [| j q] [| k r]; simpl;
    try tauto.
  intros [H1 | [-> H1]] [H2 | [-> H2]]; try (left; lia).
  right. split; [reflexivity | eauto].
Qed.

Lemma sorted_app (l1 l2 : list Path) :
  StronglySorted before l1 ->
  StronglySorted before l2 ->
  (forall a b, In a l1 -> In b l2 -> before a b) ->
  StronglySorted before (l1 ++ l2).
Proof.
  induction 1 as [| x l1 S1 IH F1]; intros S2 H; simpl; [assumption |].
  constructor.
  - apply IH; [assumption |]. intros a b Ha Hb. apply H; [now right | auto].
  - apply Forall_app. split; [assumption |].
    apply Forall_forall. intros b Hb. apply H; [now left | assumption].
Qed.

Lemma sorted_map_cons (i : nat) (l : list Path) :
  StronglySorted before l -> StronglySorted before (map (cons i) l).
Proof.
  induction 1 as [| x l S IH F]; simpl; constructor; auto.
  apply Forall_forall. intros b Hb. apply in_map_iff in Hb.
  destruct Hb as (y & <- & Hy). simpl. right. split; [reflexivity |].
  rewrite Forall_forall in F. auto.
Qed.

Lemma sorted_pathsFrom (l : TreeNodes) :
  Forall (fun c => StronglySorted before (descendants c)) l ->
  forall i, StronglySorted before (pathsFrom i l).
Proof.
  induction 1 as [| c l Hc _ IH]; intros i.
  - constructor.
  - change (pathsFrom i (c :: l))
      with (([i] :: map (cons i) (descendants c)) ++ pathsFrom (S i) l).
    apply sorted_app.
    + constructor; [now apply sorted_map_cons |].
      apply Forall_forall. intros b Hb. apply in_map_iff in Hb.
      destruct Hb as (y & <- & Hy). simpl. right. split; [reflexivity |].
      destruct y; [| exact I].
      rewrite descendants_children in Hy.
      now apply pathsFrom_nonempty in Hy.
    + apply IH.
    + intros a b Ha Hb. apply in_pathsFrom in Hb.
      destruct Hb as (j & n & r & -> & _).
      destruct Ha as [<- | Ha].
      * simpl. left. lia.
      * apply in_map_iff in Ha. destruct Ha as (y & <- & _).
        simpl. left. lia.
Qed.

Lemma sorted_descendants (n : TreeNode) :
  StronglySorted before (descendants n).
Proof.
  induction n as [ident tx st ch IH] using TreeNode_nested_ind.
  rewrite descendants_children. simpl. now apply sorted_pathsFrom.
Qed.

(** The positions of a model come in document order. *)
Lemma sorted_allPaths (l : TreeNodes) : StronglySorted before (allPaths l).
Proof.
  apply sorted_pathsFrom. apply Forall_forall. intros c _.
  apply sorted_descendants.
Qed.

Lemma sorted_split (l1 l2 : list Path) (p : Path) :
  StronglySorted before (l1 ++ p :: l2) ->
  (forall q, In q l1 -> before q p) /\ (forall q, In q l2 -> before p q).
Proof.
  induction l1 as [| x l1 IH]; simpl; intros H.
  - apply StronglySorted_inv in H. destruct H as [_ F].
    rewrite Forall_forall in F. split; [tauto | assumption].
  - apply StronglySorted_inv in H. destruct H as [S F].
    destruct (IH S) as [H1 H2]. split; [| assumption].
    intros q [<- | Hq]; [| auto].
    rewrite Forall_forall in F. apply F. apply in_or_app. right. now left.
Qed.

Lemma NoDup_allPaths (l : TreeNodes) : NoDup (allPaths l).
Proof.
  generalize (sorted_allPaths l). generalize (allPaths l).
  induction 1 as [| x ps S IH F]; constructor; auto.
  intros Hin. rewrite Forall_forall in F.
  apply (before_irrefl x). auto.
Qed.

(** An ancestor comes before the node. *)
Lemma properPrefixes_before :
  forall p q, In q (properPrefixes p) -> before q p.
Proof.
  induction p as [| i r IH]; intros q; simpl; [tauto |].
  destruct r as [| j r']; [simpl; tauto |].
  intros [<- | H].
  - simpl. right. split; [reflexivity | exact I].
  - apply in_map_iff in H. destruct H as (y & <- & Hy).
    simpl. right. split; [reflexivity |]. now apply IH.
Qed.

Lemma isAncestorOf_before (q p : Path) :
  isAncestorOf q p = true -> before q p.
Proof.
  unfold isAncestorOf, ancestors. intros H.
  apply existsb_exists in H. destruct H as (a & Ha & E).
  destruct (path_eqb_spec q a); [subst a | discriminate].
  apply properPrefixes_before. now apply in_rev.
Qed.

(** Nothing after a node in document order is one of its ancestors. *)
Lemma later_is_no_ancestor (l : TreeNodes) (l1 l2 : list Path)
      (p q : Path) :
  allPaths l = l1 ++ p :: l2 -> In q l2 -> isAncestorOf q p = false.
Proof.
  intros E Hq. pose proof (sorted_allPaths l) as S. rewrite E in S.
  destruct (sorted_split _ _ _ S) as [_ H].
  destruct (isAncestorOf q p) eqn:A; [| reflexivity].
  apply isAncestorOf_before in A. specialize (H q Hq).
  elim (before_irrefl p). eapply before_trans; eassumption.
Qed.

(** ** The walk of a search *)

Lemma opened_twice (s : State) : opened (opened s) = opened s.
Proof. destruct s. reflexivity. Qed.

Lemma path_eqb_sym (p q : Path) : path_eqb p q = path_eqb q p.
Proof.
  destruct (path_eqb_spec p q), (path_eqb_spec q p); congruence.
Qed.

Lemma infoAt_expand (a : Path) (t : InspireTree) (q : Path) :
  infoAt (model (expand a t)) q
  = match infoAt (model t) q with
    | Some (i, tx, s, k) =>
        Some (i, tx, (if path_eqb q a then opened s else s), k)
    | None => None
    end.
Proof.
  unfold expand. rewrite infoAt_baseStateChange by reflexivity.
  simpl model. rewrite infoAt_updateAt.
  destruct (infoAt (model t) q) as [[[[i tx] s] k] |]; [| reflexivity].
  unfold setAt. simpl existsb. rewrite orb_false_r, (path_eqb_sym a q).
  now destruct (path_eqb q a).
Qed.

Lemma infoAt_expand_each (l : list Path) (q : Path) :
  forall t,
    infoAt (model (fold_left (fun acc a => expand a acc) l t)) q
    = match infoAt (model t) q with
      | Some (i, tx, s, k) =>
          Some (i, tx, (if existsb (path_eqb q) l then opened s else s), k)
      | None => None
      end.
Proof.
  induction l as [| a l IH]; intros t; simpl.
  - now destruct (infoAt (model t) q) as [[[[i tx] s] k] |].
  - rewrite IH, infoAt_expand.
    destruct (infoAt (model t) q) as [[[[i tx] s] k] |]; [| reflexivity].
    destruct (path_eqb q a), (existsb (path_eqb q) l); simpl;
      now rewrite ?opened_twice.
Qed.

Lemma infoAt_expandParents (p : Path) (t : InspireTree) (q : Path) :
  infoAt (model (expandParents p t)) q
  = match infoAt (model t) q with
    | Some (i, tx, s, k) =>
        Some (i, tx, (if isAncestorOf q p then opened s else s), k)
    | None => None
    end.
Proof. apply infoAt_expand_each. Qed.

Lemma silent_expand (a : Path) (t : InspireTree) :
  silent (fun _ _ => True) t (expand a t).
Proof.
  unfold expand.
  eapply silent_trans; [auto | apply silent_updateAt; auto |].
  apply silent_baseStateChange; auto.
Qed.

Lemma allPaths_expandParents (p : Path) (t : InspireTree) :
  allPaths (model (expandParents p t)) = allPaths (model t).
Proof.
  assert (S : silent (fun _ _ => True) t (expandParents p t)).
  { unfold expandParents. apply silent_fold; auto.
    intros a x. apply silent_expand. }
  destruct S as (_ & [P _] & _). exact P.
Qed.

(** Marking and expanding, one after the other, as long as no node is
    marked after it was expanded. *)
Lemma searchedState_compose (test : string -> bool) (hits1 hits2 : list Path)
      (v1 v2 : bool) (q : Path) (tx : string) (s : State) :
  (v2 = true -> existsb (isAncestorOf q) hits1 = false) ->
  searchedState test hits2 v2 q tx (searchedState test hits1 v1 q tx s)
  = searchedState test (hits1 ++ hits2) (v1 || v2) q tx s.
Proof.
  unfold searchedState. rewrite existsb_app.
  destruct (existsb (isAncestorOf q) hits1),
           (existsb (isAncestorOf q) hits2), v1, v2, s as [c f h i l r sl se];
    intros H; try (specialize (H eq_refl); discriminate);
    destruct r, (test tx); reflexivity.
Qed.

Lemma searchedState_removed (test : string -> bool) (hits : list Path)
      (v : bool) (q : Path) (tx : string) (s : State) :
  removed (searchedState test hits v q tx s) = removed s.
Proof.
  unfold searchedState.
  destruct (existsb (isAncestorOf q) hits), v, s as [c f h i l r sl se], r;
    reflexivity.
Qed.

Lemma walk_returning_nothing {S : Type} (f : Path -> S -> S) (p : Path)
      (ps : list Path) (s : S) :
  walk (returning_nothing f) (p :: ps) s
  = walk (returning_nothing f) ps (f p s).
Proof. reflexivity. Qed.

Section SearchWalk.

Variable test : string -> bool.

(** One call of the iteratee. *)
Lemma searchStep_effect (p : Path) (found : list Path) (t : InspireTree) :
  fst (searchStep (textPredicate test) p (found, t))
  = found ++ filter (matchAt test (model t)) [p]
  /\ allPaths (model (snd (searchStep (textPredicate test) p (found, t))))
     = allPaths (model t)
  /\ forall q,
      infoAt (model (snd (searchStep (textPredicate test) p (found, t)))) q
      = match infoAt (model t) q with
        | Some (i, tx, s, k) =>
            Some (i, tx,
                  searchedState test (filter (matchAt test (model t)) [p])
                                (path_eqb q p) q tx s, k)
        | None => None
        end.
Proof.
  unfold searchStep, matchAt. simpl filter.
  destruct (nodeAt (model t) p) as [node |] eqn:Hn.
  - rewrite (infoAt_node _ _ _ Hn).
    destruct (removed (node_state node)) eqn:Hr; simpl negb; cbv iota.
    + simpl. rewrite app_nil_r. repeat split. intros q.
      destruct (infoAt (model t) q) as [[[[i tx] s] k] |] eqn:Hq;
        [| reflexivity].
      unfold searchedState. simpl.
      destruct (path_eqb_spec q p) as [-> | Hqp]; [| reflexivity].
      rewrite (infoAt_node _ _ _ Hn) in Hq. inversion Hq; subst.
      now rewrite Hr.
    + unfold textPredicate. simpl andb.
      destruct (test (node_text node)) eqn:Ht; simpl fst; simpl snd.
      * repeat split.
        -- rewrite allPaths_expandParents. apply allPaths_updateAt.
        -- intros q. rewrite infoAt_expandParents. simpl model.
           rewrite infoAt_updateAt.
           destruct (infoAt (model t) q) as [[[[i tx] s] k] |] eqn:Hq;
             [| reflexivity].
           unfold searchedState. simpl existsb. rewrite orb_false_r.
           rewrite (path_eqb_sym p q).
           destruct (path_eqb_spec q p) as [-> | Hqp]; [| reflexivity].
           rewrite (infoAt_node _ _ _ Hn) in Hq. inversion Hq; subst.
           now rewrite Hr, Ht.
      * rewrite app_nil_r. repeat split.
        -- apply allPaths_updateAt.
        -- intros q. simpl model. rewrite infoAt_updateAt.
           destruct (infoAt (model t) q) as [[[[i tx] s] k] |] eqn:Hq;
             [| reflexivity].
           unfold searchedState. simpl existsb.
           rewrite (path_eqb_sym p q).
           destruct (path_eqb_spec q p) as [-> | Hqp]; [| reflexivity].
           rewrite (infoAt_node _ _ _ Hn) in Hq. inversion Hq; subst.
           now rewrite Hr, Ht.
  - assert (Hi : infoAt (model t) p = None)
      by (unfold infoAt; now rewrite Hn).
    rewrite Hi. simpl. rewrite app_nil_r. repeat split. intros q.
    destruct (infoAt (model t) q) as [[[[i tx] s] k] |] eqn:Hq;
      [| reflexivity].
    unfold searchedState. simpl.
    destruct (path_eqb_spec q p) as [-> | Hqp]; [congruence | reflexivity].
Qed.

Lemma matchAt_ext (l l' : TreeNodes) :
  (forall q, match infoAt l q, infoAt l' q with
             | Some (_, tx, s, _), Some (_, tx', s', _) =>
                 tx' = tx /\ removed s' = removed s
             | None, None => True
             | _, _ => False
             end) ->
  forall q, matchAt test l' q = matchAt test l q.
Proof.
  intros H q. specialize (H q). unfold matchAt.
  destruct (infoAt l q) as [[[[i tx] s] k] |],
           (infoAt l' q) as [[[[i' tx'] s'] k'] |]; try tauto.
  destruct H as [-> ->]. reflexivity.
Qed.

(** The whole walk, over positions in document order. *)
Lemma search_walk :
  forall (ps : list Path) (found : list Path) (t : InspireTree),
    (forall l1 p l2 q,
        ps = l1 ++ p :: l2 -> In q l2 -> isAncestorOf q p = false) ->
    fst (walk (returning_nothing (searchStep (textPredicate test))) ps (found, t))
    = found ++ filter (matchAt test (model t)) ps
    /\ allPaths (model (snd (walk (returning_nothing (searchStep (textPredicate test)))
                                  ps (found, t))))
       = allPaths (model t)
    /\ forall q,
        infoAt (model (snd (walk (returning_nothing (searchStep (textPredicate test)))
                                 ps (found, t)))) q
        = match infoAt (model t) q with
          | Some (i, tx, s, k) =>
              Some (i, tx,
                    searchedState test (filter (matchAt test (model t)) ps)
                                  (existsb (path_eqb q) ps) q tx s, k)
          | None => None
          end.
Proof.
  induction ps as [| p ps IH]; intros found t Hord.
  - simpl. rewrite app_nil_r. repeat split. intros q.
    destruct (infoAt (model t) q) as [[[[i tx] s] k] |]; [| reflexivity].
    unfold searchedState. simpl. reflexivity.
  - rewrite !walk_returning_nothing.
    destruct (searchStep_effect p found t) as (F1 & P1 & I1).
    destruct (searchStep (textPredicate test) p (found, t)) as [found1 t1].
    simpl in F1, P1, I1.
    assert (Hord' : forall l1 p0 l2 q,
               ps = l1 ++ p0 :: l2 -> In q l2 -> isAncestorOf q p0 = false).
    { intros l1 p0 l2 q E. apply (Hord (p :: l1)). simpl. now rewrite E. }
    destruct (IH found1 t1 Hord') as (F2 & P2 & I2).
    assert (M : forall q, matchAt test (model t1) q
                          = matchAt test (model t) q).
    { apply matchAt_ext. intros q. rewrite I1.
      destruct (infoAt (model t) q) as [[[[i tx] s] k] |]; [| exact I].
      split; [reflexivity | apply searchedState_removed]. }
    rewrite (filter_ext _ _ M) in F2, I2.
    repeat split.
    + rewrite F2, F1. rewrite <- app_assoc. simpl filter.
      destruct (matchAt test (model t) p); reflexivity.
    + congruence.
    + intros q. rewrite I2, I1.
      destruct (infoAt (model t) q) as [[[[i tx] s] k] |]; [| reflexivity].
      rewrite searchedState_compose.
      * simpl existsb. simpl filter.
        destruct (matchAt test (model t) p); reflexivity.
      * intros Hv. apply existsb_exists in Hv.
        destruct Hv as (q' & Hin & E).
        destruct (path_eqb_spec q q'); [subst q' | discriminate].
        assert (A : isAncestorOf q p = false)
          by (apply (Hord [] p ps q eq_refl Hin)).
        simpl. destruct (matchAt test (model t) p); simpl;
          [now rewrite A | reflexivity].
Qed.

End SearchWalk.

(** ** Searching for a string *)

(** C6 (amended): without a custom search function, and with a non-empty
    string that is a regular expression, [search] walks the model once in
    document order and returns the nodes that are not removed and whose
    text passes the case-insensitive test, in that order.  Afterwards the
    nodes are the same; a node that is an ancestor of one of the returned
    nodes is expanded and shown, removed or not; every other node that is
    not removed has [hidden] set to the negation of whether its text
    passes the test; every other removed node is as it was; no other flag
    of any node has changed. *)
Theorem search_string_marks_and_expands :
  forall (regExp_i : string -> option (string -> bool)) (query : string)
         (test : string -> bool) (t : InspireTree),
    isFunction (search_option (config t)) = false ->
    query <> "" ->
    regExp_i query = Some test ->
    fst (search regExp_i (QString query) t)
    = Matches (filter (matchAt test (model t)) (allPaths (model t)))
    /\ allPaths (model (snd (search regExp_i (QString query) t)))
       = allPaths (model t)
    /\ forall p i tx s k,
        infoAt (model t) p = Some (i, tx, s, k) ->
        exists s',
          infoAt (model (snd (search regExp_i (QString query) t))) p
          = Some (i, tx, s', k)
          /\ sameButShown s s'
          /\ if aboveMatch test (model t) p
             then collapsed s' = false /\ hidden s' = false
             else collapsed s' = collapsed s
                  /\ hidden s' = if removed s then hidden s
                                 else negb (test tx).
Proof.
  intros regExp_i query test t Hc Hq Hre.
  unfold search. rewrite Hc.
  destruct (String.eqb_spec query ""); [contradiction |].
  rewrite Hre. unfold searchWith, recurseDown.
  rewrite collectionPaths_root.
  change (model (dom_batch t)) with (model t).
  destruct (search_walk test (allPaths (model t)) [] (dom_batch t))
    as (F & P & I).
  { intros l1 p l2 q E. now apply (later_is_no_ancestor (model t) l1 l2). }
  destruct (walk _ _ _) as [found t2]. simpl in F, P, I. simpl fst. simpl snd.
  change (model (dom_end t2)) with (model t2).
  repeat split; try assumption.
  - now rewrite F.
  - intros p i tx s k Hp. rewrite I, Hp.
    eexists. split; [reflexivity |].
    assert (V : existsb (path_eqb p) (allPaths (model t)) = true).
    { apply existsb_exists. exists p. split; [| apply path_eqb_refl].
      apply infoAt_some. congruence. }
    rewrite V. unfold searchedState, aboveMatch, sameButShown.
    destruct (existsb (isAncestorOf p) _), s as [c f h ind l r sl se], r;
      simpl; auto 10.
Qed.

(** The theorem at work: the scenario of the spec, a search for ["b"] in
    the tree of [A] with its child [B], and [C]. *)
Lemma search_string_marks_and_expands_witness :
  fst (search plainRegExp_i (QString "b") sampleTree) = Matches [[0; 0]]
  /\ flagAt Hidden
            (model (snd (search plainRegExp_i (QString "b") sampleTree))) [1]
     = true.
Proof.
  destruct (search_string_marks_and_expands plainRegExp_i "b"
              (contains_i "b") sampleTree eq_refl)
    as (H1 & _ & H3); [discriminate | reflexivity |].
  split; [exact H1 |].
  destruct (H3 [1] "3" "C" defaultState 0 eq_refl) as (s' & Hi & _ & Hf).
  rewrite (flagAt_info _ _ _ _ _ _ _ Hi).
  simpl in Hf. destruct Hf as [_ Hf]. exact Hf.
Defined.

(** C6 (as stated it fails): a removed node is not left untouched when a
    node below it matches: it is expanded as an ancestor of the match. *)
Lemma search_expands_removed_ancestor :
  flagAt Removed (model removedParentTree) [0] = true
  /\ fst (search plainRegExp_i (QString "B") removedParentTree)
     = Matches [[0; 0]]
  /\ flagAt Collapsed (model removedParentTree) [0] = true
  /\ flagAt Collapsed
            (model (snd (search plainRegExp_i (QString "B")
                                removedParentTree))) [0]
     = false.
Proof. repeat split. Qed.



(** ** Selecting a range *)

Lemma selectCalls_milestones (tr : list Obs) :
  selectCalls tr = selections (milestones tr).
Proof.
  induction tr as [| o tr IH]; [reflexivity |].
  unfold milestones, selections in *. simpl. rewrite flat_map_app, <- IH.
  destruct o; simpl; try reflexivity.
  destruct (String.eqb name "data.loaded"); [reflexivity |].
  destruct (String.eqb name "model.loaded"); [reflexivity |].
  destruct (String.eqb name "data.loaderror"); reflexivity.
Qed.

Lemma selections_app (a b : list Milestone) :
  selections (a ++ b) = selections a ++ selections b.
Proof. apply flat_map_app. Qed.

Lemma sameVisibility_refl (s : State) : sameVisibility s s.
Proof. repeat split. Qed.

Lemma sameVisibility_trans (a b c : State) :
  sameVisibility a b -> sameVisibility b c -> sameVisibility a c.
Proof. unfold sameVisibility. intuition congruence. Qed.

Lemma sameVisibility_selected (v : bool) (s : State) :
  sameVisibility s (setState SelectedProp v s).
Proof. repeat split. Qed.

Lemma sameVisibility_indeterminate (v : bool) (s : State) :
  sameVisibility s (setState Indeterminate v s).
Proof. repeat split. Qed.

Lemma stateAt_infoAt (l : TreeNodes) (p : Path) :
  stateAt l p
  = match infoAt l p with
    | Some (_, _, s, _) => Some s
    | None => None
    end.
Proof. unfold stateAt, infoAt. now destruct (nodeAt l p). Qed.

Lemma idAt_infoAt (l : TreeNodes) (p : Path) :
  idAt l p
  = match infoAt l p with
    | Some (i, _, _, _) => i
    | None => ""
    end.
Proof. unfold idAt, infoAt. now destruct (nodeAt l p). Qed.

Lemma flagAt_related (l l' : TreeNodes) (p : Path) :
  related sameVisibility l l' ->
  flagAt Collapsed l' p = flagAt Collapsed l p.
Proof.
  intros [_ H]. specialize (H p). unfold flagAt. rewrite !stateAt_infoAt.
  destruct (infoAt l p) as [[[[i tx] s] k] |],
           (infoAt l' p) as [[[[i' tx'] s'] k'] |]; try tauto.
  destruct H as (_ & _ & _ & _ & _ & H). exact H.
Qed.

(** Selecting nodes changes the visibility of none. *)
Lemma visible_related (l l' : TreeNodes) (p : Path) :
  related sameVisibility l l' -> visible l' p = visible l p.
Proof.
  intros H. unfold visible. rewrite !stateAt_infoAt.
  assert (F : forallb (fun a => negb (flagAt Collapsed l' a)) (ancestors p)
              = forallb (fun a => negb (flagAt Collapsed l a)) (ancestors p)).
  { induction (ancestors p) as [| a r IH]; simpl; [reflexivity |].
    now rewrite IH, (flagAt_related l l' a H). }
  rewrite F. destruct H as [_ H]. specialize (H p).
  destruct (infoAt l p) as [[[[i tx] s] k] |],
           (infoAt l' p) as [[[[i' tx'] s'] k'] |]; try tauto.
  destruct H as (_ & _ & _ & H1 & H2 & _). now rewrite H1, H2.
Qed.

Lemma idAt_related (l l' : TreeNodes) (p : Path) :
  related sameVisibility l l' -> idAt l' p = idAt l p.
Proof.
  intros [_ H]. specialize (H p). rewrite !idAt_infoAt.
  destruct (infoAt l p) as [[[[i tx] s] k] |],
           (infoAt l' p) as [[[[i' tx'] s'] k'] |]; tauto.
Qed.

Lemma after_split (pre rest : list Path) (p : Path) :
  ~ In p pre -> after p (pre ++ p :: rest) = rest.
Proof.
  induction pre as [| x pre IH]; simpl; intros H.
  - now rewrite path_eqb_refl.
  - destruct (path_eqb_spec x p) as [-> | _]; [tauto |].
    apply IH. tauto.
Qed.

Lemma NoDup_middle (pre rest : list Path) (p : Path) :
  NoDup (pre ++ p :: rest) -> ~ In p pre /\ ~ In p rest.
Proof.
  intros H. apply NoDup_remove_2 in H. rewrite in_app_iff in H. tauto.
Qed.

Lemma selectLoop_unfold (fuel : nat) (endId : string) (node : option Path)
      (t : InspireTree) :
  selectLoop fuel endId node t
  = match node with
    | None => Some t
    | Some p =>
        match nodeAt (model t) p with
        | None => Some t
        | Some n =>
            if String.eqb (node_id n) endId then Some t
            else
              match fuel with
              | O => None
              | S fuel' =>
                  selectLoop fuel' endId
                             (nextVisibleNode (model (select p t)) p)
                             (select p t)
              end
        end
    end.
Proof. destruct fuel; reflexivity. Qed.

Lemma find_ext {A : Type} (f g : A -> bool) (l : list A) :
  (forall x, f x = g x) -> find f l = find g l.
Proof.
  intros H. induction l as [| x l IH]; simpl; [reflexivity |].
  now rewrite H, IH.
Qed.

(** The loop of [selectBetween], from the nodes [l2] that lie before the
    end node [e]: it selects the visible ones of them and stops at [e]. *)
Lemma selectLoop_between (endId : string) (e : Path) (l3 : list Path) :
  forall (l2 pre : list Path) (fuel : nat) (t : InspireTree),
    allPaths (model t) = pre ++ l2 ++ e :: l3 ->
    visible (model t) e = true ->
    idAt (model t) e = endId ->
    (forall q, In q l2 -> visible (model t) q = true ->
               idAt (model t) q <> endId) ->
    List.length l2 <= fuel ->
    exists t',
      selectLoop fuel endId (find (visible (model t)) (l2 ++ e :: l3)) t
      = Some t'
      /\ related sameVisibility (model t) (model t')
      /\ milestones (trace t')
         = milestones (trace t)
           ++ map NodeSelected (filter (visible (model t)) l2).
Proof.
  induction l2 as [| q l2 IH]; intros pre fuel t Hp Hv Hid Hne Hf.
  - exists t. simpl. rewrite Hv, selectLoop_unfold.
    assert (He : In e (allPaths (model t)))
      by (rewrite Hp; apply in_or_app; right; now left).
    apply in_allPaths in He. destruct He as [n Hn].
    unfold idAt in Hid. rewrite Hn in *. subst endId.
    rewrite String.eqb_refl, app_nil_r.
    repeat split. apply related_refl, sameVisibility_refl.
  - assert (Hp' : allPaths (model t) = (pre ++ [q]) ++ l2 ++ e :: l3)
      by (rewrite Hp, <- app_assoc; reflexivity).
    simpl app. simpl find. simpl filter.
    destruct (visible (model t) q) eqn:Vq.
    + rewrite selectLoop_unfold.
      assert (Hq : In q (allPaths (model t)))
        by (rewrite Hp; apply in_or_app; right; now left).
      apply in_allPaths in Hq. destruct Hq as [n Hn]. rewrite Hn.
      assert (Hqid : String.eqb (node_id n) endId = false).
      { destruct (String.eqb_spec (node_id n) endId) as [E |];
          [| reflexivity].
        elim (Hne q (or_introl eq_refl) Vq). unfold idAt. now rewrite Hn. }
      rewrite Hqid. destruct fuel as [| fuel]; [simpl in Hf; lia |].
      pose proof (advance_select sameVisibility sameVisibility_refl
                    sameVisibility_trans sameVisibility_selected
                    sameVisibility_indeterminate q t) as (S1 & R1 & T1).
      rewrite Hn in T1.
      set (t1 := select q t) in *.
      assert (Hnext : nextVisibleNode (model t1) q
                      = find (visible (model t1)) (l2 ++ e :: l3)).
      { unfold nextVisibleNode. destruct R1 as [P1 _]. rewrite P1, Hp.
        change ((q :: l2) ++ e :: l3) with (q :: l2 ++ e :: l3).
        rewrite after_split; [reflexivity |].
        pose proof (NoDup_allPaths (model t)) as N. rewrite Hp in N.
        now apply NoDup_middle in N. }
      rewrite Hnext.
      destruct (IH (pre ++ [q]) fuel t1) as (t' & L & R2 & T2).
      * destruct R1 as [P1 _]. now rewrite P1.
      * now rewrite (visible_related _ _ e R1).
      * now rewrite (idAt_related _ _ e R1).
      * intros x Hx Vx. rewrite (idAt_related _ _ x R1).
        apply Hne; [now right |].
        now rewrite <- (visible_related _ _ x R1).
      * simpl in Hf. lia.
      * exists t'. split; [exact L |]. split.
        -- eapply related_trans; eauto using sameVisibility_trans.
        -- rewrite T2, T1, <- app_assoc. simpl.
           rewrite (filter_ext _ _ (fun x => visible_related _ _ x R1)).
           reflexivity.
    + destruct (IH (pre ++ [q]) fuel t) as (t' & L & R2 & T2); auto.
      * intros x Hx. apply Hne. now right.
      * simpl in Hf. lia.
      * exists t'. auto.
Qed.

Lemma NoDup_map_injective {A B : Type} (f : A -> B) (l : list A) (x y : A) :
  NoDup (map f l) -> In x l -> In y l -> f x = f y -> x = y.
Proof.
  induction l as [| a l IH]; simpl; intros N Hx Hy E; [tauto |].
  inversion N as [| ? ? Hn N']; subst.
  destruct Hx as [-> | Hx], Hy as [-> | Hy]; auto.
  - elim Hn. rewrite E. now apply in_map.
  - elim Hn. rewrite <- E. now apply in_map.
Qed.

Lemma selections_selected (ps : list Path) :
  selections (map NodeSelected ps) = ps.
Proof.
  induction ps as [| p ps IH]; [reflexivity |].
  unfold selections in *. simpl. now rewrite IH.
Qed.

(** C1 (amended): with [start] before [end] in document order, [end]
    visible and the ids of the tree distinct, [selectBetween(start, end)]
    returns, and it has called [select()] on exactly the visible nodes
    strictly after [start] and strictly before [end], in document order:
    neither [start] nor [end] is selected by it. *)
Theorem selectBetween_selects_strictly_between :
  forall (t : InspireTree) (startNode endNode : Path)
         (l1 l2 l3 : list Path),
    allPaths (model t) = l1 ++ startNode :: l2 ++ endNode :: l3 ->
    visible (model t) endNode = true ->
    NoDup (nodeIds (model t)) ->
    exists t',
      selectBetween startNode endNode t = Some t'
      /\ selectCalls (trace t')
         = selectCalls (trace t) ++ filter (visible (model t)) l2
      /\ ~ In startNode (filter (visible (model t)) l2)
      /\ ~ In endNode (filter (visible (model t)) l2).
Proof.
  intros t s e l1 l2 l3 Hp Hv Hids.
  pose proof (NoDup_allPaths (model t)) as N. rewrite Hp in N.
  destruct (NoDup_middle _ _ _ N) as [Hs1 Hs2].
  assert (N2 : NoDup ((l1 ++ s :: l2) ++ e :: l3))
    by (rewrite <- app_assoc; exact N).
  destruct (NoDup_middle _ _ _ N2) as [He1 _].
  assert (He : In e (allPaths (model t))).
  { rewrite Hp. apply in_or_app. right. right. apply in_or_app.
    right. now left. }
  pose proof He as He'. apply in_allPaths in He'. destruct He' as [en Hen].
  unfold selectBetween, selectBetweenFuel. rewrite Hen.
  change (model (dom_batch t)) with (model t).
  assert (Hnext : nextVisibleNode (model t) s
                  = find (visible (model t)) (l2 ++ e :: l3)).
  { unfold nextVisibleNode. rewrite Hp. now rewrite after_split. }
  rewrite Hnext.
  destruct (selectLoop_between (node_id en) e l3 l2 (l1 ++ [s])
              (List.length (allPaths (model t))) (dom_batch t))
    as (t' & L & R & T).
  - simpl model. rewrite Hp, <- app_assoc. reflexivity.
  - exact Hv.
  - unfold idAt. simpl model. now rewrite Hen.
  - intros q Hq _ E. simpl model in E.
    assert (Hql : In q (allPaths (model t))).
    { rewrite Hp. apply in_or_app. right. right. apply in_or_app. now left. }
    assert (Eid : idAt (model t) q = idAt (model t) e)
      by (rewrite E; unfold idAt; now rewrite Hen).
    pose proof (NoDup_map_injective _ _ q e Hids Hql He Eid) as ->.
    apply He1. apply in_or_app. right. now right.
  - rewrite Hp, !length_app. simpl. rewrite length_app. lia.
  - simpl model in *. rewrite L. exists (dom_end t'). split; [reflexivity |].
    split; [| split].
    + rewrite !selectCalls_milestones. unfold dom_end. simpl trace.
      rewrite milestones_app. simpl. rewrite app_nil_r, T.
      unfold dom_batch. simpl trace. rewrite milestones_app. simpl.
      rewrite app_nil_r, selections_app, selections_selected. reflexivity.
    + intros H. apply filter_In in H. apply Hs2.
      apply in_or_app. left. tauto.
    + intros H. apply filter_In in H. apply He1.
      apply in_or_app. right. right. tauto.
Qed.

(** The theorem at work: from the first to the third of three root nodes,
    the second is selected. *)
Lemma selectBetween_selects_strictly_between_witness :
  exists t',
    selectBetween [0] [2] threeRootsTree = Some t'
    /\ selectCalls (trace t') = [[1]].
Proof.
  destruct (selectBetween_selects_strictly_between threeRootsTree
              [0] [2] [] [[1]] [] eq_refl eq_refl)
    as (t' & H1 & H2 & _).
  - repeat constructor; simpl; intuition discriminate.
  - exists t'. split; [exact H1 | exact H2].
Defined.

(** C1 (as stated it fails): from the first to the third of three visible
    root nodes, [select()] is called on the second and not on the third:
    the loop leaves at the end node before it selects. *)
Lemma selectBetween_leaves_end_unselected :
  allPaths (model threeRootsTree) = [[0]; [1]; [2]]
  /\ visible (model threeRootsTree) [2] = true
  /\ option_map (fun t' => selectCalls (trace t'))
                (selectBetween [0] [2] threeRootsTree)
     = Some [[1]]
  /\ ~ In [2] [[1]].
Proof.
  repeat split. simpl. intros [H | []]. discriminate.
Qed.

(* ================================================================== *)
(** * Part III: further properties of the orchestrator *)
(* ================================================================== *)

(** ** Muting, further *)

Lemma filter_nothing {A : Type} (f : A -> bool) (l : list A) :
  (forall x, In x l -> f x = false) -> filter f l = [].
Proof.
  induction l as [| x l IH]; simpl; intros H; [reflexivity |].
  rewrite (H x (or_introl eq_refl)). apply IH. auto.
Qed.

Lemma mem_string_In (s : string) (l : list string) :
  mem_string s l = true <-> In s l.
Proof.
  unfold mem_string. rewrite existsb_exists. split.
  - intros (x & Hx & E). apply String.eqb_eq in E. now subst.
  - intros H. exists s. split; [assumption | apply String.eqb_refl].
Qed.

(** X1: [unmute] with the very argument [mute] was called with leaves the
    tree not muted, whatever the argument: a name, an array of names, or
    none. *)
Theorem unmute_undoes_mute :
  forall (events : EventsArg) (t : InspireTree),
    muted (unmute events (mute events t)) = MutedFalse.
Proof.
  intros events t. unfold unmute, mute.
  destruct (events_isStringOrArray events) eqn:E; [| reflexivity].
  simpl. rewrite filter_nothing; [reflexivity |].
  intros x Hx. apply negb_false_iff. now apply mem_string_In.
Qed.

(** X2: on a tree muted by a list of names, [unmute(names)] takes exactly
    the given names out of the stored list.  Events are dispatched again
    only when no name is left: as long as one is left every event stays
    suppressed, the names just taken out included; once none is left,
    every event is dispatched. *)
Theorem unmute_removes_the_names :
  forall (events : EventsArg) (l : list string) (t : InspireTree),
    muted t = MutedNames l ->
    events_isStringOrArray events = true ->
    (forall s,
        In s (match muted (unmute events t) with
              | MutedNames r => r
              | _ => []
              end)
        <-> In s l /\ ~ In s (castArray events))
    /\ ((exists s, In s l /\ ~ In s (castArray events)) ->
        forall name payload,
          emit name payload (unmute events t) = unmute events t)
    /\ ((forall s, In s l -> In s (castArray events)) ->
        forall name payload,
          trace (emit name payload (unmute events t))
          = trace t ++ [Emitted name payload]).
Proof.
  intros events l t Hm He.
  assert (F : forall s,
             In s (filter (fun x => negb (mem_string x (castArray events))) l)
             <-> In s l /\ ~ In s (castArray events)).
  { intros s. rewrite filter_In. split; intros [H1 H2]; split; auto.
    - intros Hin. apply mem_string_In in Hin. rewrite Hin in H2.
      discriminate.
    - destruct (mem_string s (castArray events)) eqn:M; [| reflexivity].
      elim H2. now apply mem_string_In. }
  unfold unmute, muted in *. rewrite He, Hm. simpl difference.
  destruct (filter _ l) as [| a r] eqn:E.
  - split; [exact F |]. split.
    + intros (s & Hs). apply F in Hs. elim Hs.
    + intros _ name payload. reflexivity.
  - split; [exact F |]. split.
    + intros _ name payload. reflexivity.
    + intros Hall. assert (Ha : In a (a :: r)) by now left.
      apply F in Ha. destruct Ha as [H1 H2]. elim H2. now apply Hall.
Qed.

(** The theorem at work: of three muted names one is taken out, and the
    event of that name is still not dispatched. *)
Lemma unmute_removes_the_names_witness :
  muted (unmute (EvString "b")
                (mute (EvArray ["a"; "b"; "c"]) emptyTree))
  = MutedNames ["a"; "c"]
  /\ emit "b" PNone
          (unmute (EvString "b")
                  (mute (EvArray ["a"; "b"; "c"]) emptyTree))
     = unmute (EvString "b") (mute (EvArray ["a"; "b"; "c"]) emptyTree).
Proof.
  destruct (unmute_removes_the_names (EvString "b") ["a"; "b"; "c"]
              (mute (EvArray ["a"; "b"; "c"]) emptyTree)
              eq_refl eq_refl) as (_ & H & _).
  split; [reflexivity |].
  apply H. exists "a". split; [now left |].
  intros [E | []]. discriminate.
Defined.

(** ** State changes, further *)

Lemma infoAt_inv (l : TreeNodes) (p : Path) (i tx : string) (s : State)
      (k : nat) :
  infoAt l p = Some (i, tx, s, k) ->
  exists n, nodeAt l p = Some n /\ node_id n = i /\ node_text n = tx
            /\ node_state n = s.
Proof.
  unfold infoAt. destruct (nodeAt l p) as [n |]; [| discriminate].
  intros H. inversion H. eauto.
Qed.

Lemma model_dom_applyChanges (t : InspireTree) :
  model (dom_applyChanges t) = model t.
Proof. reflexivity. Qed.

(** After [baseStateChange] the flag of the node has the value, whatever
    the verb. *)
Lemma baseStateChange_sets (prop : StateProp) (value : bool) (verb : string)
      (p : Path) (t : InspireTree) (n : TreeNode) :
  nodeAt (model t) p = Some n ->
  exists n',
    nodeAt (model (baseStateChange prop value verb p None t)) p = Some n'
    /\ getState prop (node_state n') = value.
Proof.
  intros Hn. unfold baseStateChange. rewrite Hn.
  destruct (Bool.eqb_spec (getState prop (node_state n)) value) as [E | E].
  - eauto.
  - rewrite model_dom_applyChanges, model_emit. simpl model.
    set (t1 := if truthy (resetStateOnRestore (config t))
                  && String.eqb verb "restored"
               then resetState p t else t).
    assert (H1 : exists s1, infoAt (model t1) p
                            = Some (node_id n, node_text n, s1,
                                    List.length (node_children n))).
    { unfold t1. destruct (truthy _ && _).
      - unfold resetState. simpl model. rewrite infoAt_updateAt.
        rewrite (infoAt_node _ _ _ Hn). eauto.
      - rewrite (infoAt_node _ _ _ Hn). eauto. }
    destruct H1 as [s1 H1].
    pose proof (infoAt_updateAt (setState prop value) p (model t1) p) as H2.
    rewrite H1, path_eqb_refl in H2.
    apply infoAt_inv in H2. destruct H2 as (n' & Hn' & _ & _ & Hs).
    exists n'. split; [exact Hn' |]. rewrite Hs. apply getState_setState.
Qed.

(** X3: [baseStateChange] is idempotent: a second call with the same flag
    and value finds the state as asked for and changes nothing: no second
    event, no second render. *)
Theorem baseStateChange_twice :
  forall (prop : StateProp) (value : bool) (verb : string) (p : Path)
         (t : InspireTree),
    baseStateChange prop value verb p None
                    (baseStateChange prop value verb p None t)
    = baseStateChange prop value verb p None t.
Proof.
  intros prop value verb p t.
  destruct (nodeAt (model t) p) as [n |] eqn:Hn.
  - destruct (baseStateChange_sets prop value verb p t n Hn)
      as (n' & Hn' & Hv).
    unfold baseStateChange at 1. rewrite Hn', Hv.
    now rewrite Bool.eqb_reflx.
  - assert (E : baseStateChange prop value verb p None t = t)
      by (unfold baseStateChange; now rewrite Hn).
    now rewrite !E.
Qed.




(** ** Deselection, further *)

(** X6: [disableDeselection] works only where several nodes may be
    selected: there it stops auto-deselection, elsewhere it changes
    nothing; [enableDeselection] undoes it, and afterwards the tree
    auto-deselects exactly when it is configured to. *)
Theorem deselection_switch :
  forall t : InspireTree,
    canAutoDeselect (disableDeselection t)
    = canAutoDeselect t && negb (truthy (multiple (selection (config t))))
    /\ enableDeselection (disableDeselection t) = enableDeselection t
    /\ canAutoDeselect (enableDeselection t)
       = truthy (autoDeselect (selection (config t))).
Proof.
  intros t. unfold canAutoDeselect, disableDeselection, enableDeselection.
  destruct (truthy (multiple (selection (config t)))); simpl.
  - rewrite !andb_false_r, andb_true_r. auto.
  - rewrite !andb_true_r. auto.
Qed.

Section CheckboxMode.

Variable cuid : nat -> string.

(** X7: a tree constructed in checkbox mode never auto-deselects, whether
    deselection was disabled, enabled again, or left alone. *)
Theorem checkbox_tree_never_autodeselects :
  forall (DOM : bool) (opts : Options) (t : InspireTree)
         (later : list LoaderCall),
    construct DOM cuid opts = Built t later ->
    mode (selection opts) = VStr "checkbox" ->
    canAutoDeselect t = false
    /\ canAutoDeselect (disableDeselection t) = false
    /\ canAutoDeselect (enableDeselection t) = false.
Proof.
  intros DOM opts t later H Hm.
  assert (Hc : is_checkbox (mode (selection opts)) = true) by now rewrite Hm.
  destruct (buildConfig_checkbox opts Hc) as [_ Ha].
  rewrite <- (construct_config cuid _ _ _ _ H) in Ha.
  unfold canAutoDeselect, disableDeselection, enableDeselection.
  destruct (truthy (multiple (selection (config t)))); simpl;
    rewrite Ha; auto.
Qed.

End CheckboxMode.

(** The theorem at work: the tree built from [checkboxOptions]. *)
Lemma checkbox_tree_never_autodeselects_witness :
  canAutoDeselect (enableDeselection checkboxTree) = false.
Proof.
  destruct (checkbox_tree_never_autodeselects cuid_counter false
              checkboxOptions checkboxTree [] eq_refl eq_refl)
    as (_ & _ & H).
  exact H.
Defined.

(** ** Parsing, further *)

Section ParsingMore.

Variable cuid : nat -> string.

Lemma ensureId_keeps (rid : RawId) (t : InspireTree) :
  trace (snd (ensureId cuid rid t)) = trace t
  /\ allowsLoadEvents (snd (ensureId cuid rid t)) = allowsLoadEvents t
  /\ next_cuid (snd (ensureId cuid rid t))
     = next_cuid t + (if rawId_truthy rid then 0 else 1).
Proof.
  unfold ensureId. destruct (rawId_truthy rid).
  - destruct rid; simpl; rewrite Nat.add_0_r; auto.
  - simpl. rewrite Nat.add_1_r. auto.
Qed.

Lemma allowsLoadEvents_fire (ident : string) (s : State) (l : list string) :
  forall a,
    allowsLoadEvents
      (fold_left
         (fun acc eventName =>
            if stateByName eventName s
            then emit ("node." ++ eventName)%string (PNode ident) acc
            else acc) l a)
    = allowsLoadEvents a.
Proof.
  induction l as [| e l IH]; intros a; simpl; [reflexivity |].
  rewrite IH. destruct (stateByName e s); [| reflexivity].
  unfold emit. now destruct (negb (muted_truthy (muted a))).
Qed.

Lemma fireLoadEvents_keeps (ident : string) (s : State) (t : InspireTree) :
  allowsLoadEvents (fireLoadEvents ident s t) = allowsLoadEvents t
  /\ (allowsLoadEvents t = false -> fireLoadEvents ident s t = t).
Proof.
  unfold fireLoadEvents. destruct (allowsLoadEvents t) eqn:E.
  - split; [| discriminate]. now rewrite allowsLoadEvents_fire.
  - auto.
Qed.

Lemma parse_counts_records (array : list Raw) :
  Forall (parse_counts cuid) array ->
  forall t,
    allowsLoadEvents (snd (parseRecords cuid array t)) = allowsLoadEvents t
    /\ next_cuid (snd (parseRecords cuid array t))
       = next_cuid t + List.length (withoutId (flat_map rawEntries array))
    /\ flat_map nodeTexts (fst (parseRecords cuid array t))
       = map snd (flat_map rawEntries array)
    /\ (allowsLoadEvents t = false ->
        trace (snd (parseRecords cuid array t)) = trace t).
Proof.
  induction 1 as [| r rest Hr _ IH]; intros t; simpl.
  - rewrite Nat.add_0_r. auto.
  - destruct (Hr t) as (A1 & N1 & X1 & T1).
    destruct (parseRecord cuid r t) as [n t1]. simpl in A1, N1, X1, T1.
    destruct (IH t1) as (A2 & N2 & X2 & T2).
    destruct (parseRecords cuid rest t1) as [ns t2].
    simpl in *. unfold withoutId in *.
    rewrite filter_app, length_app, map_app, X1, X2.
    repeat split; try congruence; try lia.
    intros E. rewrite T2, T1; congruence.
Qed.

Lemma parse_counts_record (r : Raw) : parse_counts cuid r.
Proof.
  induction r as [rid tx rs kids IH] using Raw_nested_ind. intros t.
  rewrite parseRecord_unfold.
  destruct (ensureId_keeps rid t) as (T0 & A0 & N0).
  destruct (ensureId cuid rid t) as [ident t1]. simpl in T0, A0, N0.
  destruct (parse_counts_records kids IH t1) as (A1 & N1 & X1 & T1).
  destruct (parseRecords cuid kids t1) as [children t2].
  simpl in A1, N1, X1, T1.
  destruct (fireLoadEvents_keeps ident (parseState rs) t2) as [A2 F2].
  simpl fst. simpl snd. simpl rawEntries. unfold withoutId in *.
  simpl filter. simpl nodeTexts. simpl map.
  rewrite next_cuid_fireLoadEvents, X1.
  repeat split.
  - congruence.
  - rewrite N1, N0. simpl fst.
    destruct (rawId_truthy rid); simpl; lia.
  - intros E. rewrite F2 by congruence. rewrite T1; congruence.
Qed.

End ParsingMore.

(** Sorting rearranges, at every level. *)
Lemma Permutation_insertByKey {A : Type} (x : Z * A) (l : list (Z * A)) :
  Permutation (insertByKey x l) (x :: l).
Proof.
  induction l as [| y l IH]; simpl; [reflexivity |].
  destruct (Z.leb (fst x) (fst y)); [reflexivity |].
  rewrite IH. apply perm_swap.
Qed.

Lemma Permutation_sortByKey {A : Type} (l : list (Z * A)) :
  Permutation (sortByKey l) (map snd l).
Proof.
  unfold sortByKey. apply Permutation_map.
  induction l as [| x l IH]; simpl; [reflexivity |].
  rewrite Permutation_insertByKey. now constructor.
Qed.

Lemma Permutation_flat_map_pointwise {A B : Type} (f g : A -> list B)
      (l : list A) :
  Forall (fun x => Permutation (f x) (g x)) l ->
  Permutation (flat_map f l) (flat_map g l).
Proof.
  induction 1 as [| x l Hx _ IH]; simpl; [reflexivity |].
  now apply Permutation_app.
Qed.

Lemma Permutation_filter_same {A : Type} (f : A -> bool) (l l' : list A) :
  Permutation l l' -> Permutation (filter f l) (filter f l').
Proof.
  induction 1 as [| x l l' _ IH | x y l | l l' l'' _ IH1 _ IH2]; simpl.
  - reflexivity.
  - destruct (f x); [now constructor | assumption].
  - destruct (f x), (f y); try reflexivity. apply perm_swap.
  - now transitivity (filter f l').
Qed.

Lemma rawEntries_sortedRecords_of (key : Raw -> Z) (array : list Raw) :
  Forall (fun r => Permutation (rawEntries (sortedRecord key r))
                               (rawEntries r)) array ->
  Permutation (flat_map rawEntries (sortedRecords key array))
              (flat_map rawEntries array).
Proof.
  intros H. unfold sortedRecords.
  rewrite (Permutation_flat_map rawEntries
             (Permutation_sortByKey
                (map (fun c => (key c, sortedRecord key c)) array))).
  rewrite map_map. simpl. rewrite flat_map_concat_map, map_map.
  rewrite <- flat_map_concat_map.
  now apply Permutation_flat_map_pointwise.
Qed.

Lemma rawEntries_sortedRecord (key : Raw -> Z) (r : Raw) :
  Permutation (rawEntries (sortedRecord key r)) (rawEntries r).
Proof.
  induction r as [rid tx rs kids IH] using Raw_nested_ind.
  simpl. constructor.
  apply (rawEntries_sortedRecords_of key kids IH).
Qed.

Lemma rawEntries_sortedRecords (key : Raw -> Z) (array : list Raw) :
  Permutation (flat_map rawEntries (sortedRecords key array))
              (flat_map rawEntries array).
Proof.
  apply rawEntries_sortedRecords_of. apply Forall_forall. intros r _.
  apply rawEntries_sortedRecord.
Qed.

Section ParsingTheorems.

Variable cuid : nat -> string.

Lemma parse_counts_all (array : list Raw) (t : InspireTree) :
  allowsLoadEvents (snd (parseRecords cuid array t)) = allowsLoadEvents t
  /\ next_cuid (snd (parseRecords cuid array t))
     = next_cuid t + List.length (withoutId (flat_map rawEntries array))
  /\ flat_map nodeTexts (fst (parseRecords cuid array t))
     = map snd (flat_map rawEntries array)
  /\ (allowsLoadEvents t = false ->
      trace (snd (parseRecords cuid array t)) = trace t).
Proof.
  apply parse_counts_records. apply Forall_forall. intros r _.
  apply parse_counts_record.
Qed.

(** X9: unless load events are allowed ([allowLoadEvents] is a non-empty
    array), parsing a collection is not observable: nothing is emitted
    and no renderer hook is called; and parsing never changes the model
    the tree holds. *)
Theorem collectionToModel_is_silent :
  forall (array : list Raw) (t : InspireTree),
    allowsLoadEvents t = false ->
    trace (snd (collectionToModel cuid array t)) = trace t
    /\ model (snd (collectionToModel cuid array t)) = model t.
Proof.
  intros array t H. split.
  - unfold collectionToModel. now apply parse_counts_all.
  - apply (parse_quiet_collectionToModel (fun _ _ => True)); auto.
Qed.

(** X10: parsing drops no record and invents none: the texts of the
    parsed nodes, in document order, are the texts of the raw records, in
    the same order when no sort is configured and rearranged by the sort
    otherwise. *)
Theorem collectionToModel_keeps_every_record :
  forall (array : list Raw) (t : InspireTree),
    match sort (config t) with
    | None =>
        flat_map nodeTexts (fst (collectionToModel cuid array t))
        = map snd (flat_map rawEntries array)
    | Some _ =>
        Permutation (flat_map nodeTexts (fst (collectionToModel cuid array t)))
                    (map snd (flat_map rawEntries array))
    end.
Proof.
  intros array t. unfold collectionToModel.
  destruct (sort (config t)) as [key |]; cbv beta iota.
  - destruct (parse_counts_all (sortedRecords key array) t)
      as (_ & _ & X & _).
    match goal with
    | |- Permutation ?a _ =>
        replace a with (map snd (flat_map rawEntries
                                          (sortedRecords key array)))
          by (symmetry; exact X)
    end.
    apply Permutation_map, rawEntries_sortedRecords.
  - now apply parse_counts_all.
Qed.

(** X11: the id generator is called once for every record whose id is
    missing or falsy, and for no other record: parsing advances it by
    their number, sort or no sort. *)
Theorem collectionToModel_generates_missing_ids :
  forall (array : list Raw) (t : InspireTree),
    next_cuid (snd (collectionToModel cuid array t))
    = next_cuid t + List.length (withoutId (flat_map rawEntries array)).
Proof.
  intros array t. unfold collectionToModel.
  destruct (sort (config t)) as [key |]; cbv beta iota.
  - destruct (parse_counts_all (sortedRecords key array) t)
      as (_ & N & _ & _).
    match goal with
    | |- ?a = _ =>
        replace a with (next_cuid t
                        + List.length
                            (withoutId (flat_map rawEntries
                                                 (sortedRecords key array))))
          by (symmetry; exact N)
    end.
    f_equal. apply Permutation_length.
    apply Permutation_filter_same, rawEntries_sortedRecords.
  - now apply parse_counts_all.
Qed.

End ParsingTheorems.

(** The theorem at work: nothing is observed when the sample records are
    parsed on a tree that allows no load events. *)
Lemma collectionToModel_is_silent_witness :
  trace (snd (collectionToModel cuid_counter sampleRecords emptyTree))
  = trace emptyTree.
Proof.
  destruct (collectionToModel_is_silent cuid_counter sampleRecords emptyTree
              eq_refl) as [H _].
  exact H.
Defined.

(** ** Searching, further *)


Lemma grows_refl (P : Obs -> bool) (t : InspireTree) : grows P t t.
Proof. exists []. now rewrite app_nil_r. Qed.

Lemma grows_trans (P : Obs -> bool) (a b c : InspireTree) :
  grows P a b -> grows P b c -> grows P a c.
Proof.
  intros (x & Hx & Px) (y & Hy & Py). exists (x ++ y). split.
  - now rewrite Hy, Hx, app_assoc.
  - rewrite forallb_app. now rewrite Px, Py.
Qed.

Lemma grows_same_trace (P : Obs -> bool) (t t' : InspireTree) :
  trace t' = trace t -> grows P t t'.
Proof. intros H. exists []. now rewrite app_nil_r. Qed.

Lemma grows_expand (a : Path) (t : InspireTree) :
  grows expandNoise t (expand a t).
Proof.
  unfold expand, baseStateChange. simpl model.
  destruct (nodeAt (updateAt a (setState Hidden false) (model t)) a)
    as [n |]; [| now apply grows_same_trace].
  destruct (Bool.eqb _ false); [now apply grows_same_trace |].
  change (String.eqb "expanded" "restored") with false.
  rewrite !andb_false_r. unfold dom_applyChanges, emit, observe.
  destruct (negb (muted_truthy _)); simpl trace.
  - exists [Emitted "node.expanded" (PNode (node_id n)); DomApplyChanges].
    split; [now rewrite <- app_assoc | reflexivity].
  - exists [DomApplyChanges]. split; reflexivity.
Qed.

Lemma grows_expandParents (p : Path) (t : InspireTree) :
  grows expandNoise t (expandParents p t).
Proof.
  unfold expandParents. generalize (ancestors p). intros l. revert t.
  induction l as [| a l IH]; intros t; simpl; [apply grows_refl |].
  eapply grows_trans; [apply grows_expand | apply IH].
Qed.

Section SearchMore.

Variable test : string -> bool.

Lemma searchStep_keeps (p : Path) (found : list Path) (t : InspireTree) :
  settings (snd (searchStep (textPredicate test) p (found, t))) = settings t
  /\ grows expandNoise t (snd (searchStep (textPredicate test) p (found, t))).
Proof.
  unfold searchStep.
  destruct (nodeAt (model t) p) as [node |];
    [| split; [reflexivity | apply grows_refl]].
  destruct (negb (removed (node_state node)));
    [| split; [reflexivity | apply grows_refl]].
  destruct (textPredicate test node); simpl snd.
  - set (t1 := set_model (updateAt p (setState Hidden (negb true)) (model t))
                         t).
    split.
    + assert (S : silent (fun _ _ => True) t1 (expandParents p t1)).
      { unfold expandParents. apply silent_fold; auto.
        intros a x. apply silent_expand. }
      destruct S as (S & _). exact S.
    + eapply grows_trans; [| apply (grows_expandParents p t1)].
      now apply grows_same_trace.
  - split; [reflexivity | now apply grows_same_trace].
Qed.

Lemma search_walk_keeps :
  forall (ps : list Path) (found : list Path) (t : InspireTree),
    settings (snd (walk (returning_nothing (searchStep (textPredicate test)))
                        ps (found, t))) = settings t
    /\ grows expandNoise t
             (snd (walk (returning_nothing (searchStep (textPredicate test)))
                        ps (found, t))).
Proof.
  induction ps as [| p ps IH]; intros found t.
  - simpl. split; [reflexivity | apply grows_refl].
  - rewrite walk_returning_nothing.
    destruct (searchStep_keeps p found t) as [S1 G1].
    destruct (searchStep (textPredicate test) p (found, t)) as [found1 t1].
    simpl in S1, G1. destruct (IH found1 t1) as [S2 G2].
    split; [congruence | eapply grows_trans; eassumption].
Qed.

End SearchMore.

Lemma searchedState_twice (test : string -> bool) (hits : list Path)
      (v : bool) (q : Path) (tx : string) (s : State) :
  searchedState test hits v q tx (searchedState test hits v q tx s)
  = searchedState test hits v q tx s.
Proof.
  unfold searchedState.
  destruct (existsb (isAncestorOf q) hits), v, s as [c f h i l r sl se], r,
    (test tx); reflexivity.
Qed.

Section SearchTwice.

Variable regExp_i : string -> option (string -> bool).

(** What a search for a string leaves, in full. *)
Lemma search_string_effect (query : string) (test : string -> bool)
      (t : InspireTree) :
  isFunction (search_option (config t)) = false ->
  query <> "" ->
  regExp_i query = Some test ->
  fst (search regExp_i (QString query) t)
  = Matches (filter (matchAt test (model t)) (allPaths (model t)))
  /\ allPaths (model (snd (search regExp_i (QString query) t)))
     = allPaths (model t)
  /\ settings (snd (search regExp_i (QString query) t)) = settings t
  /\ (exists inner,
         trace (snd (search regExp_i (QString query) t))
         = trace t ++ DomBatch :: inner ++ [DomEnd]
         /\ forallb expandNoise inner = true)
  /\ forall q,
      infoAt (model (snd (search regExp_i (QString query) t))) q
      = match infoAt (model t) q with
        | Some (i, tx, s, k) =>
            Some (i, tx,
                  searchedState test
                    (filter (matchAt test (model t)) (allPaths (model t)))
                    (existsb (path_eqb q) (allPaths (model t))) q tx s, k)
        | None => None
        end.
Proof.
  intros Hc Hq Hre. unfold search. rewrite Hc.
  destruct (String.eqb_spec query ""); [contradiction |].
  rewrite Hre. unfold searchWith, recurseDown.
  rewrite collectionPaths_root.
  change (model (dom_batch t)) with (model t).
  destruct (search_walk test (allPaths (model t)) [] (dom_batch t))
    as (F & P & I).
  { intros l1 p l2 q E. now apply (later_is_no_ancestor (model t) l1 l2). }
  destruct (search_walk_keeps test (allPaths (model t)) [] (dom_batch t))
    as (S & inner & T & N).
  destruct (walk _ _ _) as [found t2].
  simpl in F, P, I, S, T. simpl fst. simpl snd.
  change (model (dom_end t2)) with (model t2).
  repeat split; try assumption.
  - now rewrite F.
  - exists inner. split; [| exact N].
    unfold dom_end. simpl trace. rewrite T, <- !app_assoc. reflexivity.
Qed.

(** X13: searching twice for the same string is searching once: the
    second search returns the same nodes and leaves every node as the
    first left it. *)
Theorem search_twice_is_search_once :
  forall (query : string) (test : string -> bool) (t : InspireTree),
    isFunction (search_option (config t)) = false ->
    query <> "" ->
    regExp_i query = Some test ->
    fst (search regExp_i (QString query)
                (snd (search regExp_i (QString query) t)))
    = fst (search regExp_i (QString query) t)
    /\ forall q,
        infoAt (model (snd (search regExp_i (QString query)
                                   (snd (search regExp_i (QString query)
                                                t))))) q
        = infoAt (model (snd (search regExp_i (QString query) t))) q.
Proof.
  intros query test t Hc Hq Hre.
  destruct (search_string_effect query test t Hc Hq Hre)
    as (F1 & P1 & S1 & _ & I1).
  set (t1 := snd (search regExp_i (QString query) t)) in *.
  assert (Hc1 : isFunction (search_option (config t1)) = false).
  { apply settings_fields in S1. destruct S1 as (C & _). now rewrite C. }
  destruct (search_string_effect query test t1 Hc1 Hq Hre)
    as (F2 & _ & _ & _ & I2).
  assert (M : forall q, matchAt test (model t1) q
                        = matchAt test (model t) q).
  { apply matchAt_ext. intros q. rewrite I1.
    destruct (infoAt (model t) q) as [[[[i tx] s] k] |]; [| exact I].
    split; [reflexivity | apply searchedState_removed]. }
  rewrite P1, (filter_ext _ _ M) in F2.
  split; [congruence |].
  intros q. rewrite I2, I1, P1, (filter_ext _ _ M).
  destruct (infoAt (model t) q) as [[[[i tx] s] k] |]; [| reflexivity].
  now rewrite searchedState_twice.
Qed.


End SearchTwice.

(** The theorem at work: the search of the scenario, twice. *)
Lemma search_twice_is_search_once_witness :
  fst (search plainRegExp_i (QString "b")
              (snd (search plainRegExp_i (QString "b") sampleTree)))
  = Matches [[0; 0]].
Proof.
  destruct (search_twice_is_search_once plainRegExp_i "b" (contains_i "b")
              sampleTree eq_refl) as [H _];
    [discriminate | reflexivity |].
  rewrite H. reflexivity.
Defined.


(** ** Selecting a range, further *)

Lemma selectLoop_keeps (endId : string) :
  forall (fuel : nat) (node : option Path) (t t' : InspireTree),
    selectLoop fuel endId node t = Some t' ->
    related sameVisibility (model t) (model t')
    /\ settings t' = settings t.
Proof.
  induction fuel as [| fuel IH]; intros node t t' H;
    rewrite selectLoop_unfold in H;
    (destruct node as [p |];
     [| inversion H; subst; split;
        [apply related_refl, sameVisibility_refl | reflexivity]]);
    (destruct (nodeAt (model t) p) as [n |] eqn:Hn;
     [| inversion H; subst; split;
        [apply related_refl, sameVisibility_refl | reflexivity]]);
    (destruct (String.eqb (node_id n) endId);
     [inversion H; subst; split;
      [apply related_refl, sameVisibility_refl | reflexivity] |]).
  - discriminate.
  - pose proof (advance_select sameVisibility sameVisibility_refl
                  sameVisibility_trans sameVisibility_selected
                  sameVisibility_indeterminate p t) as (S1 & R1 & _).
    destruct (IH _ _ _ H) as [R2 S2]. split; [| congruence].
    eapply related_trans; eauto using sameVisibility_trans.
Qed.

(** X15: whatever its arguments, [selectBetween] changes the selection
    only: when it returns, the tree has the same nodes at the same
    positions with the same ids, each as visible as before, and the
    settings of the tree are untouched. *)
Theorem selectBetween_keeps_the_view :
  forall (startNode endNode : Path) (t t' : InspireTree),
    selectBetween startNode endNode t = Some t' ->
    allPaths (model t') = allPaths (model t)
    /\ settings t' = settings t
    /\ forall p,
        visible (model t') p = visible (model t) p
        /\ idAt (model t') p = idAt (model t) p.
Proof.
  intros s e t t' H. unfold selectBetween, selectBetweenFuel in H.
  destruct (nodeAt (model t) e) as [en |]; [| discriminate].
  destruct (selectLoop _ _ _ _) as [t2 |] eqn:L; [| discriminate].
  inversion H; subst t'. apply selectLoop_keeps in L.
  destruct L as [R S]. simpl model in *.
  split; [apply R |]. split; [exact S |].
  intros p. split; [now apply visible_related | now apply idAt_related].
Qed.

(** The theorem at work: the three root nodes, the second selected. *)
Lemma selectBetween_keeps_the_view_witness :
  allPaths (model threeRootsSelected) = allPaths (model threeRootsTree)
  /\ visible (model threeRootsSelected) [1] = true.
Proof.
  destruct (selectBetween_keeps_the_view [0] [2] threeRootsTree
              threeRootsSelected eq_refl) as (H1 & _ & H3).
  split; [exact H1 |].
  destruct (H3 [1]) as [H _]. rewrite H. reflexivity.
Defined.

(** The loop of [selectBetween] when no visible node ahead has the id of
    the end node: it runs to the last node. *)
Lemma selectLoop_to_the_end (endId : string) :
  forall (l2 pre : list Path) (fuel : nat) (t : InspireTree),
    allPaths (model t) = pre ++ l2 ->
    (forall q, In q l2 -> visible (model t) q = true ->
               idAt (model t) q <> endId) ->
    List.length l2 <= fuel ->
    exists t',
      selectLoop fuel endId (find (visible (model t)) l2) t = Some t'
      /\ milestones (trace t')
         = milestones (trace t)
           ++ map NodeSelected (filter (visible (model t)) l2).
Proof.
  induction l2 as [| q l2 IH]; intros pre fuel t Hp Hne Hf.
  - exists t. simpl. rewrite selectLoop_unfold, app_nil_r. auto.
  - assert (Hp' : allPaths (model t) = (pre ++ [q]) ++ l2)
      by (rewrite Hp, <- app_assoc; reflexivity).
    simpl find. simpl filter.
    destruct (visible (model t) q) eqn:Vq.
    + rewrite selectLoop_unfold.
      assert (Hq : In q (allPaths (model t)))
        by (rewrite Hp; apply in_or_app; right; now left).
      apply in_allPaths in Hq. destruct Hq as [n Hn]. rewrite Hn.
      assert (Hqid : String.eqb (node_id n) endId = false).
      { destruct (String.eqb_spec (node_id n) endId) as [E |];
          [| reflexivity].
        elim (Hne q (or_introl eq_refl) Vq). unfold idAt. now rewrite Hn. }
      rewrite Hqid. destruct fuel as [| fuel]; [simpl in Hf; lia |].
      pose proof (advance_select sameVisibility sameVisibility_refl
                    sameVisibility_trans sameVisibility_selected
                    sameVisibility_indeterminate q t) as (S1 & R1 & T1).
      rewrite Hn in T1.
      set (t1 := select q t) in *.
      assert (Hnext : nextVisibleNode (model t1) q
                      = find (visible (model t1)) l2).
      { unfold nextVisibleNode. destruct R1 as [P1 _]. rewrite P1, Hp.
        rewrite after_split; [reflexivity |].
        pose proof (NoDup_allPaths (model t)) as N. rewrite Hp in N.
        now apply NoDup_middle in N. }
      rewrite Hnext.
      destruct (IH (pre ++ [q]) fuel t1) as (t' & L & T2).
      * destruct R1 as [P1 _]. now rewrite P1.
      * intros x Hx Vx. rewrite (idAt_related _ _ x R1).
        apply Hne; [now right |].
        now rewrite <- (visible_related _ _ x R1).
      * simpl in Hf. lia.
      * exists t'. split; [exact L |].
        rewrite T2, T1, <- app_assoc. simpl.
        rewrite (filter_ext _ _ (fun x => visible_related _ _ x R1)).
        reflexivity.
    + destruct (IH (pre ++ [q]) fuel t) as (t' & L & T2); auto.
      * intros x Hx. apply Hne. now right.
      * simpl in Hf. lia.
      * exists t'. auto.
Qed.

(** X16: when no visible node after [start] has the id of [end] ([end]
    lies before [start], is [start] itself, or is not visible),
    [selectBetween(start, end)] does not stop: it calls [select()] on every
    visible node after [start], down to the last node of the tree. *)
Theorem selectBetween_without_end_ahead :
  forall (t : InspireTree) (startNode endNode : Path) (l1 l2 : list Path)
         (en : TreeNode),
    allPaths (model t) = l1 ++ startNode :: l2 ->
    nodeAt (model t) endNode = Some en ->
    (forall q, In q l2 -> visible (model t) q = true ->
               idAt (model t) q <> node_id en) ->
    exists t',
      selectBetween startNode endNode t = Some t'
      /\ selectCalls (trace t')
         = selectCalls (trace t) ++ filter (visible (model t)) l2.
Proof.
  intros t s e l1 l2 en Hp Hen Hne.
  pose proof (NoDup_allPaths (model t)) as N. rewrite Hp in N.
  destruct (NoDup_middle _ _ _ N) as [Hs1 _].
  unfold selectBetween, selectBetweenFuel. rewrite Hen.
  change (model (dom_batch t)) with (model t).
  assert (Hnext : nextVisibleNode (model t) s
                  = find (visible (model t)) l2).
  { unfold nextVisibleNode. rewrite Hp. now rewrite after_split. }
  rewrite Hnext.
  destruct (selectLoop_to_the_end (node_id en) l2 (l1 ++ [s])
              (List.length (allPaths (model t))) (dom_batch t))
    as (t' & L & T).
  - simpl model. rewrite Hp, <- app_assoc. reflexivity.
  - exact Hne.
  - rewrite Hp, length_app. simpl. lia.
  - simpl model in *. rewrite L. exists (dom_end t'). split; [reflexivity |].
    rewrite !selectCalls_milestones. unfold dom_end. simpl trace.
    rewrite milestones_app. simpl. rewrite app_nil_r, T.
    unfold dom_batch. simpl trace. rewrite milestones_app. simpl.
    rewrite app_nil_r, selections_app, selections_selected. reflexivity.
Qed.

(** The theorem at work: from the first root node to itself, the two
    others are selected. *)
Lemma selectBetween_without_end_ahead_witness :
  exists t',
    selectBetween [0] [0] threeRootsTree = Some t'
    /\ selectCalls (trace t') = [[1]; [2]].
Proof.
  destruct (selectBetween_without_end_ahead threeRootsTree [0] [0] []
              [[1]; [2]] _ eq_refl eq_refl)
    as (t' & H1 & H2).
  - intros q [<- | [<- | []]] _; vm_compute; discriminate.
  - exists t'. split; [exact H1 | exact H2].
Defined.

(** ** Bounding nodes, further *)

Lemma leb_flip (a b : string) :
  a <> b -> String.leb b a = negb (String.leb a b).
Proof.
  intros H. destruct (String.leb a b) eqn:E1, (String.leb b a) eqn:E2;
    try reflexivity.
  - elim H. now apply String.leb_antisym.
  - destruct (String.leb_total a b); congruence.
Qed.

(** X17: for two nodes whose keys differ, [boundingNodes] does not depend
    on the order of its arguments: either way the node with the smaller
    key comes first and the other second. *)
Theorem boundingNodes_of_two_is_symmetric :
  forall x y : Path,
    removeDots (indexPath x) <> removeDots (indexPath y) ->
    boundingNodes [y; x] = boundingNodes [x; y]
    /\ boundingNodes [x; y]
       = if String.leb (removeDots (indexPath x)) (removeDots (indexPath y))
         then (Some x, Some y) else (Some y, Some x).
Proof.
  intros x y H. split; [| now apply boundingNodes_of_two].
  rewrite (boundingNodes_of_two x y H).
  rewrite (boundingNodes_of_two y x (not_eq_sym H)).
  rewrite (leb_flip _ _ H).
  now destruct (String.leb (removeDots (indexPath x))
                           (removeDots (indexPath y))).
Qed.

(** The theorem at work: the second child of the first root node and the
    third root node. *)
Lemma boundingNodes_of_two_is_symmetric_witness :
  boundingNodes [[2]; [0; 1]] = (Some [0; 1], Some [2]).
Proof.
  destruct (boundingNodes_of_two_is_symmetric [0; 1] [2]) as [H1 H2];
    [discriminate |].
  etransitivity; [exact H1 | exact H2].
Defined.

(** X18: two nodes whose index paths differ only in where the dots are
    get the same key: [boundingNodes] takes them for one node, returns the
    one given last, and no maximum. *)
Theorem boundingNodes_of_colliding_keys :
  forall x y : Path,
    removeDots (indexPath x) = removeDots (indexPath y) ->
    boundingNodes [x; y] = (Some y, None).
Proof.
  intros x y H. unfold boundingNodes. simpl. rewrite H.
  rewrite String.eqb_refl. simpl. now rewrite String.eqb_refl.
Qed.

(** The theorem at work: the first child of the second root node and the
    eleventh root node both have the key ["10"]. *)
Lemma boundingNodes_of_colliding_keys_witness :
  boundingNodes [[1; 0]; [10]] = (Some [10], None).
Proof.
  exact (boundingNodes_of_colliding_keys [1; 0] [10] eq_refl).
Defined.

(** ** Loading, further *)

Lemma statics_settings (a b : InspireTree) :
  settings a = settings b -> statics a = statics b.
Proof. unfold settings, statics. intros H. inversion H. reflexivity. Qed.

Lemma statics_emit (name : string) (payload : Payload) (t : InspireTree) :
  statics (emit name payload t) = statics t.
Proof. unfold emit. now destruct (negb (muted_truthy (muted t))). Qed.

Lemma statics_emitOrDelay (isArray : bool) (name : string)
      (payload : Payload) (t : InspireTree) :
  statics (emitOrDelay isArray name payload t) = statics t.
Proof.
  unfold emitOrDelay. destruct (negb (initialized t) && isArray);
    [reflexivity | apply statics_emit].
Qed.

Lemma statics_resolve (t : InspireTree) : statics (resolve t) = statics t.
Proof. unfold resolve. now destruct (promise t). Qed.

Lemma statics_reject (err : string) (t : InspireTree) :
  statics (reject err t) = statics t.
Proof. unfold reject. now destruct (promise t). Qed.

Lemma statics_fields (a b : InspireTree) :
  statics a = statics b ->
  config a = config b /\ muted a = muted b
  /\ initialized a = initialized b
  /\ allowsLoadEvents a = allowsLoadEvents b.
Proof. unfold statics, muted. intros H. inversion H. auto. Qed.

Section LoadingMore.

Variable cuid : nat -> string.

Lemma statics_complete (nodes : list Raw) (t : InspireTree) :
  statics (completed cuid nodes t) = statics t.
Proof.
  unfold completed, complete. cbn [handed_isArray handed_payload].
  set (t1 := emitOrDelay true "data.loaded" (PNodes (List.length nodes)) t).
  set (t2 := if Nat.ltb 0 (List.length (model t1)) then removeAll t1 else t1).
  assert (C2 : statics t2 = statics t).
  { unfold t2. destruct (Nat.ltb 0 (List.length (model t1)));
      apply statics_emitOrDelay. }
  pose proof (parse_quiet_collectionToModel sameButSelection
                sameButSelection_refl sameButSelection_trans cuid nodes t2)
    as [(S3 & _) _].
  destruct (collectionToModel cuid nodes t2) as [parsed t3]. simpl in S3.
  apply statics_settings in S3.
  set (t4 := observe ModelReplaced (set_model parsed t3)).
  assert (C5 : statics (if truthy (require (selection (config t4)))
                           && Nat.eqb (selected_length t4) 0
                        then selectFirstAvailableNode t4 else t4)
               = statics t4).
  { destruct (truthy (require (selection (config t4)))
              && Nat.eqb (selected_length t4) 0); [| reflexivity].
    destruct (advance_selectFirstAvailableNode t4) as (S & _).
    now apply statics_settings. }
  unfold dom_applyChanges.
  change (statics (resolve (emitOrDelay true "model.loaded" PModel
            (if truthy (require (selection (config t4)))
                && Nat.eqb (selected_length t4) 0
             then selectFirstAvailableNode t4 else t4))) = statics t).
  rewrite statics_resolve, statics_emitOrDelay, C5.
  change (statics t3 = statics t). congruence.
Qed.

(** X19: a promise-like loader whose settlement cannot reach [load] (it
    resolves but has no [then], or rejects but has neither [error] nor
    [catch]) leaves the load pending for ever: nothing is emitted, the
    promise neither resolves nor rejects, and the tree is as it was. *)
Theorem load_of_unheard_promise_pends :
  forall (p : PromiseLike) (t : InspireTree),
    unheard p ->
    timers t = [] ->
    loadAll cuid (LObject p) t = set_promise Pending t.
Proof.
  intros p t H Ht. unfold loadAll, load.
  assert (E : standardizePromise p = []).
  { unfold standardizePromise, unheard in *.
    destruct (outcome p);
      [now rewrite H | now rewrite H | | reflexivity].
    destruct H as [-> ->]. reflexivity. }
  rewrite E. simpl. now apply runTimers_idle.
Qed.

(** X20: a loader function that calls [complete] and then [error]: the
    load has succeeded, and the late error cannot undo it: the promise
    stays resolved and the model stays the parsed one; but
    [data.loaderror] is emitted all the same, after the promise was
    resolved. *)
Theorem late_error_cannot_reject :
  forall (nodes : list Raw) (err : string) (t : InspireTree),
    initialized t = true ->
    timers t = [] ->
    promise (loadAll cuid
               (LFunction (mkLoaderFunction
                             [CallComplete nodes; CallError err]
                             ReturnsNothing [])) t)
    = Fulfilled
    /\ related sameButSelection (parsedModel cuid nodes t)
               (model (loadAll cuid
                         (LFunction (mkLoaderFunction
                                       [CallComplete nodes; CallError err]
                                       ReturnsNothing [])) t))
    /\ milestones
         (trace (loadAll cuid
                   (LFunction (mkLoaderFunction
                                 [CallComplete nodes; CallError err]
                                 ReturnsNothing [])) t))
       = milestones (trace t)
         ++ dispatched t DataLoaded
         ++ [ModelIsReplaced]
         ++ autoSelection (config t) (parsedModel cuid nodes t)
         ++ dispatched t ModelLoaded
         ++ [PromiseResolved]
         ++ dispatched t DataLoadError.
Proof.
  intros nodes err t Hi Ht.
  destruct (complete_initialized cuid nodes (set_promise Pending t))
    as (M & R & P & T); auto.
  assert (E : parsedModel cuid nodes (set_promise Pending t)
              = parsedModel cuid nodes t)
    by (apply parsedModel_depends; reflexivity).
  rewrite E in M, R.
  pose proof (statics_complete nodes (set_promise Pending t)) as S.
  apply statics_fields in S. destruct S as (_ & Mu & _).
  set (t1 := completed cuid nodes (set_promise Pending t)) in *.
  assert (L : loadAll cuid
                (LFunction (mkLoaderFunction
                              [CallComplete nodes; CallError err]
                              ReturnsNothing [])) t
              = error err t1).
  { unfold loadAll, load.
    cbn [calls_now ending calls_later runCalls runCall].
    rewrite complete_records. cbn [runCalls runCall].
    unfold settle. cbn [fold_left].
    fold t1. apply runTimers_idle.
    unfold error, reject.
    assert (Pe : promise (emit "data.loaderror" (PError err) t1) = Fulfilled)
      by (unfold emit; destruct (negb (muted_truthy (muted t1))); exact P).
    rewrite Pe.
    unfold emit. destruct (negb (muted_truthy (muted t1))); simpl;
      rewrite T; exact Ht. }
  rewrite L. unfold error, reject.
  assert (Pe : promise (emit "data.loaderror" (PError err) t1) = Fulfilled)
    by (unfold emit; destruct (negb (muted_truthy (muted t1))); exact P).
  rewrite Pe. split; [exact Pe |]. split.
  - rewrite model_emit. exact R.
  - pose proof (progress_emit "data.loaderror" (PError err) t1) as [_ Tr].
    rewrite Tr, M. simpl milestone. unfold dispatched.
    change (muted (set_promise Pending t)) with (muted t) in Mu.
    rewrite Mu. rewrite <- !app_assoc. reflexivity.
Qed.

(** What [complete(nodes)] does on a tree that is not yet initialized,
    while the promise of the load is pending: the two events wait in the
    timer queue. *)
Lemma complete_uninitialized (nodes : list Raw) (t : InspireTree) :
  initialized t = false ->
  promise t = Pending ->
  milestones (trace (completed cuid nodes t))
  = milestones (trace t)
    ++ [ModelIsReplaced]
    ++ autoSelection (config t) (parsedModel cuid nodes t)
    ++ [PromiseResolved]
  /\ related sameButSelection (parsedModel cuid nodes t)
             (model (completed cuid nodes t))
  /\ promise (completed cuid nodes t) = Fulfilled
  /\ timers (completed cuid nodes t)
     = timers t ++ [("data.loaded", PNodes (List.length nodes));
                    ("model.loaded", PModel)].
Proof.
  intros Hinit Hpend. unfold completed, complete.
  cbn [handed_isArray handed_payload].
  assert (E1 : emitOrDelay true "data.loaded" (PNodes (List.length nodes)) t
               = set_timers
                   (timers t
                    ++ [("data.loaded", PNodes (List.length nodes))]) t)
    by (unfold emitOrDelay; now rewrite Hinit).
  rewrite E1. clear E1.
  set (t1 := set_timers
               (timers t ++ [("data.loaded", PNodes (List.length nodes))]) t).
  assert (P2 : progress [] t1
                 (if Nat.ltb 0 (List.length (model t1)) then removeAll t1
                  else t1)
               /\ next_cuid (if Nat.ltb 0 (List.length (model t1))
                             then removeAll t1 else t1) = next_cuid t1).
  { destruct (Nat.ltb 0 (List.length (model t1))).
    - split; [apply progress_removeAll | reflexivity].
    - split; [apply progress_refl | reflexivity]. }
  set (t2 := if Nat.ltb 0 (List.length (model t1)) then removeAll t1
             else t1) in *.
  destruct P2 as [P2 N2].
  assert (Hparsed : parsedModel cuid nodes t2 = parsedModel cuid nodes t).
  { apply parsedModel_depends; [exact N2 |].
    destruct P2 as [S _]. apply settings_fields in S. tauto. }
  pose proof (parse_quiet_collectionToModel sameButSelection
                sameButSelection_refl sameButSelection_trans cuid nodes t2)
    as [Q3 _].
  unfold parsedModel in Hparsed.
  destruct (collectionToModel cuid nodes t2) as [parsed t3].
  simpl in Hparsed, Q3. subst parsed.
  apply silent_advance in Q3; auto using sameButSelection_refl.
  apply progress_advance in Q3.
  pose proof (progress_trans _ _ _ _ _ P2 Q3) as P13.
  rewrite app_nil_r in P13.
  set (parsed := fst (collectionToModel cuid nodes t)) in *.
  set (t4 := observe ModelReplaced (set_model parsed t3)).
  assert (P4 : progress [ModelIsReplaced] t3 t4).
  { unfold t4. split; [reflexivity |]. simpl. rewrite milestones_app.
    reflexivity. }
  pose proof (progress_trans _ _ _ _ _ P13 P4) as P14.
  assert (M4 : model t4 = parsed) by reflexivity.
  assert (A5 : advance sameButSelection (autoSelection (config t) parsed) t4
                 (if truthy (require (selection (config t4)))
                     && Nat.eqb (selected_length t4) 0
                  then selectFirstAvailableNode t4 else t4)).
  { unfold autoSelection, selected_length. rewrite M4.
    destruct P14 as [S14 _]. apply settings_fields in S14.
    destruct S14 as (-> & _). change (config t1) with (config t).
    destruct (truthy (require (selection (config t)))
              && Nat.eqb (List.length (selectedPaths parsed)) 0).
    - rewrite <- M4 at 1. apply advance_selectFirstAvailableNode.
    - apply silent_advance, silent_refl; auto using sameButSelection_refl. }
  set (t5 := if truthy (require (selection (config t4)))
                && Nat.eqb (selected_length t4) 0
             then selectFirstAvailableNode t4 else t4) in *.
  pose proof (progress_trans _ _ _ _ _ P14 (progress_advance _ _ _ _ A5))
    as [S15 T15].
  destruct A5 as (_ & M5 & _). rewrite M4 in M5.
  destruct (settings_fields _ _ S15) as (C5 & Mu5 & I5 & Pr5 & Ti5).
  change (initialized t1) with (initialized t) in I5.
  change (promise t1) with (promise t) in Pr5.
  change (trace t1) with (trace t) in T15.
  unfold emitOrDelay. rewrite I5, Hinit. cbn [negb andb].
  unfold resolve.
  change (promise (set_timers (timers t5 ++ [("model.loaded", PModel)]) t5))
    with (promise t5).
  rewrite Pr5, Hpend. simpl.
  rewrite !milestones_app. simpl. rewrite T15, Ti5.
  repeat split.
  - rewrite app_nil_r. now rewrite <- !app_assoc.
  - apply M5.
  - apply M5.
  - unfold t1. simpl. now rewrite <- app_assoc.
Qed.

End LoadingMore.

Lemma load_of_unheard_promise_pends_witness :
  loadAll cuid_counter
          (LObject (mkPromiseLike false true true (Resolves [leaf "1" "A"])))
          emptyTree
  = set_promise Pending emptyTree.
Proof.
  apply (load_of_unheard_promise_pends cuid_counter
           (mkPromiseLike false true true (Resolves [leaf "1" "A"]))
           emptyTree); reflexivity.
Defined.

Lemma late_error_cannot_reject_witness :
  promise (loadAll cuid_counter
             (LFunction (mkLoaderFunction
                           [CallComplete [leaf "1" "A"]; CallError "late"]
                           ReturnsNothing [])) emptyTree)
  = Fulfilled
  /\ milestones
       (trace (loadAll cuid_counter
                 (LFunction (mkLoaderFunction
                               [CallComplete [leaf "1" "A"]; CallError "late"]
                               ReturnsNothing [])) emptyTree))
     = [DataLoaded; ModelIsReplaced; ModelLoaded; PromiseResolved;
        DataLoadError].
Proof.
  destruct (late_error_cannot_reject cuid_counter [leaf "1" "A"] "late"
              emptyTree eq_refl eq_refl) as (P & _ & M).
  split; [exact P | exact M].
Defined.

(** ** Construction, further *)

Section ConstructionMore.

Variable DOM : bool.
Variable cuid : nat -> string.

(** X21: constructing a tree over an array of records, with options the
    constructor does not refuse ([selection] is not [null], a target is
    given if the bundled renderer is compiled in, the renderer of the
    caller does not throw): when the constructor returns, the model is
    already replaced, the required selection made and the promise
    resolved, but neither [data.loaded] nor [model.loaded] has been
    emitted; both are emitted afterwards, when the timers fire, in that
    order. *)
Theorem construct_of_array_defers_load_events :
  forall (opts : Options) (nodes : list Raw),
    data opts = LArray nodes ->
    selection_isNull opts = false ->
    DOM && negb (truthy (target opts)) = false ->
    rendererThrows (newTree DOM (buildConfig opts)) = None ->
    exists t t',
      construct DOM cuid opts = Built t []
      /\ initialized t = true
      /\ promise t = Fulfilled
      /\ milestones (trace t)
         = [ModelIsReplaced]
           ++ autoSelection (buildConfig opts)
                (parsedModel cuid nodes (newTree DOM (buildConfig opts)))
           ++ [PromiseResolved]
      /\ afterwards cuid (construct DOM cuid opts) = Some t'
      /\ milestones (trace t')
         = milestones (trace t) ++ [DataLoaded; ModelLoaded].
Proof.
  intros opts nodes Hd Hs Ht Hr.
  set (t0 := set_promise Pending (dom_attach (newTree DOM (buildConfig opts)))).
  destruct (complete_uninitialized cuid nodes t0) as (M & _ & P & T);
    [reflexivity | reflexivity |].
  assert (E : parsedModel cuid nodes t0
              = parsedModel cuid nodes (newTree DOM (buildConfig opts)))
    by (apply parsedModel_depends; reflexivity).
  rewrite E in M.
  pose proof (statics_complete cuid nodes t0) as S.
  apply statics_fields in S. destruct S as (_ & Mu & _).
  assert (C : construct DOM cuid opts
              = Built (set_initialized true (completed cuid nodes t0)) []).
  { rewrite (construct_builds DOM cuid opts); auto;
      [| rewrite Hd; reflexivity].
    rewrite Hd. unfold load. rewrite complete_records. reflexivity. }
  exists (set_initialized true (completed cuid nodes t0)).
  eexists. rewrite C.
  split; [reflexivity |]. split; [reflexivity |]. split; [exact P |].
  split; [exact M |]. split; [reflexivity |].
  unfold runTimers, settle.
  change (timers (set_initialized true (completed cuid nodes t0)))
    with (timers (completed cuid nodes t0)).
  rewrite T. simpl.
  set (u := set_timers [] (set_initialized true (completed cuid nodes t0))).
  assert (Hu : muted u = MutedFalse) by (unfold u; simpl; exact Mu).
  assert (Hu' : muted (emit "data.loaded" (PNodes (List.length nodes)) u)
                = MutedFalse).
  { unfold emit. rewrite Hu. exact Hu. }
  rewrite (emit_unmuted _ _ _ Hu'), (emit_unmuted _ _ _ Hu).
  rewrite !milestones_app. simpl. rewrite <- app_assoc. reflexivity.
Qed.

End ConstructionMore.

Lemma construct_of_array_defers_load_events_witness :
  exists t t',
    construct false cuid_counter (optionsWith (LArray [leaf "1" "A"]))
    = Built t []
    /\ initialized t = true
    /\ promise t = Fulfilled
    /\ milestones (trace t)
       = [ModelIsReplaced]
         ++ autoSelection (buildConfig (optionsWith (LArray [leaf "1" "A"])))
              (parsedModel cuid_counter [leaf "1" "A"]
                 (newTree false
                    (buildConfig (optionsWith (LArray [leaf "1" "A"])))))
         ++ [PromiseResolved]
    /\ afterwards cuid_counter
         (construct false cuid_counter (optionsWith (LArray [leaf "1" "A"])))
       = Some t'
    /\ milestones (trace t')
       = milestones (trace t) ++ [DataLoaded; ModelLoaded].
Proof.
  apply (construct_of_array_defers_load_events false cuid_counter
           (optionsWith (LArray [leaf "1" "A"])) [leaf "1" "A"]);
    reflexivity.
Defined.
